(** * discharge: the website synchronisation task of [lib/deploy.js]

    A shallow embedding of [synchronizeWebsiteTask]: the key mapping
    [targetKey], the construction of the local manifest ([source]) and of
    the remote manifest ([target]), the change set, and the three loops
    that apply it to the bucket. *)

From stdpp Require Import gmap strings list fin_maps sorting pretty.
From Stdlib Require Import Ascii String.

Local Open Scope string_scope.

(** ** JavaScript string primitives used by the task *)

Module JS.

(** [s.endsWith(t)]: the last [length t] characters of [s] are [t]. *)
Definition endsWith (s t : string) : bool :=
  (String.length t <=? String.length s)%nat
  && String.eqb
       (String.substring (String.length s - String.length t)
                         (String.length t) s) t.

(** [s.split(c)] for a one-character separator [c]: the maximal pieces
    between separators; the result is never empty ([split] of the empty
    string is the array holding the empty string). *)
Fixpoint split (sep : ascii) (s : string) : list string :=
  match s with
  | EmptyString => [EmptyString]
  | String c s' =>
      if Ascii.eqb c sep then EmptyString :: split sep s'
      else match split sep s' with
           | [] => [String c EmptyString]
           | piece :: pieces => String c piece :: pieces
           end
  end.

(** [a.join(c)]. *)
Fixpoint join (sep : ascii) (l : list string) : string :=
  match l with
  | [] => EmptyString
  | [x] => x
  | x :: rest => x ++ String sep (join sep rest)
  end.

(** [a[0]]: [None] stands for [undefined]. *)
Definition first (a : list string) : option string := head a.

End JS.

Definition slash : ascii := "/"%char.

(** ** The key mapper *)

(** [targetKey] of [synchronizeWebsiteTask]; [trailingSlashes] is the
    captured [context.config.trailing_slashes].  [path.split("/")] is never
    empty, so the [undefined] branch of [[0]] is dead; it returns the path. *)
Definition targetKey (trailingSlashes : bool) (path : string) : string :=
  if negb (String.eqb path "index.html")
     && JS.endsWith path "/index.html"
     && negb trailingSlashes
  then
    let directoryName := JS.first (JS.split slash path) in
    default path directoryName
  else path.

(** ** Manifests *)

Definition Buffer : Type := list Byte.byte.

(** An element of [source]: [{ path, key, md5Hash }]. *)
Module Source.
Record t : Type := Build { path : string; key : string; md5Hash : string }.
#[export] Instance eq_dec : EqDecision t.
Proof. solve_decision. Defined.
End Source.

(** An element of [target]: [{ key, md5Hash }]. *)
Module Target.
Record t : Type := Build { key : string; md5Hash : string }.
#[export] Instance eq_dec : EqDecision t.
Proof. solve_decision. Defined.
End Target.

(** ** The change-set differ *)

(** The value returned by [diff]; the task reads its [add], [update] and
    [remove] properties. *)
Record ChangeSet : Type := {
  add : list Source.t;
  update : list Source.t;
  remove : list Target.t;
}.

(** Modelled from the spec: [lib/diff.js] (the module behind
    [require("./diff")]) is missing.  "Build a mapping from key to entry for
    both sides": entries are entered in list order, a later entry replacing
    an earlier one with the same key. *)
Definition index_by {A : Type} (location : A → string) (entries : list A)
  : gmap string A :=
  foldl (λ m e, <[location e := e]> m) ∅ entries.

(** Modelled from the spec: [lib/diff.js] is missing.  What section 4.4
    says of one local key. *)
Inductive Classification : Type := IsAdd | IsUnchanged | IsUpdate.

#[export] Instance Classification_eq_dec : EqDecision Classification.
Proof. solve_decision. Defined.

(** Modelled from the spec: [lib/diff.js] is missing.  One local entry
    against the remote mapping: "absent on remote side", "present with equal
    contentHash", "present with differing contentHash". *)
Definition classify (remote : gmap string Target.t) (e : Source.t)
  : Classification :=
  match remote !! Source.key e with
  | None => IsAdd
  | Some r =>
      if String.eqb (Source.md5Hash e) (Target.md5Hash r)
      then IsUnchanged else IsUpdate
  end.

(** Modelled from the spec: [lib/diff.js] is missing.  "For each local key:
    absent on remote side, add; present with equal contentHash, no change;
    present with differing contentHash, update.  For each remote key with no
    corresponding local key, remove."  The buckets list the entries of the
    two mappings; the spec leaves their order open. *)
Definition diff (source : list Source.t) (target : list Target.t) : ChangeSet :=
  let local := index_by Source.key source in
  let remote := index_by Target.key target in
  let locals := (map_to_list local).*2 in
  let remotes := (map_to_list remote).*2 in
  {| add := filter (λ e, classify remote e = IsAdd) locals;
     update := filter (λ e, classify remote e = IsUpdate) locals;
     remove := filter (λ r, local !! Target.key r = None) remotes |}.

(** ** The local file system, as [glob] and [fs] observe it *)

(** A directory tree of regular files, directories and symbolic links; a
    link holds the path it was created with. *)
#[local] Unset Elimination Schemes.
Inductive node : Type :=
| File (content : Buffer)
| Dir (entries : list (string * node))
| Link (target : string).
#[local] Set Elimination Schemes.

(** The file system of a run: the tree below the root directory, and the
    working directory of the process, given by the names that lead to it
    from the root. *)
Record FileSystem : Type := {
  fs_root : node;
  fs_cwd : list string;
}.

(** The entry called [name] of a directory listing. *)
Fixpoint child (entries : list (string * node)) (name : string) : option node :=
  match entries with
  | [] => None
  | (n, c) :: rest => if String.eqb n name then Some c else child rest name
  end.

(** The node at the end of a list of names, by the entries of the
    directories alone: no link is followed. *)
Fixpoint lookup_path (n : node) (names : list string) : option node :=
  match names with
  | [] => Some n
  | s :: rest =>
      match n with
      | Dir entries =>
          match child entries s with
          | Some c => lookup_path c rest
          | None => None
          end
      | _ => None
      end
  end.

(** Empty segments and [.] do not move. *)
Definition moves (s : string) : bool :=
  negb (String.eqb s EmptyString) && negb (String.eqb s ".").

(** A path that starts at the root. *)
Definition absolute (path : string) : bool := String.prefix "/" path.

(** Where the names of a path start: at the root, or in the working
    directory. *)
Definition origin (fs : FileSystem) (path : string) : list string :=
  if absolute path then [] else fs_cwd fs.

(** One segment of [path.resolve]: [..] drops the last name, whatever the
    file system holds, and stays at the root when there is none. *)
Definition resolve_step (here : list string) (s : string) : list string :=
  if negb (moves s) then here
  else if String.eqb s ".." then removelast here
  else here ++ [s].

(** [path.resolve(path)], as the names from the root: the normal form that
    [glob] gives its [cwd] option. *)
Definition resolve (fs : FileSystem) (path : string) : list string :=
  foldl resolve_step (origin fs path) (JS.split slash path).

(** How the system walks the names of a path from the directory [here]
    (given by the names that lead to it from the root): it arrives
    somewhere, or meets a link, or finds nothing ([ENOENT], [ENOTDIR]). *)
Inductive Walk : Type :=
| Arrived (there : list string)
| Redirected (from : list string) (target : string) (rest : list string)
| Lost.

Fixpoint walk (root : node) (here : list string) (names : list string) : Walk :=
  match names with
  | [] => Arrived here
  | s :: rest =>
      match lookup_path root here with
      | Some (Dir entries) =>
          if negb (moves s) then walk root here rest
          else if String.eqb s ".." then walk root (removelast here) rest
          else match child entries s with
               | Some (Link target) => Redirected here target rest
               | Some _ => walk root (here ++ [s]) rest
               | None => Lost
               end
      | _ => Lost
      end
  end.

(** The number of links one path resolution follows before it gives up
    ([ELOOP]). *)
Definition max_links : nat := 40.

(** Path resolution: the walk, with the links followed.  A relative target
    starts in the directory of the link, an absolute one at the root. *)
Fixpoint follow (fuel : nat) (root : node) (here names : list string)
  : option (list string) :=
  match walk root here names with
  | Arrived there => Some there
  | Lost => None
  | Redirected from target rest =>
      match fuel with
      | 0 => None
      | S fuel' =>
          if String.eqb target EmptyString then None
          else follow fuel' root (if absolute target then [] else from)
                 (JS.split slash target ++ rest)
      end
  end.

(** What [stat] and [readdir] find at the names of a path from the root:
    the node at the end, links followed; [None] when the call fails. *)
Definition stat (root : node) (names : list string) : option node :=
  follow max_links root [] names ≫= lookup_path root.

(** The same for a path as the program writes it. *)
Definition stat_path (fs : FileSystem) (path : string) : option node :=
  follow max_links (fs_root fs) (origin fs path) (JS.split slash path)
    ≫= lookup_path (fs_root fs).

(** [fs.readFileSync(path)]: [None] when the call throws (no such file, a
    directory, a link that leads nowhere). *)
Definition readFileSync (fs : FileSystem) (path : string) : option Buffer :=
  match stat_path fs path with
  | Some (File content) => Some content
  | _ => None
  end.

(** The options of [glob.sync] that matter for the pattern of the task;
    [dot] is [false] unless the caller sets it. *)
Record GlobOptions : Type := {
  cwd : string;
  nodir : bool;
  dot : bool;
}.

(** A name starting with a dot is matched by [*] and crossed by [**] only
    when the [dot] option is set. *)
Definition hidden (name : string) : bool :=
  match name with
  | String c _ => Ascii.eqb c "."%char
  | EmptyString => false
  end.

Definition matched (dot : bool) (name : string) : bool :=
  dot || negb (hidden name).

(** The paths below the directory [n] matched by [**/*], as lists of names;
    [base] is the path of [n].  Each matched entry is a match, and below a
    directory the entries matched in turn.  [**] does not crawl a link: of
    a link that leads to a directory, the entries of that directory are
    matched by the [*] that follows, and nothing below them. *)
Fixpoint globstar (dot : bool) (root : node) (base : list string) (n : node)
  : list (list string) :=
  match n with
  | Dir entries =>
      List.flat_map
        (λ e, if matched dot e.1
              then [e.1]
                   :: match e.2 with
                      | Link _ =>
                          match stat root (base ++ [e.1]) with
                          | Some (Dir below) =>
                              List.map (λ c, [e.1; c.1])
                                (List.filter (λ c, matched dot c.1) below)
                          | _ => []
                          end
                      | _ =>
                          List.map (cons e.1)
                            (globstar dot root (base ++ [e.1]) e.2)
                      end
              else [])
        entries
  | _ => []
  end.

Definition is_dir (found : option node) : bool :=
  match found with Some (Dir _) => true | _ => false end.

Definition is_file (found : option node) : bool :=
  match found with Some (File _) => true | _ => false end.

(** [glob.sync("**/*", options)]: the matched paths relative to [cwd].
    With [nodir], a match that [stat] finds to be a directory is left
    out.  The matches come in the order of the directory entries; [glob]
    sorts them, and no statement depends on their order. *)
Definition glob_sync (fs : FileSystem) (options : GlobOptions) : list string :=
  let base := resolve fs (cwd options) in
  match stat (fs_root fs) base with
  | Some d =>
      List.map (JS.join slash)
        (List.filter
           (λ m, negb (nodir options
                       && is_dir (stat (fs_root fs) (base ++ m))))
           (globstar (dot options) (fs_root fs) base d))
  | None => []
  end.

(** ** The S3 client behind [context.s3] *)

Module PutObject.
(** The parameters of [putObject]; an absent property is [None]. *)
Record request : Type := {
  Bucket : string;
  Body : option Buffer;
  Key : string;
  ACL : option string;
  CacheControl : option string;
  ContentType : option string;
}.
End PutObject.

Module ListObjectsV2.
Record request : Type := {
  Bucket : string;
  ContinuationToken : option nat;
}.
Record object : Type := { Key : string; ETag : string }.
Record output : Type := {
  Contents : list object;
  IsTruncated : bool;
  NextContinuationToken : option nat;
}.
End ListObjectsV2.

(** The calls a run can address to the bucket.  [DeleteObject] is the
    client's deletion call. *)
Inductive Request : Type :=
| ListObjects (r : ListObjectsV2.request)
| PutObjectCall (r : PutObject.request)
| DeleteObject (bucket key : string).

(** The promise-returning client.  [context.s3] is built by [lib/aws.js]
    around the AWS SDK; the task calls only [listObjectsV2] and [putObject]
    on it, so the client is a parameter: each call either resolves or
    rejects with the client's error, and leaves the remote store in a new
    state. *)
Class S3Client (St Err : Type) : Type := {
  listObjectsV2 : ListObjectsV2.request → St → (Err + ListObjectsV2.output) * St;
  putObject : PutObject.request → St → (Err + unit) * St;
}.

(** ** The task monad: state and exceptions *)

(** What a run can observe and change: the remote store, the successive
    values assigned to [task.output], and the calls issued to the client. *)
Record World (St : Type) : Type := {
  s3 : St;
  output : list string;
  requests : list Request;
}.
Arguments s3 {St} _.
Arguments output {St} _.
Arguments requests {St} _.

(** What the task function can throw: the exception of [fs.readFileSync],
    or the rejection of an awaited client call, unchanged. *)
Inductive Thrown (Err : Type) : Type :=
| FsError (path : string)
| ClientError (e : Err).
Arguments FsError {Err} _.
Arguments ClientError {Err} _.

Definition Task (St Err A : Type) : Type :=
  World St → (Thrown Err + A) * World St.

Definition ret {St Err A} (a : A) : Task St Err A := λ w, (inr a, w).

Definition bind {St Err A B} (m : Task St Err A) (k : A → Task St Err B)
  : Task St Err B :=
  λ w, match m w with
       | (inl e, w') => (inl e, w')
       | (inr a, w') => k a w'
       end.

Declare Scope task_scope.
Delimit Scope task_scope with task.
Notation "x <- m ;; k" := (bind m (λ x, k))
  (at level 100, m at next level, right associativity) : task_scope.
Notation "m ;; k" := (bind m (λ _, k))
  (at level 100, right associativity) : task_scope.
Local Open Scope task_scope.

(** [for (let x of xs) { body }] with an [await] inside: the first
    exception leaves the loop. *)
Fixpoint forEach {St Err A} (xs : list A) (body : A → Task St Err unit)
  : Task St Err unit :=
  match xs with
  | [] => ret tt
  | x :: rest => body x ;; forEach rest body
  end.

(** [xs.map(f)] where [f] may throw. *)
Fixpoint mapT {St Err A B} (f : A → Task St Err B) (xs : list A)
  : Task St Err (list B) :=
  match xs with
  | [] => ret []
  | x :: rest => y <- f x ;; ys <- mapT f rest ;; ret (y :: ys)
  end.

(** [task.output = line]. *)
Definition set_output {St Err} (line : string) : Task St Err unit :=
  λ w, (inr tt, {| s3 := s3 w; output := output w ++ [line];
                   requests := requests w |}).

Definition read {St Err} (fs : FileSystem) (path : string)
  : Task St Err Buffer :=
  λ w, match readFileSync fs path with
       | Some content => (inr content, w)
       | None => (inl (FsError path), w)
       end.

(** [await context.s3.listObjectsV2(r)]. *)
Definition await_listObjectsV2 {St Err : Type} {client : S3Client St Err} (r : ListObjectsV2.request)
  : Task St Err ListObjectsV2.output :=
  λ w, let '(res, st) := listObjectsV2 r (s3 w) in
       let w' := {| s3 := st; output := output w;
                    requests := requests w ++ [ListObjects r] |} in
       match res with
       | inl e => (inl (ClientError e), w')
       | inr out => (inr out, w')
       end.

(** [await context.s3.putObject(r)]. *)
Definition await_putObject {St Err : Type} {client : S3Client St Err} (r : PutObject.request)
  : Task St Err unit :=
  λ w, let '(res, st) := putObject r (s3 w) in
       let w' := {| s3 := st; output := output w;
                    requests := requests w ++ [PutObjectCall r] |} in
       match res with
       | inl e => (inl (ClientError e), w')
       | inr _ => (inr tt, w')
       end.

(** ** [synchronizeWebsiteTask] *)

(** The properties of [context.config] the task reads. *)
Record Config : Type := {
  domain : string;
  upload_directory : string;
  trailing_slashes : bool;
}.

Definition quote : ascii := "034"%char.

Section Synchronize.

(** [crypto.createHash("md5").update(content).digest("hex")]. *)
Variable md5hex : Buffer → string.
(** [mime.getType(path)], [None] for [null]. *)
Variable mime_getType : string → option string.
(** The value of [CacheControl.build(config.cache, config.cache_control)]. *)
Variable cacheControl : string.
(** The local file system, unchanged during the run. *)
Variable fs : FileSystem.

Context {St Err : Type} {client : S3Client St Err}.

Variable config : Config.

Local Abbreviation uploadDirectory := (upload_directory config).
Local Abbreviation trailingSlashes := (trailing_slashes config).

Definition fullPathOf (path : string) : string :=
  uploadDirectory ++ String slash path.

(** [`"${hex}"`]: the digest between two quote characters. *)
Definition md5HashOf (content : Buffer) : string :=
  String quote (md5hex content ++ String quote EmptyString).

Definition paths : list string :=
  glob_sync fs {| cwd := uploadDirectory; nodir := true; dot := false |}.

(** The callback of [paths.map] that builds [source]. *)
Definition sourceEntry (path : string) : Task St Err Source.t :=
  let fullPath := fullPathOf path in
  content <- read fs fullPath ;;
  let md5Hash := md5HashOf content in
  ret {| Source.path := path;
         Source.key := targetKey trailingSlashes path;
         Source.md5Hash := md5Hash |}.

(** The callback of [response.Contents.map] that builds [target]. *)
Definition targetEntry (object : ListObjectsV2.object) : Target.t :=
  {| Target.key := ListObjectsV2.Key object;
     Target.md5Hash := ListObjectsV2.ETag object |}.

Definition uploadRequest (change : Source.t) (body : Buffer)
  : PutObject.request :=
  let fullPath := fullPathOf (Source.path change) in
  {| PutObject.Bucket := domain config;
     PutObject.Body := Some body;
     PutObject.Key := Source.key change;
     PutObject.ACL := Some "public-read";
     PutObject.CacheControl := Some cacheControl;
     PutObject.ContentType := mime_getType fullPath |}.

(** The body of the loop over [changes.add]. *)
Definition addChange (change : Source.t) : Task St Err unit :=
  set_output ("Adding " ++ Source.path change ++ " as " ++ Source.key change) ;;
  body <- read fs (fullPathOf (Source.path change)) ;;
  await_putObject (uploadRequest change body).

(** The body of the loop over [changes.update]. *)
Definition updateChange (change : Source.t) : Task St Err unit :=
  set_output ("Updating " ++ Source.path change ++ " as " ++ Source.key change) ;;
  body <- read fs (fullPathOf (Source.path change)) ;;
  await_putObject (uploadRequest change body).

Definition removeRequest (change : Target.t) : PutObject.request :=
  {| PutObject.Bucket := domain config;
     PutObject.Body := None;
     PutObject.Key := Target.key change;
     PutObject.ACL := None;
     PutObject.CacheControl := None;
     PutObject.ContentType := None |}.

(** The body of the loop over [changes.remove]. *)
Definition removeChange (change : Target.t) : Task St Err unit :=
  set_output ("Removing " ++ Target.key change) ;;
  await_putObject (removeRequest change).

(** The three loops that follow the call of [diff]. *)
Definition applyChanges (changes : ChangeSet) : Task St Err unit :=
  forEach (add changes) addChange ;;
  forEach (update changes) updateChange ;;
  forEach (remove changes) removeChange.

Definition listRequest : ListObjectsV2.request :=
  {| ListObjectsV2.Bucket := domain config;
     ListObjectsV2.ContinuationToken := None |}.

Definition synchronizeWebsiteTask : Task St Err unit :=
  source <- mapT sourceEntry paths ;;
  response <- await_listObjectsV2 listRequest ;;
  let target := targetEntry <$> ListObjectsV2.Contents response in
  let changes := diff source target in
  applyChanges changes.

(** The first stage of the task: [paths.map(...)] over the globbed paths. *)
Definition localManifest : Task St Err (list Source.t) :=
  mapT sourceEntry paths.

(** The second stage: the listing call and [response.Contents.map(...)]. *)
Definition remoteManifest : Task St Err (list Target.t) :=
  response <- await_listObjectsV2 listRequest ;;
  ret (targetEntry <$> ListObjectsV2.Contents response).

End Synchronize.

(** ** An in-memory remote store *)

(** A client whose store keeps its buckets in memory, used to run the task
    on concrete buckets.  It behaves as the object store does for the two
    calls: a listing answers one page of at most [max_keys] objects in key
    order and says whether it is truncated; an upload replaces the object of
    the key, and the entity tag of an object is the quoted md5 digest of its
    body. *)
Module MemS3.

Record stored : Type := {
  body : Buffer;
  etag : string;
  acl : option string;
  cache_control : option string;
  content_type : option string;
}.

Inductive error : Type := NoSuchBucket | AccessDenied.

(** [denied] holds the keys the bucket policy refuses to write; a listing
    page holds at most [max_keys] objects. *)
Record state : Type := {
  buckets : gmap string (gmap string stored);
  denied : gset string;
  max_keys : nat;
}.

Definition key_le (a b : string * stored) : Prop := String.leb a.1 b.1 = true.

#[export] Instance key_le_dec a b : Decision (key_le a b).
Proof. unfold key_le. apply _. Defined.

(** The objects of a bucket in the order of a listing. *)
Definition listing (objects : gmap string stored) : list (string * stored) :=
  merge_sort key_le (map_to_list objects).

Definition listed (o : string * stored) : ListObjectsV2.object :=
  {| ListObjectsV2.Key := o.1; ListObjectsV2.ETag := etag o.2 |}.

Definition list_page (r : ListObjectsV2.request) (st : state)
  : (error + ListObjectsV2.output) * state :=
  match buckets st !! ListObjectsV2.Bucket r with
  | None => (inl NoSuchBucket, st)
  | Some objects =>
      let start := default 0 (ListObjectsV2.ContinuationToken r) in
      let rest := drop start (listing objects) in
      let more := bool_decide (max_keys st < List.length rest) in
      (inr {| ListObjectsV2.Contents := listed <$> take (max_keys st) rest;
              ListObjectsV2.IsTruncated := more;
              ListObjectsV2.NextContinuationToken :=
                if more then Some (start + max_keys st) else None |}, st)
  end.

Section WithDigest.

Variable md5hex : Buffer → string.

Definition store (r : PutObject.request) : stored :=
  let content := default [] (PutObject.Body r) in
  {| body := content;
     etag := String quote (md5hex content ++ String quote EmptyString);
     acl := PutObject.ACL r;
     cache_control := PutObject.CacheControl r;
     content_type := PutObject.ContentType r |}.

Definition put (r : PutObject.request) (st : state) : (error + unit) * state :=
  match buckets st !! PutObject.Bucket r with
  | None => (inl NoSuchBucket, st)
  | Some objects =>
      if decide (PutObject.Key r ∈ denied st) then (inl AccessDenied, st)
      else (inr tt,
            {| buckets := <[PutObject.Bucket r :=
                              <[PutObject.Key r := store r]> objects]>
                            (buckets st);
               denied := denied st;
               max_keys := max_keys st |})
  end.

Definition client : S3Client state error :=
  {| listObjectsV2 := list_page; putObject := put |}.

End WithDigest.

(** The keys held by a bucket of the store. *)
Definition keys (st : state) (bucket : string) : gset string :=
  match buckets st !! bucket with
  | Some objects => dom objects
  | None => ∅
  end.

End MemS3.

(** ** Auxiliary notions used in the statements *)

(** [sep] does not occur in [s]. *)
Fixpoint free_of (sep : ascii) (s : string) : bool :=
  match s with
  | EmptyString => true
  | String c s' => negb (Ascii.eqb c sep) && free_of sep s'
  end.


(** The remote entry that mirrors a local one: same key, same hash. *)
Definition snapshot (e : Source.t) : Target.t :=
  {| Target.key := Source.key e; Target.md5Hash := Source.md5Hash e |}.

Definition no_changes : ChangeSet := {| add := []; update := []; remove := [] |}.

(** A name a directory entry can have. *)
Definition valid_name (s : string) : bool :=
  moves s && negb (String.eqb s "..") && free_of slash s.

(** A directory tree as a file system holds it: valid names, each name once
    in a directory. *)
Fixpoint wf_node (n : node) : bool :=
  match n with
  | Dir entries =>
      bool_decide (NoDup entries.*1)
      && forallb (λ e, valid_name e.1 && wf_node e.2) entries
  | _ => true
  end.

(** A file system: a well-formed tree whose root is a directory. *)
Definition wf_fs (fs : FileSystem) : bool :=
  wf_node (fs_root fs) && is_dir (Some (fs_root fs)).

(** The paths that [**/*] matches below the directory [d], whose path from
    the root is [base], when hidden names are not matched: the non-empty
    paths without hidden name that lead, through directories, to an entry of
    a directory, or to an entry of the directory that a link leads to. *)
Definition globbed (root : node) (base : list string) (d : node)
  (segs : list string) : Prop :=
  Forall (λ s, hidden s = false) segs
  ∧ ((segs ≠ [] ∧ is_Some (lookup_path d segs))
     ∨ ∃ pre last target below,
         segs = (pre ++ [last])%list
         ∧ lookup_path d pre = Some (Link target)
         ∧ stat root (base ++ pre)%list = Some (Dir below)
         ∧ is_Some (child below last)).

(** The visible entries below the directory [n], as the directories hold
    them: the paths that cross no hidden name and no link, each with the
    node at its end. *)
Fixpoint visible_below (n : node) : list (list string * node) :=
  match n with
  | Dir entries =>
      List.flat_map
        (λ e, if matched false e.1
              then ([e.1], e.2)
                   :: List.map (λ m, (e.1 :: m.1, m.2)) (visible_below e.2)
              else [])
        entries
  | _ => []
  end.

(** The bytes that a path below the directory [d], whose path is [base],
    leads to: those of the regular file at its end, or those of the regular
    file that the link at its end leads to. *)
Definition file_at (root : node) (base : list string) (d : node)
  (segs : list string) (content : Buffer) : Prop :=
  lookup_path d segs = Some (File content)
  ∨ ∃ target, lookup_path d segs = Some (Link target)
              ∧ stat root (base ++ segs) = Some (File content).

(** Every link among the visible entries below [n], whose path is [base],
    leads to a regular file. *)
Definition links_lead_to_files (root : node) (base : list string) (n : node)
  : bool :=
  forallb (λ m, match m.2 with
                | Link _ => is_file (stat root (base ++ m.1))
                | _ => true
                end)
    (visible_below n).

(** ** The schedule of the three loops *)

(** One iteration of one of the loops. *)
Inductive Step : Type :=
| AddStep (change : Source.t)
| UpdateStep (change : Source.t)
| RemoveStep (change : Target.t).

(** The iterations in the order the loops run them. *)
Definition steps (changes : ChangeSet) : list Step :=
  (AddStep <$> add changes) ++ (UpdateStep <$> update changes)
  ++ (RemoveStep <$> remove changes).

Definition step_key (s : Step) : string :=
  match s with
  | AddStep c | UpdateStep c => Source.key c
  | RemoveStep c => Target.key c
  end.

Definition is_removal (s : Step) : bool :=
  match s with RemoveStep _ => true | _ => false end.

(** The status line assigned to [task.output] at the start of an iteration. *)
Definition step_line (s : Step) : string :=
  match s with
  | AddStep c => "Adding " ++ Source.path c ++ " as " ++ Source.key c
  | UpdateStep c => "Updating " ++ Source.path c ++ " as " ++ Source.key c
  | RemoveStep c => "Removing " ++ Target.key c
  end.

Section Steps.

Variable mime_getType : string → option string.
Variable cacheControl : string.
Variable fs : FileSystem.
Context {St Err : Type} {client : S3Client St Err}.
Variable config : Config.

Definition perform (s : Step) : Task St Err unit :=
  match s with
  | AddStep c => addChange mime_getType cacheControl fs config c
  | UpdateStep c => updateChange mime_getType cacheControl fs config c
  | RemoveStep c => removeChange config c
  end.

(** The file an iteration reads, if any. *)
Definition step_file (s : Step) : option string :=
  match s with
  | AddStep c | UpdateStep c => Some (fullPathOf config (Source.path c))
  | RemoveStep _ => None
  end.

(** The call an iteration addresses to the client; [None] when the file
    cannot be read. *)
Definition step_request (s : Step) : option PutObject.request :=
  match s with
  | AddStep c | UpdateStep c =>
      uploadRequest mime_getType cacheControl config c
        <$> readFileSync fs (fullPathOf config (Source.path c))
  | RemoveStep c => Some (removeRequest config c)
  end.

End Steps.

(** The loop an iteration belongs to. *)
Inductive Category : Type := Adds | Updates | Removes.

Definition category (s : Step) : Category :=
  match s with
  | AddStep _ => Adds
  | UpdateStep _ => Updates
  | RemoveStep _ => Removes
  end.

(** A change set in which no key is in two categories. *)
Definition exclusive (changes : ChangeSet) : Prop :=
  ∀ s s', s ∈ steps changes → s' ∈ steps changes →
          step_key s = step_key s' → category s = category s'.

(** The store after the calls [reqs] have been issued in turn, however each
    of them ends. *)
Definition issue {St Err : Type} {client : S3Client St Err}
  (reqs : list PutObject.request) (st : St) : St :=
  foldl (λ st r, (putObject r st).2) st reqs.

(** The store after the calls [reqs] when each of them resolves; [None]
    when one of them rejects. *)
Fixpoint resolved {St Err : Type} {client : S3Client St Err}
  (reqs : list PutObject.request) (st : St) : option St :=
  match reqs with
  | [] => Some st
  | r :: rest =>
      match putObject r st with
      | (inr _, st') => resolved rest st'
      | (inl _, _) => None
      end
  end.

(** ** Concrete runs *)

(** A stand-in for the digest in the closed examples: the runs below do not
    depend on which function of the bytes it is. *)
Definition sample_digest (content : Buffer) : string :=
  String.string_of_list_byte content.

Definition no_mime (path : string) : option string := None.

Definition start {St : Type} (st : St) : World St :=
  {| s3 := st; output := []; requests := [] |}.

(** An object as the in-memory store holds it after a plain upload. *)
Definition uploaded (md5hex : Buffer → string) (content : Buffer)
  : MemS3.stored :=
  {| MemS3.body := content;
     MemS3.etag := String quote (md5hex content ++ String quote EmptyString);
     MemS3.acl := Some "public-read";
     MemS3.cache_control := None;
     MemS3.content_type := None |}.

(** The end-to-end scenario: [about/index.html] and [index.html] in the
    upload directory, [index.html] (same content) and [old.html] in the
    bucket, trailing slashes disabled. *)
Module Scenario.

Definition home : Buffer := String.list_byte_of_string "<h1>home</h1>".
Definition about : Buffer := String.list_byte_of_string "<h1>about</h1>".
Definition old : Buffer := String.list_byte_of_string "<h1>old</h1>".

Definition site : FileSystem :=
  {| fs_root :=
       Dir [("build",
             Dir [("about", Dir [("index.html", File about)]);
                  ("index.html", File home)])];
     fs_cwd := [] |}.

Definition config : Config :=
  {| domain := "example.com"; upload_directory := "build";
     trailing_slashes := false |}.

Definition remote (md5hex : Buffer → string) : MemS3.state :=
  {| MemS3.buckets :=
       {[ "example.com" :=
            <["index.html" := uploaded md5hex home]>
              {[ "old.html" := uploaded md5hex old ]} ]};
     MemS3.denied := ∅;
     MemS3.max_keys := 1000 |}.

Definition run (md5hex : Buffer → string) (mime_getType : string → option string)
  (cacheControl : string)
  : (Thrown MemS3.error + unit) * World MemS3.state :=
  synchronizeWebsiteTask (client := MemS3.client md5hex)
    md5hex mime_getType cacheControl site config (start (remote md5hex)).

(** A second run, on the same files and on the bucket as the first run
    leaves it. *)
Definition rerun (md5hex : Buffer → string) (mime_getType : string → option string)
  (cacheControl : string)
  : (Thrown MemS3.error + unit) * World MemS3.state :=
  synchronizeWebsiteTask (client := MemS3.client md5hex)
    md5hex mime_getType cacheControl site config
    (start (s3 (run md5hex mime_getType cacheControl).2)).

End Scenario.

(** Two pages in an empty bucket whose policy refuses to write one key. *)
Module Refusal.

Definition site : FileSystem :=
  {| fs_root :=
       Dir [("build", Dir [("a.html", File Scenario.home);
                           ("b.html", File Scenario.about)])];
     fs_cwd := [] |}.

Definition remote (refused : string) : MemS3.state :=
  {| MemS3.buckets := {[ "example.com" := ∅ ]};
     MemS3.denied := {[ refused ]};
     MemS3.max_keys := 1000 |}.

Definition run (refused : string)
  : (Thrown MemS3.error + unit) * World MemS3.state :=
  synchronizeWebsiteTask (client := MemS3.client sample_digest)
    sample_digest no_mime "max-age=3600" site Scenario.config
    (start (remote refused)).

End Refusal.

(** The change set of the second refusal run, and what the loops leave. *)
Module RefusalApply.

Definition changes : ChangeSet :=
  {| add := [Source.Build "a.html" "a.html" "h1";
             Source.Build "b.html" "b.html" "h2"];
     update := [];
     remove := [] |}.

Definition result : (Thrown MemS3.error + unit) * World MemS3.state :=
  applyChanges (client := MemS3.client sample_digest)
    no_mime "max-age=3600" Refusal.site Scenario.config changes
    (start (Refusal.remote "b.html")).

End RefusalApply.

(** A change set with entries in each category, applied to a bucket whose
    policy refuses to write one key. *)
Module Mixed.

Definition changes : ChangeSet :=
  {| add := [Source.Build "a.html" "a.html" "h1"];
     update := [Source.Build "b.html" "b.html" "h2"];
     remove := [Target.Build "c.html" "h3"; Target.Build "d.html" "h4"] |}.

Definition run (refused : string)
  : (Thrown MemS3.error + unit) * World MemS3.state :=
  applyChanges (client := MemS3.client sample_digest)
    no_mime "max-age=3600" Refusal.site Scenario.config changes
    (start (Refusal.remote refused)).

End Mixed.

(** The manifests of the end-to-end scenario, with named hashes. *)
Module Manifests.

Definition source : list Source.t :=
  [Source.Build "about/index.html" "about" "H2";
   Source.Build "index.html" "index.html" "H1"].

Definition target : list Target.t :=
  [Target.Build "index.html" "H1"; Target.Build "old.html" "H3"].

End Manifests.

(** A bucket that holds one object more than a listing page. *)
Module Crowded.

Definition name (i : nat) : string := "page-" +:+ pretty i.

Definition objects : gmap string MemS3.stored :=
  list_to_map ((λ i, (name i, uploaded sample_digest [])) <$> seq 0 1001).

Definition remote : MemS3.state :=
  {| MemS3.buckets := {[ "example.com" := objects ]};
     MemS3.denied := ∅;
     MemS3.max_keys := 1000 |}.

Definition listed : (Thrown MemS3.error + list Target.t) * World MemS3.state :=
  remoteManifest (client := MemS3.client sample_digest) Scenario.config
    (start remote).

End Crowded.

(** A bucket that mirrors the site of the scenario. *)
Module Mirror.

Definition remote : MemS3.state :=
  {| MemS3.buckets :=
       {[ "example.com" :=
            <["index.html" := uploaded sample_digest Scenario.home]>
              {[ "about" := uploaded sample_digest Scenario.about ]} ]};
     MemS3.denied := ∅;
     MemS3.max_keys := 1000 |}.

Definition source : list Source.t :=
  [Source.Build "about/index.html" "about"
     (md5HashOf sample_digest Scenario.about);
   Source.Build "index.html" "index.html"
     (md5HashOf sample_digest Scenario.home)].

Definition page : ListObjectsV2.output :=
  {| ListObjectsV2.Contents :=
       [ {| ListObjectsV2.Key := "about";
            ListObjectsV2.ETag := md5HashOf sample_digest Scenario.about |};
         {| ListObjectsV2.Key := "index.html";
            ListObjectsV2.ETag := md5HashOf sample_digest Scenario.home |} ];
     ListObjectsV2.IsTruncated := false;
     ListObjectsV2.NextContinuationToken := None |}.

End Mirror.

(** A project in [/srv/site] whose upload directory holds a hidden file, a
    link to one of its pages and a link to a file outside the project. *)
Module Linked.

Definition build : list (string * node) :=
  [(".htaccess", File Scenario.old);
   ("about", Dir [("draft.html", File Scenario.old);
                  ("index.html", File Scenario.about)]);
   ("index.html", File Scenario.home);
   ("latest.html", Link "about/index.html");
   ("licence.txt", Link "/usr/share/licence")].

Definition site : FileSystem :=
  {| fs_root :=
       Dir [("srv",
             Dir [("site", Dir [("README", File Scenario.old);
                                ("build", Dir build)])]);
            ("usr", Dir [("share", Dir [("licence", File Scenario.old)])])];
     fs_cwd := ["srv"; "site"] |}.

(** The same system with one more entry in the upload directory. *)
Definition with_entry (name : string) (n : node) : FileSystem :=
  {| fs_root :=
       Dir [("srv",
             Dir [("site", Dir [("README", File Scenario.old);
                                ("build", Dir (build ++ [(name, n)])%list)])]);
            ("usr", Dir [("share", Dir [("licence", File Scenario.old)])])];
     fs_cwd := ["srv"; "site"] |}.

(** A link to a directory, and a link that leads nowhere. *)
Definition shared : FileSystem := with_entry "manual" (Link "about").
Definition broken : FileSystem := with_entry "news.html" (Link "gone.html").

(** The upload directory, named with a detour. *)
Definition detour : Config :=
  {| domain := "example.com"; upload_directory := "build/../build";
     trailing_slashes := false |}.

End Linked.

(** The entry of [source] for a path whose file holds [content]. *)
Definition entryOf (md5hex : Buffer → string) (config : Config)
  (path : string) (content : Buffer) : Source.t :=
  {| Source.path := path;
     Source.key := targetKey (trailing_slashes config) path;
     Source.md5Hash := md5HashOf md5hex content |}.

(** ** More concrete runs *)

(** A store without the bucket of the site. *)
Module NoBucket.

Definition remote : MemS3.state :=
  {| MemS3.buckets := ∅; MemS3.denied := ∅; MemS3.max_keys := 1000 |}.

End NoBucket.

(** The loops on the change set of [RefusalApply], against a bucket that
    refuses nothing of it. *)
Module CleanApply.

Definition result : (Thrown MemS3.error + unit) * World MemS3.state :=
  applyChanges (client := MemS3.client sample_digest)
    no_mime "max-age=3600" Refusal.site Scenario.config RefusalApply.changes
    (start (Refusal.remote "c.html")).

End CleanApply.

(** The loops on a change set whose second entry names a file that is not
    in the upload directory any more. *)
Module VanishedApply.

Definition changes : ChangeSet :=
  {| add := [Source.Build "a.html" "a.html" "h1"];
     update := [Source.Build "gone.html" "gone.html" "h2";
                Source.Build "b.html" "b.html" "h3"];
     remove := [] |}.

Definition result : (Thrown MemS3.error + unit) * World MemS3.state :=
  applyChanges (client := MemS3.client sample_digest)
    no_mime "max-age=3600" Refusal.site Scenario.config changes
    (start (Refusal.remote "c.html")).

End VanishedApply.

(** ** The other tasks of [lib/deploy.js] *)

Module JSString.

(** [s.replace(pattern, replacement)] for a string pattern and a replacement
    without [$] patterns: the first occurrence of the pattern, if any, is
    replaced. *)
Fixpoint replace (pattern replacement s : string) {struct s} : string :=
  if String.prefix pattern s
  then replacement
       ++ String.substring (String.length pattern)
            (String.length s - String.length pattern) s
  else match s with
       | EmptyString => EmptyString
       | String c s' => String c (replace pattern replacement s')
       end.

(** [pattern] occurs in [s]. *)
Fixpoint occurs (pattern s : string) : bool :=
  String.prefix pattern s
  || match s with
     | EmptyString => false
     | String _ s' => occurs pattern s'
     end.

End JSString.

Module HeadBucket.
Record request : Type := { Bucket : string }.
End HeadBucket.

Module CreateBucket.
Record request : Type := { ACL : string; Bucket : string }.
End CreateBucket.

Module PutBucketWebsite.
(** [{ Bucket, WebsiteConfiguration: { ErrorDocument: { Key },
    IndexDocument: { Suffix }, RoutingRules } }]; [RoutingRules] is [None]
    when the property is not set. *)
Record request (Json : Type) : Type := {
  Bucket : string;
  ErrorDocument_Key : string;
  IndexDocument_Suffix : string;
  RoutingRules : option Json;
}.
Arguments Bucket {Json} _.
Arguments ErrorDocument_Key {Json} _.
Arguments IndexDocument_Suffix {Json} _.
Arguments RoutingRules {Json} _.
End PutBucketWebsite.

(** The bucket-level calls of the client.  [headBucket] resolves with a
    value of which the task only tests the truth ([true] for the object the
    client resolves with). *)
Class BucketClient (St Err Json : Type) : Type := {
  headBucket : HeadBucket.request → St → (Err + bool) * St;
  createBucket : CreateBucket.request → St → (Err + unit) * St;
  putBucketWebsite : PutBucketWebsite.request Json → St → (Err + unit) * St;
}.

(** What a run of the task list lets one observe, in order: the tasks
    started and skipped, the build command, and the calls to the store. *)
Inductive Event (Json : Type) : Type :=
| Started (title : string)
| Skipped (title message : string)
| Shell (command : string)
| HeadBucketCall (r : HeadBucket.request)
| CreateBucketCall (r : CreateBucket.request)
| PutBucketWebsiteCall (r : PutBucketWebsite.request Json)
| ObjectCall (r : Request).
Arguments Started {Json} _.
Arguments Skipped {Json} _ _.
Arguments Shell {Json} _.
Arguments HeadBucketCall {Json} _.
Arguments CreateBucketCall {Json} _.
Arguments PutBucketWebsiteCall {Json} _.
Arguments ObjectCall {Json} _.

(** The properties of the configuration file the tasks read, beside those
    of [Config] ([site]).  [None] stands for a property that is not set. *)
Record Settings (Json : Type) : Type := {
  site : Config;
  aws_profile : string;
  aws_region : string;
  build_command : string;
  index_key : string;
  error_key : string;
  redirects : option Json;
  routing_rules : option Json;
  cache : option Json;
  cache_control : option Json;
}.
Arguments site {Json} _.
Arguments aws_profile {Json} _.
Arguments aws_region {Json} _.
Arguments build_command {Json} _.
Arguments index_key {Json} _.
Arguments error_key {Json} _.
Arguments redirects {Json} _.
Arguments routing_rules {Json} _.
Arguments cache {Json} _.
Arguments cache_control {Json} _.

(** The [context] object the tasks share. *)
Record Context (Json Handle : Type) : Type := {
  configurationPath : string;
  ctx_s3 : option Handle;
  ctx_config : option (Settings Json);
}.
Arguments configurationPath {Json Handle} _.
Arguments ctx_s3 {Json Handle} _.
Arguments ctx_config {Json Handle} _.

(** The state of a run: the context, the local file system, the world of
    the synchronisation (store, status lines, object calls), and the events
    so far. *)
Record Deploy (Json Handle St : Type) : Type := {
  context : Context Json Handle;
  files : FileSystem;
  world : World St;
  trace : list (Event Json);
}.
Arguments context {Json Handle St} _.
Arguments files {Json Handle St} _.
Arguments world {Json Handle St} _.
Arguments trace {Json Handle St} _.

(** What a task can throw: the [KnownError] of this file, the [TypeError]
    of reading a property of [undefined], what a collaborator outside this
    file throws, the rejection of a bucket-level call, and what the
    synchronisation throws. *)
Inductive Failure (Exn Err : Type) : Type :=
| KnownError (message : string)
| TypeError
| Raised (e : Exn)
| Rejected (e : Err)
| SyncFailed (t : Thrown Err).
Arguments KnownError {Exn Err} _.
Arguments TypeError {Exn Err}.
Arguments Raised {Exn Err} _.
Arguments Rejected {Exn Err} _.
Arguments SyncFailed {Exn Err} _.

(** State and exceptions, for the task list. *)
Definition Job (S E A : Type) : Type := S → (E + A) * S.

Definition job_ret {S E A} (a : A) : Job S E A := λ d, (inr a, d).

Definition job_bind {S E A B} (m : Job S E A) (k : A → Job S E B)
  : Job S E B :=
  λ d, match m d with
       | (inl e, d') => (inl e, d')
       | (inr a, d') => k a d'
       end.

Definition throw {S E A} (e : E) : Job S E A := λ d, (inl e, d).

Declare Scope job_scope.
Delimit Scope job_scope with job.
Notation "x <- m ;; k" := (job_bind m (λ x, k))
  (at level 100, m at next level, right associativity) : job_scope.
Notation "m ;; k" := (job_bind m (λ _, k))
  (at level 100, right associativity) : job_scope.

Section Pipeline.

Local Open Scope job_scope.

(** The values of the configuration file that the tasks pass along. *)
Variable Json : Type.
(** What [AWS.credentialsForProfile] returns, and the client object that
    [AWS.s3] builds ([lib/aws.js]). *)
Variable Credentials : Type.
Variable Handle : Type.
(** What the collaborators outside this file throw. *)
Variable Exn : Type.

(** [configuration.exists(path)] and [configuration.read(path)]
    ([lib/configuration.js]), on the local file system. *)
Variable configuration_exists : FileSystem → string → bool.
Variable configuration_read : FileSystem → string → Exn + Settings Json.
Variable credentialsForProfile : string → Exn + Credentials.
Variable AWS_s3 : Credentials → string → Exn + Handle.
(** [execa.shell(command)]: the promise resolves or rejects, and the
    command leaves the file system in a new state. *)
Variable execa_shell : string → FileSystem → (Exn + unit) * FileSystem.
(** [RoutingRules(redirects, routing_rules)] ([lib/routing-rules.js]). *)
Variable RoutingRules : option Json → option Json → Exn + Json.
(** [CacheControl.build(cache, cache_control)] ([lib/cache-control.js]). *)
Variable CacheControl_build : option Json → option Json → string.
Variable md5hex : Buffer → string.
Variable mime_getType : string → option string.

Context {St Err : Type} {client : S3Client St Err}
        {admin : BucketClient St Err Json}.

Local Abbreviation State := (Deploy Json Handle St).
Local Abbreviation Fail := (Failure Exn Err).
Local Abbreviation Step A := (Job State Fail A).

Definition with_context (c : Context Json Handle) (d : State) : State :=
  {| context := c; files := files d; world := world d; trace := trace d |}.

Definition with_store (st : St) (d : State) : State :=
  {| context := context d; files := files d;
     world := {| s3 := st; output := output (world d);
                 requests := requests (world d) |};
     trace := trace d |}.

Definition emit (e : Event Json) : Step unit :=
  λ d, (inr tt, {| context := context d; files := files d; world := world d;
                   trace := trace d ++ [e] |}).

(** The value of an expression that may throw. *)
Definition evaluate {A} (r : Exn + A) : Step A :=
  match r with
  | inl e => throw (Raised e)
  | inr a => job_ret a
  end.

(** [context.config] and [context.s3], for reading a property of them. *)
Definition get_config : Step (Settings Json) :=
  λ d, match ctx_config (context d) with
       | Some config => (inr config, d)
       | None => (inl TypeError, d)
       end.

Definition get_s3 : Step Handle :=
  λ d, match ctx_s3 (context d) with
       | Some s3 => (inr s3, d)
       | None => (inl TypeError, d)
       end.

(** The task function of [loadConfigurationTask]. *)
Definition loadConfiguration : Step unit :=
  λ d,
    let configurationPath := configurationPath (context d) in
    (if negb (configuration_exists (files d) configurationPath)
     then throw (KnownError
                   "No configuration file, run `discharge init` first")
     else
       config <- evaluate (configuration_read (files d) configurationPath) ;;
       credentials <- evaluate (credentialsForProfile (aws_profile config)) ;;
       let region := aws_region config in
       s3 <- evaluate (AWS_s3 credentials region) ;;
       λ d', (inr tt,
              with_context {| configurationPath := configurationPath;
                              ctx_s3 := Some s3;
                              ctx_config := Some config |} d')) d.

(** [await execa.shell(command)]. *)
Definition shell (command : string) : Step unit :=
  λ d, let '(res, fs) := execa_shell command (files d) in
       let d' := {| context := context d; files := fs; world := world d;
                    trace := trace d ++ [Shell command] |} in
       match res with
       | inl e => (inl (Raised e), d')
       | inr _ => (inr tt, d')
       end.

(** The task function of [buildWebsiteTask]. *)
Definition buildWebsite : Step unit :=
  config <- get_config ;;
  shell (build_command config).

(** The [skip] function of [createBucketTask]: [Some message] for the
    string it returns, [None] for [false].  What the [try] block throws is
    caught, whatever it is. *)
Definition createBucketSkip : Step (option string) :=
  λ d,
    match ctx_s3 (context d), ctx_config (context d) with
    | Some _, Some config =>
        let r := {| HeadBucket.Bucket := domain (site config) |} in
        let '(res, st) := headBucket r (s3 (world d)) in
        let d' := {| context := context d; files := files d;
                     world := world (with_store st d);
                     trace := trace d ++ [HeadBucketCall r] |} in
        match res with
        | inr true => (inr (Some "Bucket already exists"), d')
        | _ => (inr None, d')
        end
    | _, _ => (inr None, d)
    end.

(** [await] of a bucket-level call. *)
Definition await_admin (e : Event Json) (call : St → (Err + unit) * St)
  : Step unit :=
  λ d, let '(res, st) := call (s3 (world d)) in
       let d' := {| context := context d; files := files d;
                    world := world (with_store st d);
                    trace := trace d ++ [e] |} in
       match res with
       | inl e => (inl (Rejected e), d')
       | inr _ => (inr tt, d')
       end.

(** The task function of [createBucketTask]. *)
Definition createBucketBody : Step unit :=
  _ <- get_s3 ;;
  config <- get_config ;;
  let r := {| CreateBucket.ACL := "public-read";
              CreateBucket.Bucket := domain (site config) |} in
  await_admin (CreateBucketCall r) (createBucket r).

(** The [params] of [configureBucketAsWebsiteTask]. *)
Definition websiteParams (config : Settings Json)
  : Exn + PutBucketWebsite.request Json :=
  let indexKey := index_key config in
  let errorKey :=
    if negb (trailing_slashes (site config))
    then JSString.replace ".html" EmptyString (error_key config)
    else error_key config in
  let params (rules : option Json) :=
    {| PutBucketWebsite.Bucket := domain (site config);
       PutBucketWebsite.ErrorDocument_Key := errorKey;
       PutBucketWebsite.IndexDocument_Suffix := indexKey;
       PutBucketWebsite.RoutingRules := rules |} in
  match redirects config, routing_rules config with
  | None, None => inr (params None)
  | _, _ =>
      match RoutingRules (redirects config) (routing_rules config) with
      | inl e => inl e
      | inr routingRules => inr (params (Some routingRules))
      end
  end.

(** The task function of [configureBucketAsWebsiteTask]. *)
Definition configureBucketAsWebsite : Step unit :=
  config <- get_config ;;
  params <- evaluate (websiteParams config) ;;
  _ <- get_s3 ;;
  await_admin (PutBucketWebsiteCall params) (putBucketWebsite params).

(** The object calls that a run of the synchronisation adds. *)
Definition new_calls (before after : World St) : list (Event Json) :=
  ObjectCall <$> drop (List.length (requests before)) (requests after).

(** The task function of [synchronizeWebsiteTask], on the shared context:
    [synchronizeWebsiteTask] above, with the configuration and the file
    system of the run.  Without [context.s3] the function throws when it
    reaches the listing call, after it has built [source]. *)
Definition synchronizeWebsite : Step unit :=
  config <- get_config ;;
  λ d,
    let cacheControl :=
      CacheControl_build (cache config) (cache_control config) in
    let '(res, w) :=
      match ctx_s3 (context d) with
      | Some _ =>
          let '(r, w) :=
            synchronizeWebsiteTask md5hex mime_getType cacheControl (files d)
              (site config) (world d) in
          (match r with
           | inl t => inl (SyncFailed t)
           | inr u => inr u
           end, w)
      | None =>
          let '(r, w) :=
            localManifest (Err := Err) md5hex (files d) (site config)
              (world d) in
          (match r with
           | inl t => inl (SyncFailed t)
           | inr _ => inl TypeError
           end, w)
      end in
    (res, {| context := context d; files := files d; world := w;
             trace := trace d ++ new_calls (world d) w |}).

(** A task of a [Listr] list: a title, an optional [skip] function, and the
    task function. *)
Record ListrTask : Type := {
  title : string;
  skip : option (Step (option string));
  task : Step unit;
}.

(** How the list runs one task: a task whose [skip] function returns a
    message is skipped; otherwise the task function runs. *)
Definition runTask (t : ListrTask) : Step unit :=
  skipped <- (match skip t with Some f => f | None => job_ret None end) ;;
  match skipped with
  | Some message => emit (Skipped (title t) message)
  | None => emit (Started (title t)) ;; task t
  end.

(** How the list runs: one task after the other; an exception ends the
    run. *)
Fixpoint runTasks (tasks : list ListrTask) : Step unit :=
  match tasks with
  | [] => job_ret tt
  | t :: rest => runTask t ;; runTasks rest
  end.

Definition loadConfigurationTask : ListrTask :=
  {| title := "Load configuration"; skip := None; task := loadConfiguration |}.

Definition buildWebsiteTask : ListrTask :=
  {| title := "Build website"; skip := None; task := buildWebsite |}.

Definition createBucketTask : ListrTask :=
  {| title := "Create bucket"; skip := Some createBucketSkip;
     task := createBucketBody |}.

Definition configureBucketAsWebsiteTask : ListrTask :=
  {| title := "Configure bucket as website"; skip := None;
     task := configureBucketAsWebsite |}.

Definition synchronizeWebsiteEntry : ListrTask :=
  {| title := "Synchronize website"; skip := None;
     task := synchronizeWebsite |}.

(** [module.exports]: the list of the five tasks, run on a context. *)
Definition deploy : Step unit :=
  runTasks [loadConfigurationTask; buildWebsiteTask; createBucketTask;
            configureBucketAsWebsiteTask; synchronizeWebsiteEntry].

End Pipeline.

(** The task an event belongs to, by its place in the list. *)
Definition title_stage (title : string) : nat :=
  if String.eqb title "Load configuration" then 0
  else if String.eqb title "Build website" then 1
  else if String.eqb title "Create bucket" then 2
  else if String.eqb title "Configure bucket as website" then 3
  else 4.

Definition stage {Json : Type} (e : Event Json) : nat :=
  match e with
  | Started title | Skipped title _ => title_stage title
  | Shell _ => 1
  | HeadBucketCall _ | CreateBucketCall _ => 2
  | PutBucketWebsiteCall _ => 3
  | ObjectCall _ => 4
  end.

(** An in-memory store with the bucket-level calls: the objects of
    [MemS3], the website configuration of each bucket, and the names of the
    buckets that belong to someone else. *)
Module MemSite.

Record state : Type := {
  store : MemS3.state;
  websites : gmap string (PutBucketWebsite.request string);
  foreign : gset string;
}.

Definition on_store {A : Type}
  (call : MemS3.state → (MemS3.error + A) * MemS3.state) (s : state)
  : (MemS3.error + A) * state :=
  let '(res, st) := call (store s) in
  (res, {| store := st; websites := websites s; foreign := foreign s |}).

Definition objects_client (md5hex : Buffer → string)
  : S3Client state MemS3.error :=
  {| listObjectsV2 r := on_store (MemS3.list_page r);
     putObject r := on_store (MemS3.put md5hex r) |}.

Definition head (r : HeadBucket.request) (s : state)
  : (MemS3.error + bool) * state :=
  if decide (HeadBucket.Bucket r ∈ foreign s) then (inl MemS3.AccessDenied, s)
  else match MemS3.buckets (store s) !! HeadBucket.Bucket r with
       | Some _ => (inr true, s)
       | None => (inl MemS3.NoSuchBucket, s)
       end.

Definition create (r : CreateBucket.request) (s : state)
  : (MemS3.error + unit) * state :=
  if decide (CreateBucket.Bucket r ∈ foreign s) then (inl MemS3.AccessDenied, s)
  else match MemS3.buckets (store s) !! CreateBucket.Bucket r with
       | Some _ => (inr tt, s)
       | None =>
           (inr tt,
            {| store :=
                 {| MemS3.buckets :=
                      <[CreateBucket.Bucket r := ∅]> (MemS3.buckets (store s));
                    MemS3.denied := MemS3.denied (store s);
                    MemS3.max_keys := MemS3.max_keys (store s) |};
               websites := websites s; foreign := foreign s |})
       end.

Definition configure (r : PutBucketWebsite.request string) (s : state)
  : (MemS3.error + unit) * state :=
  match MemS3.buckets (store s) !! PutBucketWebsite.Bucket r with
  | Some _ =>
      (inr tt,
       {| store := store s;
          websites := <[PutBucketWebsite.Bucket r := r]> (websites s);
          foreign := foreign s |})
  | None => (inl MemS3.NoSuchBucket, s)
  end.

Definition bucket_client : BucketClient state MemS3.error string :=
  {| headBucket := head; createBucket := create;
     putBucketWebsite := configure |}.

End MemSite.

(** A project and its collaborators, for concrete runs of the task list. *)
Module Project.

Definition settings : Settings string :=
  {| site := Scenario.config;
     aws_profile := "default";
     aws_region := "us-east-1";
     build_command := "npm run build";
     index_key := "index.html";
     error_key := "404.html";
     redirects := None;
     routing_rules := None;
     cache := None;
     cache_control := None |}.

(** The same settings with an error page in a versioned directory, kept
    under a double extension. *)
Definition versioned : Settings string :=
  {| site := Scenario.config;
     aws_profile := "default";
     aws_region := "us-east-1";
     build_command := "npm run build";
     index_key := "index.html";
     error_key := "v1.2/404.html.html";
     redirects := None;
     routing_rules := None;
     cache := None;
     cache_control := None |}.

(** The project before the build, and after it; the process runs in
    [/work]. *)
Definition sources : FileSystem :=
  {| fs_root :=
       Dir [("work",
             Dir [(".discharge.json", File Scenario.old);
                  ("pages", Dir [("index.md", File Scenario.home)])])];
     fs_cwd := ["work"] |}.

Definition built : FileSystem :=
  {| fs_root :=
       Dir [("work",
             Dir [(".discharge.json", File Scenario.old);
                  ("build",
                   Dir [("404.html", File Scenario.old);
                        ("about", Dir [("index.html", File Scenario.about)]);
                        ("index.html", File Scenario.home)]);
                  ("pages", Dir [("index.md", File Scenario.home)])])];
     fs_cwd := ["work"] |}.

Definition exists_file (fs : FileSystem) (path : string) : bool :=
  bool_decide (is_Some (readFileSync fs path)).

Definition read_settings (fs : FileSystem) (path : string)
  : string + Settings string := inr settings.

Definition credentials (profile : string) : string + string := inr profile.

Definition make_client (credentials region : string)
  : string + (string * string) := inr (credentials, region).

Definition run_build (command : string) (fs : FileSystem)
  : (string + unit) * FileSystem :=
  if String.eqb command "npm run build" then (inr tt, built)
  else (inl "command not found", fs).

Definition failing_build (command : string) (fs : FileSystem)
  : (string + unit) * FileSystem := (inl "exit code 1", fs).

Definition rules (redirects routing_rules : option string)
  : string + string := inr "[]".

Definition cache_header (cache cache_control : option string) : string :=
  "max-age=3600".

Definition empty_store : MemSite.state :=
  {| MemSite.store :=
       {| MemS3.buckets := ∅; MemS3.denied := ∅; MemS3.max_keys := 1000 |};
     MemSite.websites := ∅;
     MemSite.foreign := ∅ |}.

(** A store in which the name of the site is the bucket of someone else. *)
Definition taken_store : MemSite.state :=
  {| MemSite.store := MemSite.store empty_store;
     MemSite.websites := ∅;
     MemSite.foreign := {[ "example.com" ]} |}.

Definition initial (path : string) (st : MemSite.state)
  : Deploy string (string * string) MemSite.state :=
  {| context := {| configurationPath := path; ctx_s3 := None;
                   ctx_config := None |};
     files := sources;
     world := start st;
     trace := [] |}.

(** The state after the configuration has been loaded. *)
Definition loaded (st : MemSite.state)
  : Deploy string (string * string) MemSite.state :=
  {| context := {| configurationPath := ".discharge.json";
                   ctx_s3 := Some ("default", "us-east-1");
                   ctx_config := Some settings |};
     files := built;
     world := start st;
     trace := [] |}.

Definition run
  (build : string → FileSystem → (string + unit) * FileSystem)
  (path : string) (st : MemSite.state)
  : (Failure string MemS3.error + unit)
    * Deploy string (string * string) MemSite.state :=
  deploy (client := MemSite.objects_client sample_digest)
    (admin := MemSite.bucket_client)
    string string (string * string) string
    exists_file read_settings credentials make_client build rules
    cache_header sample_digest no_mime (initial path st).

(** The first deployment of the project, to a store without its bucket. *)
Definition shipped
  : (Failure string MemS3.error + unit)
    * Deploy string (string * string) MemSite.state :=
  run run_build ".discharge.json" empty_store.

End Project.

(** Whether a run ended on a [TypeError]. *)
Definition threw_TypeError {Exn Err A : Type} (r : Failure Exn Err + A) : bool :=
  match r with
  | inl TypeError => true
  | _ => false
  end.
(** * Properties *)

#[local] Set Warnings "-clear-no-such-hyp".

(** ** Strings *)

Section StringFacts.

Lemma substring_whole (t : string) : String.substring 0 (String.length t) t = t.
Proof. induction t as [|c t IH]; simpl; [done | by rewrite IH]. Qed.

Lemma substring_suffix (s t : string) :
  String.substring (String.length s) (String.length t) (s ++ t) = t.
Proof. induction s as [|c s IH]; simpl; [apply substring_whole | exact IH]. Qed.

Lemma length_append (s t : string) :
  String.length (s ++ t) = String.length s + String.length t.
Proof. induction s as [|c s IH]; simpl; [done | by rewrite IH]. Qed.

Lemma endsWith_append (s t : string) : JS.endsWith (s ++ t) t = true.
Proof.
  unfold JS.endsWith. rewrite length_append.
  replace (String.length s + String.length t - String.length t)
    with (String.length s) by lia.
  rewrite substring_suffix, String.eqb_refl, andb_true_r.
  apply Nat.leb_le. lia.
Qed.

Lemma split_nonempty (sep : ascii) (s : string) : JS.split sep s ≠ [].
Proof.
  induction s as [|c s IH]; simpl; [done |].
  destruct (Ascii.eqb c sep); [done |]. by destruct (JS.split sep s).
Qed.

(** Splitting distributes over a separator. *)
Lemma split_append (sep : ascii) (s t : string) :
  JS.split sep (s ++ String sep t) = (JS.split sep s ++ JS.split sep t)%list.
Proof.
  induction s as [|c s IH]; simpl.
  - by rewrite Ascii.eqb_refl.
  - destruct (Ascii.eqb c sep); [by rewrite IH |].
    rewrite IH. pose proof (split_nonempty sep s).
    by destruct (JS.split sep s).
Qed.

Lemma split_free_of (sep : ascii) (s : string) :
  free_of sep s = true → JS.split sep s = [s].
Proof.
  induction s as [|c s IH]; simpl; [done |].
  intros [Hc Hs]%andb_true_iff. apply negb_true_iff in Hc.
  by rewrite Hc, IH.
Qed.

Lemma split_join (sep : ascii) (l : list string) :
  l ≠ [] → Forall (λ s, free_of sep s = true) l →
  JS.split sep (JS.join sep l) = l.
Proof.
  intros Hne Hall. induction Hall as [|s l Hs Hl IH]; [done |].
  destruct l as [|s' l'].
  - simpl. by apply split_free_of.
  - change (JS.join sep (s :: s' :: l'))
      with (s ++ String sep (JS.join sep (s' :: l'))).
    rewrite split_append, IH by done. by rewrite split_free_of.
Qed.

End StringFacts.

(** ** Lists *)

Section ListFacts.

Lemma Forall2_elem_of_l {A B} (R : A → B → Prop) (l : list A) (k : list B) x :
  Forall2 R l k → x ∈ l → ∃ y, y ∈ k ∧ R x y.
Proof.
  induction 1 as [|a b l k Hab _ IH]; [by intros ?%elem_of_nil |].
  intros [->|Hin]%elem_of_cons.
  - exists b. split; [left | done].
  - destruct (IH Hin) as (y & Hy & HR). exists y. split; [by right | done].
Qed.

Lemma Forall2_elem_of_r {A B} (R : A → B → Prop) (l : list A) (k : list B) y :
  Forall2 R l k → y ∈ k → ∃ x, x ∈ l ∧ R x y.
Proof.
  induction 1 as [|a b l k Hab _ IH]; [by intros ?%elem_of_nil |].
  intros [->|Hin]%elem_of_cons.
  - exists a. split; [left | done].
  - destruct (IH Hin) as (x & Hx & HR). exists x. split; [by right | done].
Qed.

End ListFacts.

(** ** The key mapper *)

Section KeyMapper.

Lemma targetKey_trailing_slashes (path : string) : targetKey true path = path.
Proof.
  unfold targetKey. by rewrite andb_false_r.
Qed.

Lemma index_path_not_root (d : string) :
  String.eqb (d ++ "/index.html") "index.html" = false.
Proof.
  apply String.eqb_neq. intros Heq.
  apply (f_equal String.length) in Heq. rewrite length_append in Heq.
  simpl in Heq. lia.
Qed.

(** Without trailing slashes, the key of [d/index.html] is the part of [d]
    before its first slash. *)
Lemma targetKey_first_segment (d : string) :
  JS.first (JS.split slash d) = Some (targetKey false (d ++ "/index.html")).
Proof.
  unfold targetKey.
  rewrite index_path_not_root, endsWith_append. simpl negb. simpl andb. cbv iota.
  change "/index.html" with (String slash "index.html").
  rewrite split_append.
  pose proof (split_nonempty slash d).
  by destruct (JS.split slash d).
Qed.

Lemma targetKey_one_level (d : string) :
  free_of slash d = true → targetKey false (d ++ "/index.html") = d.
Proof.
  intros Hd. pose proof (targetKey_first_segment d) as H.
  rewrite split_free_of in H by done. simpl in H. congruence.
Qed.

(** C8: the four key-mapping vectors: the root [index.html] stays, the index
    file of [blog] collapses to [blog] without trailing slashes and stays
    unchanged with them, and [about.html] stays. *)
Theorem targetKey_vectors :
  targetKey false "index.html" = "index.html"
  ∧ targetKey false "blog/index.html" = "blog"
  ∧ targetKey true "blog/index.html" = "blog/index.html"
  ∧ targetKey false "about.html" = "about.html".
Proof. repeat split; reflexivity. Qed.

(** C2, on the nested path [a/b/index.html] without trailing slashes: the
    key is the first segment [a], not the parent directory [a/b], and it
    is also the key of [a/index.html]. *)
Theorem targetKey_nested_index :
  targetKey false "a/b/index.html" = "a"
  ∧ targetKey false "a/b/index.html" ≠ "a/b"
  ∧ targetKey false "a/b/index.html" = targetKey false "a/index.html".
Proof.
  split; [reflexivity | split; [| reflexivity]].
  intros H. vm_compute in H. discriminate H.
Qed.

End KeyMapper.

(** ** The differ *)

Section Differ.

Lemma index_by_snoc {A} (f : A → string) (l : list A) (e : A) :
  index_by f (l ++ [e]) = <[f e := e]> (index_by f l).
Proof. unfold index_by. by rewrite foldl_app. Qed.

Lemma index_by_lookup_Some {A} (f : A → string) (l : list A) k e :
  index_by f l !! k = Some e → e ∈ l ∧ f e = k.
Proof.
  induction l as [|x l IH] using rev_ind; [done |].
  rewrite index_by_snoc. destruct (decide (f x = k)) as [<-|Hne].
  - rewrite lookup_insert_eq. intros [= <-]. split; [set_solver | done].
  - rewrite lookup_insert_ne by done. intros [? ?]%IH. set_solver.
Qed.

Lemma index_by_lookup_None {A} (f : A → string) (l : list A) k :
  index_by f l !! k = None ↔ k ∉ f <$> l.
Proof.
  induction l as [|x l IH] using rev_ind; [set_solver |].
  rewrite index_by_snoc, fmap_app. destruct (decide (f x = k)) as [<-|Hne].
  - rewrite lookup_insert_eq. set_solver.
  - rewrite lookup_insert_ne by done. set_solver.
Qed.

Lemma index_by_is_Some {A} (f : A → string) (l : list A) k :
  is_Some (index_by f l !! k) ↔ k ∈ f <$> l.
Proof.
  rewrite <- not_eq_None_Some, index_by_lookup_None.
  split; [apply dec_stable | tauto].
Qed.

(** With unique keys, the mapping holds every entry of the list. *)
Lemma index_by_lookup_NoDup {A} (f : A → string) (l : list A) e :
  NoDup (f <$> l) → e ∈ l → index_by f l !! f e = Some e.
Proof.
  induction l as [|x l IH] using rev_ind; [set_solver |].
  rewrite fmap_app, index_by_snoc. intros [Hl [Hx _]]%NoDup_app Hin.
  apply elem_of_app in Hin as [Hin|Hin].
  - rewrite lookup_insert_ne; [by apply IH |].
    intros Heq. apply (Hx (f e)); [| set_solver].
    apply list_elem_of_fmap. eauto.
  - apply list_elem_of_singleton in Hin as ->. apply lookup_insert_eq.
Qed.

Lemma index_by_fmap {A B} (f : A → string) (g : B → string) (h : A → B) l :
  (∀ e, g (h e) = f e) → index_by g (h <$> l) = h <$> index_by f l.
Proof.
  intros Hk. induction l as [|x l IH] using rev_ind.
  - unfold index_by. simpl. by rewrite fmap_empty.
  - rewrite fmap_app. simpl. rewrite !index_by_snoc, IH, fmap_insert.
    by rewrite Hk.
Qed.

Lemma elem_of_entries {A} (m : gmap string A) (e : A) :
  e ∈ (map_to_list m).*2 ↔ ∃ k, m !! k = Some e.
Proof.
  rewrite list_elem_of_fmap. split.
  - intros [[k x] [-> Hin]]. exists k. by apply elem_of_map_to_list.
  - intros [k Hk]. exists (k, e). split; [done |].
    by apply elem_of_map_to_list.
Qed.

Lemma elem_of_indexed {A} (f : A → string) (l : list A) (e : A) :
  e ∈ (map_to_list (index_by f l)).*2 ↔ index_by f l !! f e = Some e.
Proof.
  rewrite elem_of_entries. split; [| eauto].
  intros [k Hk]. by destruct (index_by_lookup_Some _ _ _ _ Hk) as [_ ->].
Qed.

Lemma classify_add remote e :
  classify remote e = IsAdd ↔ remote !! Source.key e = None.
Proof.
  unfold classify. destruct (remote !! Source.key e) as [r|]; [| done].
  by destruct (String.eqb _ _).
Qed.

Lemma classify_update remote e :
  classify remote e = IsUpdate
  ↔ ∃ r, remote !! Source.key e = Some r
         ∧ Source.md5Hash e ≠ Target.md5Hash r.
Proof.
  unfold classify. destruct (remote !! Source.key e) as [r|].
  - destruct (String.eqb_spec (Source.md5Hash e) (Target.md5Hash r)).
    + split; [done |]. intros (r' & [= <-] & ?). done.
    + split; [eauto | done].
  - split; [done |]. by intros (r & ? & ?).
Qed.

Lemma elem_of_add source target e :
  e ∈ add (diff source target)
  ↔ index_by Source.key source !! Source.key e = Some e
    ∧ index_by Target.key target !! Source.key e = None.
Proof.
  unfold diff. simpl. rewrite list_elem_of_filter, classify_add, elem_of_indexed.
  tauto.
Qed.

Lemma elem_of_update source target e :
  e ∈ update (diff source target)
  ↔ index_by Source.key source !! Source.key e = Some e
    ∧ ∃ r, index_by Target.key target !! Source.key e = Some r
           ∧ Source.md5Hash e ≠ Target.md5Hash r.
Proof.
  unfold diff. simpl.
  rewrite list_elem_of_filter, classify_update, elem_of_indexed. tauto.
Qed.

Lemma elem_of_remove source target r :
  r ∈ remove (diff source target)
  ↔ index_by Target.key target !! Target.key r = Some r
    ∧ index_by Source.key source !! Target.key r = None.
Proof.
  unfold diff. simpl. rewrite list_elem_of_filter, elem_of_indexed. tauto.
Qed.

Lemma index_by_NoDup_iff {A} (f : A → string) (l : list A) k e :
  NoDup (f <$> l) → index_by f l !! k = Some e ↔ e ∈ l ∧ f e = k.
Proof.
  intros Hnd. split; [apply index_by_lookup_Some |].
  intros [Hin <-]. by apply index_by_lookup_NoDup.
Qed.

(** A list without elements is empty. *)
Lemma no_elem_nil {A} (l : list A) : (∀ x, x ∉ l) → l = [].
Proof. destruct l as [|x l]; [done |]. intros H. destruct (H x). set_solver. Qed.

(** Against a remote side that mirrors the local one, nothing changes. *)
Lemma diff_mirror (source : list Source.t) (target : list Target.t) :
  NoDup (Source.key <$> source) →
  (∀ r, r ∈ target ↔ r ∈ snapshot <$> source) →
  diff source target = no_changes.
Proof.
  intros Hnd Hmirror.
  assert (∀ k r, index_by Target.key target !! k = Some r →
                 ∃ e, e ∈ source ∧ Source.key e = k ∧ r = snapshot e) as Hremote.
  { intros k r [Hin Hk]%index_by_lookup_Some.
    apply Hmirror, list_elem_of_fmap in Hin as (e & -> & He). eauto. }
  assert (add (diff source target) = []) as Ha.
  { apply no_elem_nil. intros e [Hl Hr]%elem_of_add.
    apply index_by_lookup_Some in Hl as [He _].
    apply index_by_lookup_None in Hr. apply Hr.
    apply list_elem_of_fmap. exists (snapshot e). split; [done |].
    apply Hmirror, list_elem_of_fmap. eauto. }
  assert (update (diff source target) = []) as Hu.
  { apply no_elem_nil. intros e (Hl & r & Hr & Hh)%elem_of_update.
    apply index_by_lookup_Some in Hl as [He _].
    destruct (Hremote _ _ Hr) as (e' & He' & Hk & ->).
    assert (e' = e) as ->; [| done].
    apply (index_by_lookup_NoDup Source.key) in He, He'; try done.
    rewrite Hk in He'. congruence. }
  assert (remove (diff source target) = []) as Hr.
  { apply no_elem_nil. intros r [Hr Hl]%elem_of_remove.
    destruct (Hremote _ _ Hr) as (e & He & Hk & ->).
    apply index_by_lookup_None in Hl. apply Hl.
    apply list_elem_of_fmap. eauto. }
  destruct (diff source target); simpl in *; by subst.
Qed.

(** Against its own snapshot, a manifest has no changes. *)
Lemma diff_snapshot (source : list Source.t) :
  diff source (snapshot <$> source) = no_changes.
Proof.
  assert (Hremote : index_by Target.key (snapshot <$> source)
                    = snapshot <$> index_by Source.key source)
    by by apply index_by_fmap.
  assert (add (diff source (snapshot <$> source)) = []) as Ha.
  { apply no_elem_nil. intros e [Hl Hr]%elem_of_add.
    by rewrite Hremote, lookup_fmap, Hl in Hr. }
  assert (update (diff source (snapshot <$> source)) = []) as Hu.
  { apply no_elem_nil. intros e (Hl & r & Hr & Hh)%elem_of_update.
    rewrite Hremote, lookup_fmap, Hl in Hr. by injection Hr as <-. }
  assert (remove (diff source (snapshot <$> source)) = []) as Hr.
  { apply no_elem_nil. intros r [Hr Hl]%elem_of_remove.
    by rewrite Hremote, lookup_fmap, Hl in Hr. }
  destruct (diff source (snapshot <$> source)); simpl in *; by subst.
Qed.

Lemma diff_vectors (a h1 h2 : string) :
  h1 ≠ h2 →
  diff [Source.Build a a h1] []
    = {| add := [Source.Build a a h1]; update := []; remove := [] |}
  ∧ diff [Source.Build a a h1] [Target.Build a h1] = no_changes
  ∧ diff [Source.Build a a h2] [Target.Build a h1]
    = {| add := []; update := [Source.Build a a h2]; remove := [] |}
  ∧ diff [] [Target.Build a h1]
    = {| add := []; update := []; remove := [Target.Build a h1] |}.
Proof.
  intros Hne.
  assert (String.eqb h2 h1 = false) as Hf by (apply String.eqb_neq; congruence).
  unfold diff, index_by, classify; simpl.
  rewrite !insert_empty, !map_to_list_singleton, !map_to_list_empty. simpl.
  unfold filter; simpl.
  rewrite ?lookup_empty, ?lookup_singleton_eq; simpl.
  by rewrite String.eqb_refl, Hf.
Qed.

(** C4: for manifests with unique keys, [add] holds exactly the local
    entries whose key is absent from the remote side, [update] exactly the
    local entries whose key is on the remote side with a different hash,
    [remove] exactly the remote entries whose key is absent from the local
    side, and an entry with the same key and hash on both sides is in none
    of the three; the four one-entry examples evaluate as stated. *)
Theorem diff_classification
  (source : list Source.t) (target : list Target.t) (a h1 h2 : string) :
  NoDup (Source.key <$> source) →
  NoDup (Target.key <$> target) →
  h1 ≠ h2 →
  (∀ e, e ∈ add (diff source target)
        ↔ e ∈ source ∧ Source.key e ∉ Target.key <$> target)
  ∧ (∀ e, e ∈ update (diff source target)
          ↔ e ∈ source
            ∧ ∃ r, r ∈ target ∧ Target.key r = Source.key e
                   ∧ Source.md5Hash e ≠ Target.md5Hash r)
  ∧ (∀ r, r ∈ remove (diff source target)
          ↔ r ∈ target ∧ Target.key r ∉ Source.key <$> source)
  ∧ (∀ e r, e ∈ source → r ∈ target → Target.key r = Source.key e →
            Source.md5Hash e = Target.md5Hash r →
            (e ∉ add (diff source target))
            ∧ (e ∉ update (diff source target))
            ∧ (r ∉ remove (diff source target)))
  ∧ diff [Source.Build a a h1] []
    = {| add := [Source.Build a a h1]; update := []; remove := [] |}
  ∧ diff [Source.Build a a h1] [Target.Build a h1] = no_changes
  ∧ diff [Source.Build a a h2] [Target.Build a h1]
    = {| add := []; update := [Source.Build a a h2]; remove := [] |}
  ∧ diff [] [Target.Build a h1]
    = {| add := []; update := []; remove := [Target.Build a h1] |}.
Proof.
  intros Hs Ht Hne.
  assert (Hadd : ∀ e, e ∈ add (diff source target)
        ↔ e ∈ source ∧ Source.key e ∉ Target.key <$> target).
  { intros e. rewrite elem_of_add, index_by_lookup_None.
    rewrite index_by_NoDup_iff by done. tauto. }
  assert (Hupd : ∀ e, e ∈ update (diff source target)
          ↔ e ∈ source
            ∧ ∃ r, r ∈ target ∧ Target.key r = Source.key e
                   ∧ Source.md5Hash e ≠ Target.md5Hash r).
  { intros e. rewrite elem_of_update, index_by_NoDup_iff by done.
    split.
    - intros ([He _] & r & Hr & Hh). split; [done |]. exists r.
      apply index_by_NoDup_iff in Hr as [? ?]; done.
    - intros (He & r & Hr & Hk & Hh). split; [done |]. exists r.
      split; [| done]. by apply index_by_NoDup_iff. }
  assert (Hrem : ∀ r, r ∈ remove (diff source target)
          ↔ r ∈ target ∧ Target.key r ∉ Source.key <$> source).
  { intros r. rewrite elem_of_remove, index_by_lookup_None.
    rewrite index_by_NoDup_iff by done. tauto. }
  split; [done |]. split; [done |]. split; [done |]. split.
  - intros e r He Hr Hk Hh. repeat split.
    + rewrite Hadd. intros [_ Hno]. apply Hno.
      apply list_elem_of_fmap. eauto.
    + rewrite Hupd. intros (_ & r' & Hr' & Hk' & Hh').
      assert (r' = r) as ->; [| done].
      apply (index_by_lookup_NoDup Target.key) in Hr, Hr'; try done.
      rewrite Hk, <- Hk' in Hr. congruence.
    + rewrite Hrem. intros [_ Hno]. apply Hno.
      apply list_elem_of_fmap. eauto.
  - by apply diff_vectors.
Qed.

Lemma diff_classification_witness :
  (∀ e, e ∈ add (diff Manifests.source Manifests.target)
        ↔ e ∈ Manifests.source
          ∧ Source.key e ∉ Target.key <$> Manifests.target)
  ∧ (∀ e, e ∈ update (diff Manifests.source Manifests.target)
          ↔ e ∈ Manifests.source
            ∧ ∃ r, r ∈ Manifests.target ∧ Target.key r = Source.key e
                   ∧ Source.md5Hash e ≠ Target.md5Hash r)
  ∧ (∀ r, r ∈ remove (diff Manifests.source Manifests.target)
          ↔ r ∈ Manifests.target
            ∧ Target.key r ∉ Source.key <$> Manifests.source)
  ∧ (∀ e r, e ∈ Manifests.source → r ∈ Manifests.target →
            Target.key r = Source.key e →
            Source.md5Hash e = Target.md5Hash r →
            (e ∉ add (diff Manifests.source Manifests.target))
            ∧ (e ∉ update (diff Manifests.source Manifests.target))
            ∧ (r ∉ remove (diff Manifests.source Manifests.target)))
  ∧ diff [Source.Build "a" "a" "h1"] []
    = {| add := [Source.Build "a" "a" "h1"]; update := []; remove := [] |}
  ∧ diff [Source.Build "a" "a" "h1"] [Target.Build "a" "h1"] = no_changes
  ∧ diff [Source.Build "a" "a" "h2"] [Target.Build "a" "h1"]
    = {| add := []; update := [Source.Build "a" "a" "h2"]; remove := [] |}
  ∧ diff [] [Target.Build "a" "h1"]
    = {| add := []; update := []; remove := [Target.Build "a" "h1"] |}.
Proof.
  apply (diff_classification Manifests.source Manifests.target "a" "h1" "h2").
  - apply (bool_decide_unpack _). vm_compute. exact I.
  - apply (bool_decide_unpack _). vm_compute. exact I.
  - discriminate.
Defined.

End Differ.

(** ** The executor *)

Local Open Scope list_scope.

Section Executor.

Variable mime_getType : string → option string.
Variable cacheControl : string.
Variable fs : FileSystem.
Context {St Err : Type} {client : S3Client St Err}.
Variable config : Config.

Local Abbreviation run_step := (perform mime_getType cacheControl fs config).
Local Abbreviation request_of :=
  (step_request mime_getType cacheControl fs config).
Local Abbreviation apply_changes :=
  (applyChanges mime_getType cacheControl fs config).

Lemma forEach_app {A} (l1 l2 : list A) (body : A → Task St Err unit) w :
  forEach (l1 ++ l2) body w = (forEach l1 body ;; forEach l2 body) w.
Proof.
  revert w. induction l1 as [|x l1 IH]; intros w; [done |].
  simpl. unfold bind in *. destruct (body x w) as [[e|[]] w1]; [done |].
  apply IH.
Qed.

Lemma forEach_fmap {A B} (g : A → B) (l : list A) (body : B → Task St Err unit) w :
  forEach (g <$> l) body w = forEach l (λ x, body (g x)) w.
Proof.
  revert w. induction l as [|x l IH]; intros w; [done |].
  simpl. unfold bind. destruct (body (g x) w) as [[e|[]] w1]; [done |].
  apply IH.
Qed.

(** The three loops run the schedule, one iteration after the other. *)
Lemma applyChanges_steps (changes : ChangeSet) w :
  apply_changes changes w = forEach (steps changes) run_step w.
Proof.
  unfold applyChanges, steps. rewrite !forEach_app.
  unfold bind. rewrite forEach_fmap. simpl.
  destruct (forEach (add changes) _ w) as [[e|[]] w1]; [done |].
  rewrite forEach_app. unfold bind. rewrite forEach_fmap. simpl.
  destruct (forEach (update changes) _ w1) as [[e|[]] w2]; [done |].
  by rewrite forEach_fmap.
Qed.

Lemma perform_unfold (s : Step) w :
  run_step s w =
    let w1 := {| s3 := s3 w; output := output w ++ [step_line s];
                 requests := requests w |} in
    match request_of s with
    | Some r => await_putObject r w1
    | None => (inl (FsError (default EmptyString (step_file config s))), w1)
    end.
Proof.
  destruct s as [c|c|c]; simpl;
    unfold addChange, updateChange, removeChange, bind, set_output, read;
    simpl; try done;
    by destruct (readFileSync fs (fullPathOf config (Source.path c))).
Qed.

(** What a run of the schedule leaves behind: the status lines of the
    iterations it started, the calls it issued, and how it ended. *)
Lemma forEach_perform_run (l : list Step) w res w' :
  forEach l run_step w = (res, w') →
  ∃ started reqs,
    started `prefix_of` l
    ∧ output w' = output w ++ (step_line <$> started)
    ∧ requests w' = requests w ++ (PutObjectCall <$> reqs)
    ∧ match res with
      | inr _ => started = l ∧ mapM request_of l = Some reqs
      | inl (FsError p) =>
          ∃ before s, started = before ++ [s]
            ∧ mapM request_of before = Some reqs
            ∧ request_of s = None ∧ step_file config s = Some p
      | inl (ClientError e) =>
          ∃ before s breqs r st, started = before ++ [s]
            ∧ mapM request_of before = Some breqs
            ∧ reqs = breqs ++ [r]
            ∧ request_of s = Some r
            ∧ putObject r st = (inl e, s3 w')
      end.
Proof.
  revert w. induction l as [|x l IH]; intros w.
  - intros [= <- <-]. exists [], []. simpl. rewrite !app_nil_r. done.
  - simpl. unfold bind. rewrite perform_unfold. cbv zeta.
    destruct (request_of x) as [r|] eqn:Hreq.
    + unfold await_putObject. simpl.
      destruct (putObject r (s3 w)) as [[e|[]] st] eqn:Hput.
      * intros [= <- <-]. exists [x], [r]. simpl.
        split; [by apply prefix_cons, prefix_nil |]. do 2 (split; [done |]).
        exists [], x, [], r, (s3 w). by rewrite Hput.
      * intros Hrun. apply IH in Hrun as (started & reqs & Hpre & Hout & Hreqs & Hres).
        simpl in Hout, Hreqs. exists (x :: started), (r :: reqs).
        split; [by apply prefix_cons |].
        split; [by rewrite Hout, <- app_assoc |].
        split; [by rewrite Hreqs, <- app_assoc |].
        destruct res as [[p|e]|[]].
        -- destruct Hres as (before & s & -> & Hm & Hs & Hp).
           exists (x :: before), s. simpl. by rewrite Hreq, Hm.
        -- destruct Hres as (before & s & breqs & r' & st' & -> & Hm & -> & Hs & Hp).
           exists (x :: before), s, (r :: breqs), r', st'. simpl.
           by rewrite Hreq, Hm.
        -- destruct Hres as [-> Hm]. split; [done |].
           cbn [mapM]. by rewrite ?Hreq, Hm.
    + intros [= <- <-]. exists [x], []. simpl.
      split; [by apply prefix_cons, prefix_nil |]. rewrite app_nil_r.
      do 2 (split; [done |]).
      exists [], x. repeat split; try done.
      destruct x as [c|c|c]; simpl in *; try done.
Qed.

Lemma request_of_key (s : Step) (r : PutObject.request) :
  request_of s = Some r → PutObject.Key r = step_key s.
Proof.
  destruct s as [c|c|c]; simpl.
  - destruct (readFileSync fs _); intros [= <-]; done.
  - destruct (readFileSync fs _); intros [= <-]; done.
  - by intros [= <-].
Qed.

(** A run of iterations whose calls all resolve. *)
Lemma forEach_perform_resolved (l rest : list Step)
  (reqs : list PutObject.request) w (st1 : St) :
  Forall2 (λ s r, request_of s = Some r) l reqs →
  resolved reqs (s3 w) = Some st1 →
  forEach (l ++ rest) run_step w
  = forEach rest run_step
      {| s3 := st1; output := output w ++ (step_line <$> l);
         requests := requests w ++ (PutObjectCall <$> reqs) |}.
Proof.
  intros HF. revert w. induction HF as [|s r l reqs Hs _ IH]; intros w.
  - intros [= <-]. simpl. rewrite !app_nil_r. by destruct w.
  - cbn [resolved].
    destruct (putObject r (s3 w)) as [[e|u] st0] eqn:Hput; [done |].
    intros Hrest. cbn [app forEach]. unfold bind at 1.
    rewrite perform_unfold, Hs. cbv zeta. unfold await_putObject.
    cbn [s3 output requests]. rewrite Hput.
    rewrite (IH {| s3 := st0; output := output w ++ [step_line s];
                   requests := requests w ++ [PutObjectCall r] |} Hrest).
    cbn [s3 output requests].
    by rewrite !fmap_cons, <- !app_assoc.
Qed.

(** C6: when the call of an iteration rejects, the calls of the earlier
    iterations having resolved, the loops end there with the client's own
    error, whichever loop the iteration belongs to: the rejected call is the
    last one issued, the status line of the failing iteration is the last
    one assigned, no later iteration starts, and the rejected call writes to
    the key of the failing iteration. *)
Theorem apply_stops_at_first_rejection (changes : ChangeSet) w
  (before after : list Step) (failing : Step)
  (reqs : list PutObject.request) (r : PutObject.request)
  (st1 st' : St) (e : Err) :
  steps changes = before ++ failing :: after →
  mapM request_of before = Some reqs →
  resolved reqs (s3 w) = Some st1 →
  request_of failing = Some r →
  putObject r st1 = (inl e, st') →
  apply_changes changes w
  = (inl (ClientError e),
     {| s3 := st'; output := output w ++ (step_line <$> before ++ [failing]);
        requests := requests w ++ (PutObjectCall <$> reqs ++ [r]) |})
  ∧ PutObject.Key r = step_key failing.
Proof.
  intros Hsteps Hreqs%mapM_Some Hresolved Hfailing Hput.
  split; [| by eapply request_of_key].
  rewrite applyChanges_steps, Hsteps.
  rewrite (forEach_perform_resolved _ _ _ _ _ Hreqs Hresolved).
  cbn [forEach]. unfold bind. rewrite perform_unfold, Hfailing. cbv zeta.
  unfold await_putObject. cbn [s3 output requests]. rewrite Hput.
  by rewrite !fmap_app, <- !app_assoc.
Qed.

(** Every call the loops issue is a [putObject]. *)
Lemma applyChanges_only_puts (changes : ChangeSet) w :
  ∃ reqs,
    requests (apply_changes changes w).2
    = requests w ++ (PutObjectCall <$> reqs).
Proof.
  destruct (apply_changes changes w) as [res w'] eqn:Hrun.
  rewrite applyChanges_steps in Hrun.
  apply forEach_perform_run in Hrun as (started & reqs & _ & _ & Hreqs & _).
  eauto.
Qed.

Lemma steps_keys (changes : ChangeSet) :
  step_key <$> steps changes
  = (Source.key <$> add changes) ++ (Source.key <$> update changes)
    ++ (Target.key <$> remove changes).
Proof.
  unfold steps. rewrite !fmap_app, <- !list_fmap_compose. done.
Qed.

Lemma indexed_keys {A} (f : A → string) (l : list A) :
  f <$> (map_to_list (index_by f l)).*2 = (map_to_list (index_by f l)).*1.
Proof.
  rewrite <- list_fmap_compose. apply list_fmap_ext.
  intros i [k e] Hi. simpl.
  apply list_elem_of_lookup_2, elem_of_map_to_list in Hi.
  by apply index_by_lookup_Some in Hi as [_ ?].
Qed.

Lemma NoDup_filter_keys {A} (f : A → string) (l : list A)
  (P : A → Prop) `{!∀ x, Decision (P x)} :
  NoDup (f <$> filter P (map_to_list (index_by f l)).*2).
Proof.
  eapply sublist_NoDup; [| apply fmap_sublist, sublist_filter].
  rewrite indexed_keys. apply NoDup_fst_map_to_list.
Qed.

(** No key occurs twice in the schedule computed from a diff. *)
Lemma steps_diff_NoDup (source : list Source.t) (target : list Target.t) :
  NoDup (step_key <$> steps (diff source target)).
Proof.
  rewrite steps_keys. rewrite !NoDup_app. repeat split.
  - apply NoDup_filter_keys.
  - intros k (e & -> & [_ Hadd]%elem_of_add)%list_elem_of_fmap Hin.
    apply elem_of_app in Hin
      as [(e' & Hk & (_ & r & Hr & _)%elem_of_update)%list_elem_of_fmap
         |(r & Hk & [Hr _]%elem_of_remove)%list_elem_of_fmap];
      congruence.
  - apply NoDup_filter_keys.
  - intros k (e & -> & [Hl _]%elem_of_update)%list_elem_of_fmap
      (r & Hk & [_ Hr]%elem_of_remove)%list_elem_of_fmap.
    congruence.
  - apply NoDup_filter_keys.
Qed.

(** In the schedule, nothing but removals follows a removal. *)
Lemma steps_removals_last (changes : ChangeSet) i j s1 s2 :
  steps changes !! i = Some s1 → steps changes !! j = Some s2 → i < j →
  is_removal s1 = true → is_removal s2 = true.
Proof.
  unfold steps. rewrite app_assoc. intros H1 H2 Hij Hrem.
  apply lookup_app_Some in H1 as [H1|[Hlen H1]].
  - apply list_elem_of_lookup_2, elem_of_app in H1 as [H1|H1];
      apply list_elem_of_fmap in H1 as (c & -> & _); done.
  - apply lookup_app_Some in H2 as [H2|[_ H2]].
    + apply lookup_lt_Some in H2. lia.
    + apply list_elem_of_lookup_2, list_elem_of_fmap in H2 as (c & -> & _).
      done.
Qed.

(** The change set computed by [diff] has no key in two categories. *)
Lemma diff_exclusive (source : list Source.t) (target : list Target.t) :
  exclusive (diff source target).
Proof.
  intros s s' Hs Hs' Hk.
  apply list_elem_of_lookup in Hs as [i Hi], Hs' as [j Hj].
  assert (i = j) as ->; [| congruence].
  eapply NoDup_lookup; [apply (steps_diff_NoDup source target) | |];
    rewrite list_lookup_fmap; [by rewrite Hi | by rewrite Hj, Hk].
Qed.

Lemma prefix_of_app_split {A} (l u r : list A) :
  l `prefix_of` u ++ r →
  l `prefix_of` u ∨ ∃ r', l = u ++ r' ∧ r' `prefix_of` r.
Proof.
  revert l. induction u as [|x u IH]; intros l Hpre.
  - right. by exists l.
  - destruct l as [|y l]; [left; apply prefix_nil |].
    simpl in Hpre. pose proof (prefix_cons_inv_1 _ _ _ _ Hpre) as ->.
    apply prefix_cons_inv_2, IH in Hpre as [Hpre | (r' & -> & Hr')].
    + left. by apply prefix_cons.
    + right. by exists r'.
Qed.

(** What a run of iterations leaves in the store: the calls of the
    iterations that reached their call, issued in turn. *)
Lemma forEach_perform_issue (l : list Step) w :
  ∃ issued reqs,
    issued `prefix_of` l
    ∧ Forall2 (λ s r, request_of s = Some r) issued reqs
    ∧ requests (forEach l run_step w).2
      = requests w ++ (PutObjectCall <$> reqs)
    ∧ s3 (forEach l run_step w).2 = issue reqs (s3 w).
Proof.
  revert w. induction l as [|x l IH]; intros w.
  - exists [], []. simpl. by rewrite app_nil_r.
  - cbn [forEach]. unfold bind. rewrite perform_unfold. cbv zeta.
    destruct (request_of x) as [r|] eqn:Hreq.
    + unfold await_putObject. cbn [s3 output requests].
      destruct (putObject r (s3 w)) as [[e|u] st] eqn:Hput.
      * exists [x], [r]. cbn [snd s3 requests].
        split; [by apply prefix_cons, prefix_nil |].
        split; [by repeat constructor |]. split; [done |].
        unfold issue. simpl. by rewrite Hput.
      * destruct (IH {| s3 := st; output := output w ++ [step_line x];
                        requests := requests w ++ [PutObjectCall r] |})
          as (issued & reqs & Hpre & HF & Hreqs & Hs3).
        exists (x :: issued), (r :: reqs).
        split; [by apply prefix_cons |]. split; [by constructor |].
        rewrite Hreqs, Hs3. cbn [s3 requests].
        split; [by rewrite fmap_cons, <- app_assoc |].
        unfold issue. simpl. by rewrite Hput.
    + exists [], []. cbn [snd s3 requests]. rewrite app_nil_r.
      split; [apply prefix_nil |]. by split; [constructor |].
Qed.

Lemma Forall2_request_key (l : list Step) (reqs : list PutObject.request) :
  Forall2 (λ s r, request_of s = Some r) l reqs →
  Forall2 (λ s r, request_of s = Some r ∧ PutObject.Key r = step_key s)
    l reqs.
Proof.
  intros HF. eapply Forall2_impl; [exact HF |].
  intros s r Hs. split; [done |]. by eapply request_of_key.
Qed.

(** C9: the calls that a run of the loops issues are those of the add and
    update iterations it went through, one upload per iteration, followed by
    those of the remove iterations it went through, one call per iteration:
    every call of the remove loop comes after every upload, the remove loop
    starts only when every entry to add or update has had its upload, and
    the store is what these calls make it.  The loops act on each entry in
    the category the change set gives it: when no key of the change set is
    in two categories, no key gets both an upload and a call of the remove
    loop, and no key is written by the add loop and by the update loop. *)
Theorem apply_respects_categories (changes : ChangeSet) w :
  ∃ (ups rems : list Step) (uploads removals : list PutObject.request),
    (ups ++ rems) `prefix_of` steps changes
    ∧ Forall (λ s, is_removal s = false) ups
    ∧ Forall (λ s, is_removal s = true) rems
    ∧ Forall2 (λ s r, request_of s = Some r ∧ PutObject.Key r = step_key s)
        ups uploads
    ∧ Forall2 (λ s r, request_of s = Some r ∧ PutObject.Key r = step_key s)
        rems removals
    ∧ requests (apply_changes changes w).2
      = requests w ++ (PutObjectCall <$> uploads ++ removals)
    ∧ s3 (apply_changes changes w).2 = issue (uploads ++ removals) (s3 w)
    ∧ (rems ≠ [] →
       ups = (AddStep <$> add changes) ++ (UpdateStep <$> update changes))
    ∧ (exclusive changes →
       (∀ r r', r ∈ uploads → r' ∈ removals →
                PutObject.Key r ≠ PutObject.Key r')
       ∧ (∀ s s', s ∈ ups → s' ∈ ups → step_key s = step_key s' →
                  category s = category s')).
Proof.
  rewrite applyChanges_steps.
  destruct (forEach_perform_issue (steps changes) w)
    as (issued & reqs & Hpre & HF & Hreqs & Hs3).
  set (U := (AddStep <$> add changes) ++ (UpdateStep <$> update changes)).
  set (R := RemoveStep <$> remove changes).
  assert (Hsteps : steps changes = U ++ R)
    by (unfold steps, U, R; by rewrite app_assoc).
  assert (HU : Forall (λ s, is_removal s = false) U).
  { apply Forall_app. split; apply Forall_fmap, Forall_true; done. }
  assert (HR : Forall (λ s, is_removal s = true) R).
  { apply Forall_fmap, Forall_true; done. }
  assert (Hsplit : ∃ ups rems,
             issued = ups ++ rems
             ∧ Forall (λ s, is_removal s = false) ups
             ∧ Forall (λ s, is_removal s = true) rems
             ∧ (rems ≠ [] → ups = U)).
  { rewrite Hsteps in Hpre.
    apply prefix_of_app_split in Hpre as [[k Hk] | (r' & -> & [k Hk])].
    - exists issued, []. rewrite app_nil_r. repeat split; try done.
      rewrite Hk in HU. by apply Forall_app in HU as [? _].
    - exists U, r'. repeat split; try done.
      rewrite Hk in HR. by apply Forall_app in HR as [? _]. }
  destruct Hsplit as (ups & rems & -> & Hups & Hrems & Hall).
  apply Forall2_app_inv_l in HF as (uploads & removals & HFu & HFr & ->).
  exists ups, rems, uploads, removals.
  split; [done |]. split; [done |]. split; [done |].
  split; [by apply Forall2_request_key |].
  split; [by apply Forall2_request_key |].
  split; [done |]. split; [done |]. split; [done |].
  intros Hex. split.
  - intros r r' Hr Hr' Hk.
    apply (Forall2_request_key _ _) in HFu, HFr.
    destruct (Forall2_elem_of_r _ _ _ _ HFu Hr) as (s & Hs & _ & Hks).
    destruct (Forall2_elem_of_r _ _ _ _ HFr Hr') as (s' & Hs' & _ & Hks').
    assert (Hcat : category s = category s').
    { apply Hex; [| | congruence];
        eapply elem_of_prefix; try exact Hpre; set_solver. }
    rewrite Forall_forall in Hups, Hrems.
    specialize (Hups s Hs). specialize (Hrems s' Hs').
    by destruct s, s'.
  - intros s s' Hs Hs' Hk.
    apply Hex; [| | done];
      eapply elem_of_prefix; try exact Hpre; set_solver.
Qed.

End Executor.

(** ** Runs against the in-memory store *)

Section Runs.

Lemma scenario_diff (H1 H2 H3 : string) :
  diff [Source.Build "about/index.html" "about" H2;
        Source.Build "index.html" "index.html" H1]
       [Target.Build "index.html" H1; Target.Build "old.html" H3]
  = {| add := [Source.Build "about/index.html" "about" H2];
       update := [];
       remove := [Target.Build "old.html" H3] |}.
Proof.
  unfold diff, classify.
  pose proof String.eqb_refl as Hrefl. revert Hrefl.
  generalize String.eqb as same. intros same Hrefl.
  vm_compute. by rewrite Hrefl.
Qed.

Lemma scenario_source (md5hex : Buffer → string) :
  mapT (St := MemS3.state) (Err := MemS3.error)
    (sourceEntry md5hex Scenario.site Scenario.config)
    (paths Scenario.site Scenario.config) (start (Scenario.remote md5hex))
  = (inr [Source.Build "about/index.html" "about"
            (md5HashOf md5hex Scenario.about);
          Source.Build "index.html" "index.html"
            (md5HashOf md5hex Scenario.home)],
     start (Scenario.remote md5hex)).
Proof. vm_compute. reflexivity. Qed.

Lemma scenario_listing (md5hex : Buffer → string) :
  await_listObjectsV2 (client := MemS3.client md5hex)
    (listRequest Scenario.config) (start (Scenario.remote md5hex))
  = (inr {| ListObjectsV2.Contents :=
              [ {| ListObjectsV2.Key := "index.html";
                   ListObjectsV2.ETag := md5HashOf md5hex Scenario.home |};
                {| ListObjectsV2.Key := "old.html";
                   ListObjectsV2.ETag := md5HashOf md5hex Scenario.old |} ];
            ListObjectsV2.IsTruncated := false;
            ListObjectsV2.NextContinuationToken := None |},
     {| s3 := Scenario.remote md5hex; output := [];
        requests := [ListObjects (listRequest Scenario.config)] |}).
Proof. vm_compute. reflexivity. Qed.

(** The scenario reaches the loops with one entry to add and one to remove. *)
Lemma scenario_reaches_loops md5hex mime cc :
  Scenario.run md5hex mime cc
  = applyChanges (client := MemS3.client md5hex) mime cc
      Scenario.site Scenario.config
      {| add := [Source.Build "about/index.html" "about"
                   (md5HashOf md5hex Scenario.about)];
         update := [];
         remove := [Target.Build "old.html" (md5HashOf md5hex Scenario.old)] |}
      {| s3 := Scenario.remote md5hex; output := [];
         requests := [ListObjects (listRequest Scenario.config)] |}.
Proof.
  unfold Scenario.run, synchronizeWebsiteTask, bind.
  rewrite scenario_source, scenario_listing.
  cbv zeta. simpl fmap. unfold targetEntry. simpl.
  by rewrite scenario_diff.
Qed.

(** C1, on the end-to-end scenario: the run succeeds and its change set is
    the expected one, but the iteration over [remove] issues a [putObject]
    for [old.html] without a body; no deletion is issued, and the bucket
    ends with the three keys [index.html], [about] and [old.html], the last
    one holding an empty object.  Whatever the change set, the loops issue
    nothing but [putObject] calls. *)
Theorem scenario_keeps_removed_key md5hex mime cc
  (changes : ChangeSet) (w : World MemS3.state) :
  (∃ reqs,
      requests (applyChanges (client := MemS3.client md5hex) mime cc
                  Scenario.site Scenario.config changes w).2
      = requests w ++ (PutObjectCall <$> reqs))
  ∧ (Scenario.run md5hex mime cc).1 = inr tt
  ∧ output (Scenario.run md5hex mime cc).2
    = ["Adding about/index.html as about"; "Removing old.html"]
  ∧ requests (Scenario.run md5hex mime cc).2
    = [ListObjects (listRequest Scenario.config);
       PutObjectCall
         {| PutObject.Bucket := "example.com";
            PutObject.Body := Some Scenario.about;
            PutObject.Key := "about";
            PutObject.ACL := Some "public-read";
            PutObject.CacheControl := Some cc;
            PutObject.ContentType := mime "build/about/index.html" |};
       PutObjectCall
         {| PutObject.Bucket := "example.com";
            PutObject.Body := None;
            PutObject.Key := "old.html";
            PutObject.ACL := None;
            PutObject.CacheControl := None;
            PutObject.ContentType := None |}]
  ∧ MemS3.keys (s3 (Scenario.run md5hex mime cc).2) "example.com"
    = {[ "index.html"; "about"; "old.html" ]}
  ∧ MemS3.body
      <$> (MemS3.buckets (s3 (Scenario.run md5hex mime cc).2)
             !! "example.com" ≫= (.!! "old.html"))
    = Some [].
Proof.
  split; [apply applyChanges_only_puts |].
  rewrite scenario_reaches_loops.
  split; [by vm_compute |]. split; [by vm_compute |].
  split; [by vm_compute |]. split; [| by vm_compute].
  eapply bool_decide_unpack. by vm_compute.
Qed.

(** The second run of the scenario: same files, and the bucket as the first
    run leaves it. *)
Lemma scenario_source_again (md5hex : Buffer → string)
  (w : World MemS3.state) :
  mapT (Err := MemS3.error)
    (sourceEntry md5hex Scenario.site Scenario.config)
    (paths Scenario.site Scenario.config) w
  = (inr [Source.Build "about/index.html" "about"
            (md5HashOf md5hex Scenario.about);
          Source.Build "index.html" "index.html"
            (md5HashOf md5hex Scenario.home)],
     w).
Proof. vm_compute. reflexivity. Qed.

Lemma scenario_listing_again md5hex mime cc :
  await_listObjectsV2 (client := MemS3.client md5hex)
    (listRequest Scenario.config)
    (start (s3 (Scenario.run md5hex mime cc).2))
  = (inr {| ListObjectsV2.Contents :=
              [ {| ListObjectsV2.Key := "about";
                   ListObjectsV2.ETag := md5HashOf md5hex Scenario.about |};
                {| ListObjectsV2.Key := "index.html";
                   ListObjectsV2.ETag := md5HashOf md5hex Scenario.home |};
                {| ListObjectsV2.Key := "old.html";
                   ListObjectsV2.ETag := md5HashOf md5hex [] |} ];
            ListObjectsV2.IsTruncated := false;
            ListObjectsV2.NextContinuationToken := None |},
     {| s3 := s3 (Scenario.run md5hex mime cc).2; output := [];
        requests := [ListObjects (listRequest Scenario.config)] |}).
Proof. rewrite scenario_reaches_loops. vm_compute. reflexivity. Qed.

Lemma scenario_diff_again (H0 H1 H2 : string) :
  diff [Source.Build "about/index.html" "about" H2;
        Source.Build "index.html" "index.html" H1]
       [Target.Build "about" H2; Target.Build "index.html" H1;
        Target.Build "old.html" H0]
  = {| add := []; update := []; remove := [Target.Build "old.html" H0] |}.
Proof.
  unfold diff, classify.
  pose proof String.eqb_refl as Hrefl. revert Hrefl.
  generalize String.eqb as same. intros same Hrefl.
  vm_compute. by rewrite !Hrefl.
Qed.

Lemma scenario_rerun_reaches_loops md5hex mime cc :
  Scenario.rerun md5hex mime cc
  = applyChanges (client := MemS3.client md5hex) mime cc
      Scenario.site Scenario.config
      {| add := []; update := [];
         remove := [Target.Build "old.html" (md5HashOf md5hex [])] |}
      {| s3 := s3 (Scenario.run md5hex mime cc).2; output := [];
         requests := [ListObjects (listRequest Scenario.config)] |}.
Proof.
  unfold Scenario.rerun, synchronizeWebsiteTask, bind.
  rewrite scenario_source_again, scenario_listing_again.
  cbv zeta. simpl fmap. unfold targetEntry. simpl.
  by rewrite scenario_diff_again.
Qed.

(** C5, on the end-to-end scenario run twice on unchanged files, whatever
    the digest, the content types and the cache header are: the first run
    succeeds; the second lists the bucket, finds [old.html] still there, and
    issues the call of the remove loop for it again, so a second run without
    local change does make a call beyond the listing. *)
Theorem scenario_second_run_repeats_upload md5hex mime cc :
  (Scenario.run md5hex mime cc).1 = inr tt
  ∧ (Scenario.rerun md5hex mime cc).1 = inr tt
  ∧ output (Scenario.rerun md5hex mime cc).2 = ["Removing old.html"]
  ∧ requests (Scenario.rerun md5hex mime cc).2
    = [ListObjects (listRequest Scenario.config);
       PutObjectCall
         {| PutObject.Bucket := "example.com";
            PutObject.Body := None;
            PutObject.Key := "old.html";
            PutObject.ACL := None;
            PutObject.CacheControl := None;
            PutObject.ContentType := None |}]
  ∧ MemS3.keys (s3 (Scenario.rerun md5hex mime cc).2) "example.com"
    = {[ "index.html"; "about"; "old.html" ]}.
Proof.
  rewrite scenario_rerun_reaches_loops, scenario_reaches_loops.
  split; [by vm_compute |]. split; [by vm_compute |].
  split; [by vm_compute |]. split; [by vm_compute |].
  eapply bool_decide_unpack. by vm_compute.
Qed.

(** C6, as stated, fails: the same error is reported whether the refused
    upload is the one of [a.html] or the one of [b.html]; only the last
    status line tells the two runs apart. *)
Lemma rejection_error_is_the_same_for_both_keys :
  (Refusal.run "a.html").1 = inl (ClientError MemS3.AccessDenied)
  ∧ last (output (Refusal.run "a.html").2) = Some "Adding a.html as a.html"
  ∧ (Refusal.run "b.html").1 = inl (ClientError MemS3.AccessDenied)
  ∧ last (output (Refusal.run "b.html").2) = Some "Adding b.html as b.html"
  ∧ (Refusal.run "a.html").1 = (Refusal.run "b.html").1.
Proof. vm_compute. done. Qed.

Lemma apply_stops_at_first_rejection_witness :
  Mixed.run "b.html"
  = (inl (ClientError MemS3.AccessDenied),
     {| s3 := (Mixed.run "b.html").2.(s3);
        output := output (start (Refusal.remote "b.html"))
                  ++ (step_line
                        <$> [AddStep (Source.Build "a.html" "a.html" "h1")]
                            ++ [UpdateStep
                                  (Source.Build "b.html" "b.html" "h2")]);
        requests :=
          requests (start (Refusal.remote "b.html"))
          ++ (PutObjectCall
                <$> [uploadRequest no_mime "max-age=3600" Scenario.config
                       (Source.Build "a.html" "a.html" "h1") Scenario.home]
                    ++ [uploadRequest no_mime "max-age=3600" Scenario.config
                          (Source.Build "b.html" "b.html" "h2")
                          Scenario.about]) |})
  ∧ PutObject.Key
      (uploadRequest no_mime "max-age=3600" Scenario.config
         (Source.Build "b.html" "b.html" "h2") Scenario.about)
    = step_key (UpdateStep (Source.Build "b.html" "b.html" "h2")).
Proof.
  apply (apply_stops_at_first_rejection (client := MemS3.client sample_digest)
           no_mime "max-age=3600" Refusal.site Scenario.config
           Mixed.changes (start (Refusal.remote "b.html"))
           [AddStep (Source.Build "a.html" "a.html" "h1")]
           [RemoveStep (Target.Build "c.html" "h3");
            RemoveStep (Target.Build "d.html" "h4")]
           (UpdateStep (Source.Build "b.html" "b.html" "h2"))
           [uploadRequest no_mime "max-age=3600" Scenario.config
              (Source.Build "a.html" "a.html" "h1") Scenario.home]
           (uploadRequest no_mime "max-age=3600" Scenario.config
              (Source.Build "b.html" "b.html" "h2") Scenario.about)
           (s3 (Mixed.run "b.html").2) (s3 (Mixed.run "b.html").2)
           MemS3.AccessDenied).
  - reflexivity.
  - reflexivity.
  - vm_compute. reflexivity.
  - reflexivity.
  - vm_compute. reflexivity.
Defined.

(** A refused call of the remove loop ends the run as well: the entry that
    follows it gets neither status line nor call. *)
Lemma removal_rejection_stops_run :
  (Mixed.run "c.html").1 = inl (ClientError MemS3.AccessDenied)
  ∧ output (Mixed.run "c.html").2
    = ["Adding a.html as a.html"; "Updating b.html as b.html";
       "Removing c.html"]
  ∧ PutObject.Key <$> omap (λ c, match c with
                                 | PutObjectCall r => Some r
                                 | _ => None
                                 end) (requests (Mixed.run "c.html").2)
    = ["a.html"; "b.html"; "c.html"].
Proof. by vm_compute. Qed.

End Runs.

(** ** The remote manifest *)

Section RemoteManifest.

(** The stage issues one listing call, without a continuation token, and
    maps the objects of that response; [IsTruncated] is not read. *)
Lemma remoteManifest_one_call {St Err : Type} {client : S3Client St Err}
  (config : Config) (w : World St) :
  remoteManifest config w
  = let '(res, st) := listObjectsV2 (listRequest config) (s3 w) in
    let w' := {| s3 := st; output := output w;
                 requests := requests w ++ [ListObjects (listRequest config)] |} in
    match res with
    | inl e => (inl (ClientError e), w')
    | inr out => (inr (targetEntry <$> ListObjectsV2.Contents out), w')
    end.
Proof.
  unfold remoteManifest, bind, await_listObjectsV2.
  by destruct (listObjectsV2 (listRequest config) (s3 w)) as [[e|out] st].
Qed.

Lemma listing_length (objects : gmap string MemS3.stored) :
  List.length (MemS3.listing objects) = size objects.
Proof.
  unfold MemS3.listing.
  by rewrite (Permutation_length (merge_sort_Permutation _ _)), length_map_to_list.
Qed.

(** C3: against the in-memory store, the stage issues exactly one listing
    call; when the bucket holds no more objects than a listing page, the
    manifest has one entry per object of the bucket, with its key and its
    entity tag. *)
Theorem remoteManifest_single_page (md5hex : Buffer → string)
  (config : Config) (w : World MemS3.state)
  (objects : gmap string MemS3.stored) :
  MemS3.buckets (s3 w) !! domain config = Some objects →
  (size objects ≤ MemS3.max_keys (s3 w))%nat →
  ∃ target,
    remoteManifest (client := MemS3.client md5hex) config w
    = (inr target,
       {| s3 := s3 w; output := output w;
          requests := requests w ++ [ListObjects (listRequest config)] |})
    ∧ target ≡ₚ (λ o, {| Target.key := o.1; Target.md5Hash := MemS3.etag o.2 |})
                 <$> map_to_list objects.
Proof.
  intros Hbucket Hsize. rewrite remoteManifest_one_call.
  simpl. unfold MemS3.list_page. simpl. rewrite Hbucket. simpl.
  eexists. split; [reflexivity |].
  rewrite drop_0, take_ge by (rewrite listing_length; lia).
  rewrite <- list_fmap_compose. unfold MemS3.listing.
  by rewrite merge_sort_Permutation.
Qed.

Lemma remoteManifest_single_page_witness :
  ∃ target,
    remoteManifest (client := MemS3.client sample_digest) Scenario.config
      (start (Scenario.remote sample_digest))
    = (inr target,
       {| s3 := Scenario.remote sample_digest; output := [];
          requests := [] ++ [ListObjects (listRequest Scenario.config)] |})
    ∧ target ≡ₚ (λ o, {| Target.key := o.1; Target.md5Hash := MemS3.etag o.2 |})
                 <$> map_to_list
                       (<["index.html" := uploaded sample_digest Scenario.home]>
                          {[ "old.html" := uploaded sample_digest Scenario.old ]}).
Proof.
  apply (remoteManifest_single_page sample_digest Scenario.config
           (start (Scenario.remote sample_digest))).
  - reflexivity.
  - vm_compute. lia.
Defined.

(** C3, as stated, fails: with 1001 objects in the bucket and pages of 1000,
    the one listing call is answered with a truncated page, and the manifest
    has 1000 entries. *)
Lemma remoteManifest_misses_second_page :
  size Crowded.objects = 1001
  ∧ ∃ target page,
      Crowded.listed.1 = inr target
      ∧ List.length target = 1000
      ∧ requests Crowded.listed.2 = [ListObjects (listRequest Scenario.config)]
      ∧ (MemS3.list_page (listRequest Scenario.config) Crowded.remote).1
        = inr page
      ∧ ListObjectsV2.IsTruncated page = true.
Proof.
  split; [by vm_compute |].
  eexists. eexists. split; [vm_compute; reflexivity |].
  split; [by vm_compute |]. split; [by vm_compute |].
  split; [vm_compute; reflexivity | reflexivity].
Qed.

End RemoteManifest.

(** ** The local manifest and the change set *)

Section LocalManifest.

Variable md5hex : Buffer → string.
Context {St Err : Type}.
Variable config : Config.

(** Building [source] reads files and nothing else. *)
Lemma mapT_sourceEntry_world (fs : FileSystem) (ps : list string) (w : World St)
  (res : Thrown Err + list Source.t) (w' : World St) :
  mapT (sourceEntry md5hex fs config) ps w = (res, w') → w' = w.
Proof.
  revert res. induction ps as [|p ps IH]; intros res; simpl.
  - by intros [= _ <-].
  - unfold bind, sourceEntry, read.
    destruct (readFileSync fs (fullPathOf config p)); [| by intros [= _ <-]].
    simpl. destruct (mapT _ ps w) as [[e|l] w1] eqn:Hrest.
    + intros [= _ <-]. by eapply IH.
    + intros [= _ <-]. by eapply IH.
Qed.

Lemma mapT_sourceEntry_total (fs : FileSystem) (ps : list string) (w : World St) :
  (∀ p, p ∈ ps → is_Some (readFileSync fs (fullPathOf config p))) →
  ∃ source, mapT (Err := Err) (sourceEntry md5hex fs config) ps w
            = (inr source, w).
Proof.
  induction ps as [|p ps IH]; intros Hread; [by exists [] |].
  destruct IH as [source Hrest]; [intros q Hq; apply Hread; set_solver |].
  destruct (Hread p) as [content Hc]; [set_solver |].
  eexists. cbn [mapT]. unfold bind. unfold sourceEntry at 1.
  unfold bind, read. rewrite Hc. cbn [ret]. unfold ret at 1. rewrite Hrest.
  reflexivity.
Qed.

End LocalManifest.

(** ** The whole task *)

Section WholeTask.

Variable md5hex : Buffer → string.
Variable mime_getType : string → option string.
Variable cacheControl : string.
Context {St Err : Type} {client : S3Client St Err}.
Variable config : Config.

(** When the listing mirrors the local manifest (entry by entry, or,
    with each local key once, as the same set of keys and hashes), the
    change set is empty, and the run ends after its listing call without any
    other call. *)
Theorem unchanged_site_needs_no_call (fs : FileSystem) (w : World St)
  (source : list Source.t) (page : ListObjectsV2.output) (st' : St) :
  localManifest (Err := Err) md5hex fs config w = (inr source, w) →
  listObjectsV2 (listRequest config) (s3 w) = (inr page, st') →
  targetEntry <$> ListObjectsV2.Contents page = snapshot <$> source
  ∨ (NoDup (Source.key <$> source)
     ∧ ∀ r, r ∈ targetEntry <$> ListObjectsV2.Contents page
            ↔ r ∈ snapshot <$> source) →
  diff source (snapshot <$> source) = no_changes
  ∧ diff source (targetEntry <$> ListObjectsV2.Contents page) = no_changes
  ∧ synchronizeWebsiteTask md5hex mime_getType cacheControl fs config w
    = (inr tt,
       {| s3 := st'; output := output w;
          requests := requests w ++ [ListObjects (listRequest config)] |}).
Proof.
  intros Hsrc Hlist Hmirror.
  assert (Hdiff : diff source (targetEntry <$> ListObjectsV2.Contents page)
                  = no_changes).
  { destruct Hmirror as [-> | [Hnd Hmirror]];
      [apply diff_snapshot | by apply diff_mirror]. }
  split; [apply diff_snapshot |]. split; [done |].
  unfold synchronizeWebsiteTask, bind. unfold localManifest in Hsrc.
  rewrite Hsrc. unfold await_listObjectsV2. rewrite Hlist. simpl.
  by rewrite Hdiff.
Qed.

End WholeTask.

Lemma mirror_site_needs_no_call :
  diff Mirror.source (snapshot <$> Mirror.source) = no_changes
  ∧ diff Mirror.source (targetEntry <$> ListObjectsV2.Contents Mirror.page)
    = no_changes
  ∧ synchronizeWebsiteTask (client := MemS3.client sample_digest)
      sample_digest no_mime "max-age=3600" Scenario.site Scenario.config
      (start Mirror.remote)
    = (inr tt,
       {| s3 := Mirror.remote; output := output (start Mirror.remote);
          requests := requests (start Mirror.remote)
                      ++ [ListObjects (listRequest Scenario.config)] |}).
Proof.
  apply (unchanged_site_needs_no_call (client := MemS3.client sample_digest)
           sample_digest no_mime "max-age=3600" Scenario.config
           Scenario.site (start Mirror.remote) Mirror.source Mirror.page
           Mirror.remote).
  - vm_compute. reflexivity.
  - vm_compute. reflexivity.
  - left. vm_compute. reflexivity.
Defined.

(** ** The local file tree *)

Section FileTree.

Lemma node_forall_ind (P : node → Prop) :
  (∀ content, P (File content)) →
  (∀ entries, Forall (λ e, P e.2) entries → P (Dir entries)) →
  (∀ target, P (Link target)) →
  ∀ n, P n.
Proof.
  intros HF HD HL. fix IH 1. intros [content|entries|target];
    [apply HF | | apply HL].
  apply HD. induction entries as [|[name c] rest IHrest]; constructor.
  - apply IH.
  - apply IHrest.
Qed.

Lemma child_elem_of entries name c :
  child entries name = Some c → (name, c) ∈ entries.
Proof.
  induction entries as [|[n c'] rest IH]; simpl; [done |].
  destruct (String.eqb_spec n name) as [->|Hne].
  - intros [= ->]. set_solver.
  - intros H. apply IH in H. set_solver.
Qed.

Lemma child_NoDup entries name c :
  NoDup entries.*1 → (name, c) ∈ entries → child entries name = Some c.
Proof.
  induction entries as [|[n c'] rest IH]; simpl; [set_solver |].
  intros [Hn Hrest]%NoDup_cons [Heq|Hin]%elem_of_cons.
  - injection Heq as -> ->. by rewrite String.eqb_refl.
  - destruct (String.eqb_spec n name) as [->|Hne]; [| by apply IH].
    destruct Hn. apply list_elem_of_fmap. by exists (name, c).
Qed.

Lemma lookup_path_app n l1 l2 :
  lookup_path n (l1 ++ l2)
  = match lookup_path n l1 with
    | Some d => lookup_path d l2
    | None => None
    end.
Proof.
  revert n. induction l1 as [|s l1 IH]; intros n; [done |].
  simpl. destruct n as [content|entries|target]; try done.
  destruct (child entries s); [apply IH | done].
Qed.

Lemma wf_Dir entries :
  wf_node (Dir entries) = true
  ↔ NoDup entries.*1
    ∧ ∀ name c, (name, c) ∈ entries →
                valid_name name = true ∧ wf_node c = true.
Proof.
  simpl. rewrite andb_true_iff, bool_decide_eq_true, forallb_forall.
  split; intros [Hnd Hall]; (split; [done |]).
  - intros name c Hin. apply list_elem_of_In, Hall in Hin.
    by apply andb_true_iff in Hin.
  - intros [name c] Hin. apply list_elem_of_In, Hall in Hin.
    simpl. by apply andb_true_iff.
Qed.

(** What lies at the end of a path in a well-formed tree is well formed,
    and the path is made of valid names. *)
Lemma wf_lookup_path n segs x :
  wf_node n = true → lookup_path n segs = Some x →
  Forall (λ s, valid_name s = true) segs ∧ wf_node x = true.
Proof.
  revert n. induction segs as [|s segs IH]; intros n Hwf; simpl.
  - intros [= <-]. by split.
  - destruct n as [content|entries|target]; try done.
    destruct (child entries s) as [c|] eqn:Hc; [| done].
    apply child_elem_of in Hc. apply wf_Dir in Hwf as [_ Hall].
    destruct (Hall _ _ Hc) as [Hs Hwfc]. intros Hl.
    destruct (IH _ Hwfc Hl). split; [by constructor | done].
Qed.

(** The visible entries below a directory are the ends of the non-empty
    paths that cross no hidden name. *)
Lemma visible_below_spec n :
  wf_node n = true →
  ∀ segs x,
    (segs, x) ∈ visible_below n
    ↔ segs ≠ [] ∧ forallb (matched false) segs = true
      ∧ lookup_path n segs = Some x.
Proof.
  induction n as [content|entries IH|target] using node_forall_ind;
    intros Hwf segs x.
  - simpl. split; [by intros ?%elem_of_nil |].
    intros (Hne & _ & Hl). by destruct segs.
  - apply wf_Dir in Hwf as [Hnd Hall].
    rewrite list_elem_of_In. simpl. rewrite in_flat_map. split.
    + intros ([name c] & Hin%list_elem_of_In & Hm). simpl in Hm.
      destruct (negb (hidden name)) eqn:Hname; [| done].
      destruct (Hall _ _ Hin) as [_ Hwfc].
      pose proof (child_NoDup _ _ _ Hnd Hin) as Hchild.
      destruct Hm as [[= <- <-]|Hm].
      * simpl. unfold matched. simpl. rewrite Hname, Hchild. done.
      * apply in_map_iff in Hm as ([tl y] & [= <- <-] & Htl). simpl.
        rewrite Forall_forall in IH. apply list_elem_of_In in Htl.
        apply (IH (name, c) Hin Hwfc) in Htl as (Hne & Hall' & Hl).
        unfold matched at 1. simpl. rewrite Hname, Hchild. done.
    + intros (Hne & Hm & Hl). destruct segs as [|name tl]; [done |].
      simpl in Hm, Hl. apply andb_true_iff in Hm as [Hname Htl].
      destruct (child entries name) as [c|] eqn:Hchild; [| done].
      apply child_elem_of in Hchild. exists (name, c).
      split; [by apply list_elem_of_In |]. simpl.
      unfold matched in Hname. simpl in Hname. rewrite Hname.
      destruct tl as [|s tl'].
      * injection Hl as <-. by left.
      * right. apply in_map_iff. exists (s :: tl', x). split; [done |].
        apply list_elem_of_In. destruct (Hall _ _ Hchild) as [_ Hwfc].
        rewrite Forall_forall in IH. by apply (IH (name, c) Hchild Hwfc).
  - simpl. split; [by intros ?%elem_of_nil |].
    intros (Hne & _ & Hl). by destruct segs.
Qed.

Lemma valid_name_moves s : valid_name s = true → moves s = true.
Proof. unfold valid_name. by intros [[? ?]%andb_true_iff ?]%andb_true_iff. Qed.

Lemma valid_name_free s : valid_name s = true → free_of slash s = true.
Proof. unfold valid_name. by intros [_ ?]%andb_true_iff. Qed.

Lemma valid_name_not_parent s :
  valid_name s = true → String.eqb s ".." = false.
Proof.
  unfold valid_name.
  intros [[_ ?%negb_true_iff]%andb_true_iff _]%andb_true_iff. done.
Qed.

(** *** Walks *)

Lemma walk_app root here a b :
  walk root here (a ++ b)
  = match walk root here a with
    | Arrived there => walk root there b
    | Redirected from target rest => Redirected from target (rest ++ b)
    | Lost => Lost
    end.
Proof.
  revert here. induction a as [|s a IH]; intros here; [done |].
  simpl. destruct (lookup_path root here) as [[content|entries|target]|];
    try done.
  destruct (negb (moves s)); [apply IH |].
  destruct (String.eqb s ".."); [apply IH |].
  destruct (child entries s) as [[content|entries'|target]|];
    try done; apply IH.
Qed.

(** Along the names of a path that the directories hold, the walk goes
    down to its end; it stops there when the end is a link. *)
Lemma walk_below root here d segs x :
  Forall (λ s, valid_name s = true) segs →
  lookup_path root here = Some d →
  lookup_path d segs = Some x →
  segs ≠ [] →
  walk root here segs
  = match x with
    | Link target => Redirected (here ++ removelast segs) target []
    | _ => Arrived (here ++ segs)
    end.
Proof.
  intros Hvalid. revert here d.
  induction Hvalid as [|s segs Hs Hsegs IH]; intros here d Hhere Hx Hne;
    [done |].
  simpl in Hx. destruct d as [content|entries|target]; try done.
  destruct (child entries s) as [c|] eqn:Hc; [| done].
  cbn [walk]. rewrite Hhere, (valid_name_moves _ Hs),
    (valid_name_not_parent _ Hs), Hc. cbn [negb].
  destruct segs as [|s' segs'].
  - injection Hx as <-.
    destruct c as [content|entries'|target]; simpl; try done.
    by rewrite app_nil_r.
  - assert (Hstep : lookup_path root (here ++ [s]) = Some c).
    { rewrite lookup_path_app, Hhere. simpl. by rewrite Hc. }
    destruct c as [content|entries'|target]; try done.
    rewrite (IH _ _ Hstep Hx) by done.
    change (removelast (s :: s' :: segs')) with (s :: removelast (s' :: segs')).
    by rewrite <- !app_assoc.
Qed.

(** A walk that arrives has moved as [path.resolve] does. *)
Lemma walk_lexical root here names there :
  walk root here names = Arrived there →
  foldl resolve_step here names = there.
Proof.
  revert here. induction names as [|s names IH]; intros here; simpl.
  - by intros [= ->].
  - destruct (lookup_path root here) as [[content|entries|target]|];
      try done.
    unfold resolve_step at 2.
    destruct (negb (moves s)); [apply IH |].
    destruct (String.eqb s ".."); [apply IH |].
    destruct (child entries s) as [[content|entries'|target]|];
      try done; apply IH.
Qed.

Lemma follow_from fuel root start base here names :
  walk root start base = Arrived here →
  follow fuel root start (base ++ names) = follow fuel root here names.
Proof. intros Hbase. destruct fuel; simpl; by rewrite walk_app, Hbase. Qed.

Lemma stat_wf root names x :
  wf_node root = true → stat root names = Some x → wf_node x = true.
Proof.
  intros Hwf. unfold stat.
  destruct (follow max_links root [] names) as [there|]; [| done].
  simpl. intros Hl. by destruct (wf_lookup_path _ _ _ Hwf Hl).
Qed.

(** What [stat] finds at a path that the directories hold, when no link
    ends it. *)
Lemma stat_physical root names x :
  Forall (λ s, valid_name s = true) names →
  lookup_path root names = Some x →
  (∀ target, x ≠ Link target) →
  stat root names = Some x.
Proof.
  intros Hvalid Hx Hlink. unfold stat, max_links.
  destruct names as [|s names]; [by simpl |].
  cbn [follow].
  rewrite (walk_below root [] root (s :: names) x) by done.
  destruct x as [content|entries|target]; simpl; try done.
  by destruct (Hlink target).
Qed.

Lemma split_fullPath (config : Config) (segs : list string) :
  segs ≠ [] → Forall (λ s, valid_name s = true) segs →
  JS.split slash (fullPathOf config (JS.join slash segs))
  = (JS.split slash (upload_directory config) ++ segs)%list.
Proof.
  intros Hne Hvalid. unfold fullPathOf.
  rewrite split_append, split_join; [done | done |].
  eapply Forall_impl; [exact Hvalid |]. apply valid_name_free.
Qed.

Lemma prefix_empty (s : string) : String.prefix EmptyString s = true.
Proof. by destruct s. Qed.

Lemma prefix_String (a b : ascii) (s t : string) :
  String.prefix (String a s) (String b t)
  = if Ascii.ascii_dec a b then String.prefix s t else false.
Proof. reflexivity. Qed.

(** A full path starts where the upload directory starts, unless the name
    of the upload directory is empty. *)
Lemma origin_fullPath (fs : FileSystem) (config : Config) (p : string) :
  upload_directory config ≠ EmptyString →
  origin fs (fullPathOf config p) = origin fs (upload_directory config).
Proof.
  unfold origin, absolute, fullPathOf.
  destruct (upload_directory config) as [|c rest]; [done |]. intros _.
  change (String c rest +:+ String slash p)
    with (String c (rest +:+ String slash p)).
  by rewrite !prefix_String, !prefix_empty.
Qed.

(** The upload directory, where the system finds it and where [glob]
    looks for it. *)
Lemma upload_directory_found (fs : FileSystem) (config : Config)
  (here : list string) (entries : list (string * node)) :
  wf_node (fs_root fs) = true →
  walk (fs_root fs) (origin fs (upload_directory config))
    (JS.split slash (upload_directory config)) = Arrived here →
  lookup_path (fs_root fs) here = Some (Dir entries) →
  resolve fs (upload_directory config) = here
  ∧ Forall (λ s, valid_name s = true) here
  ∧ walk (fs_root fs) [] here = Arrived here
  ∧ stat (fs_root fs) here = Some (Dir entries).
Proof.
  intros Hwf Hwalk Hd.
  destruct (wf_lookup_path _ _ _ Hwf Hd) as [Hvalid _].
  split; [by apply (walk_lexical (fs_root fs)) |]. split; [done |].
  assert (Hstat : stat (fs_root fs) here = Some (Dir entries))
    by (by apply stat_physical).
  split; [| done].
  destruct here as [|s here']; [done |].
  by rewrite (walk_below (fs_root fs) [] (fs_root fs) (s :: here')
                (Dir entries)).
Qed.

(** A path below the upload directory: [readFileSync] on the full path
    finds what [stat] finds from the place of the directory. *)
Lemma readFileSync_below (fs : FileSystem) (config : Config)
  (here : list string) (entries : list (string * node))
  (segs : list string) :
  wf_node (fs_root fs) = true →
  upload_directory config ≠ EmptyString →
  walk (fs_root fs) (origin fs (upload_directory config))
    (JS.split slash (upload_directory config)) = Arrived here →
  lookup_path (fs_root fs) here = Some (Dir entries) →
  segs ≠ [] → Forall (λ s, valid_name s = true) segs →
  readFileSync fs (fullPathOf config (JS.join slash segs))
  = match stat (fs_root fs) (here ++ segs) with
    | Some (File content) => Some content
    | _ => None
    end.
Proof.
  intros Hwf Hname Hwalk Hd Hne Hvalid.
  destruct (upload_directory_found _ _ _ _ Hwf Hwalk Hd)
    as (_ & _ & Hhere & _).
  unfold readFileSync, stat_path.
  rewrite split_fullPath, origin_fullPath by done.
  unfold stat. by rewrite (follow_from _ _ _ _ _ _ Hwalk),
    (follow_from _ _ _ _ _ _ Hhere).
Qed.

Lemma elem_of_child entries name c :
  (name, c) ∈ entries → is_Some (child entries name).
Proof.
  induction entries as [|[n c'] rest IH]; [by intros ?%elem_of_nil |].
  simpl. intros [[= -> ->]|Hin]%elem_of_cons.
  - by rewrite String.eqb_refl.
  - destruct (String.eqb n name); [done | by apply IH].
Qed.

Lemma matched_visible name : matched false name = true ↔ hidden name = false.
Proof. unfold matched. simpl. apply negb_true_iff. Qed.

(** *** The matches of [glob] *)

Lemma visible_below_cons e rest :
  visible_below (Dir (e :: rest))
  = (if matched false e.1
     then (([e.1], e.2)
           :: ((λ m, (e.1 :: m.1, m.2)) <$> visible_below e.2))
     else [])
    ++ visible_below (Dir rest).
Proof. reflexivity. Qed.

Lemma links_lead_to_files_cons root base e rest :
  links_lead_to_files root base (Dir (e :: rest)) = true →
  links_lead_to_files root base (Dir rest) = true
  ∧ (matched false e.1 = true →
     match e.2 with
     | Link _ => is_file (stat root (base ++ [e.1])) = true
     | _ => links_lead_to_files root (base ++ [e.1]) e.2 = true
     end).
Proof.
  unfold links_lead_to_files. rewrite visible_below_cons, forallb_app.
  intros [He Hrest]%andb_true_iff. split; [done |]. intros Hm.
  rewrite Hm in He. simpl in He. apply andb_true_iff in He as [Hhead Hsub].
  destruct e as [name [content|entries|target]]; simpl in *; try done.
  rewrite forallb_forall in Hsub. apply forallb_forall. intros m Hin.
  assert (Hin' : In (name :: m.1, m.2)
                   ((λ m, (name :: m.1, m.2)) <$> visible_below (Dir entries))).
  { apply in_map_iff. by exists m. }
  apply Hsub in Hin'. simpl in Hin'. by rewrite <- app_assoc.
Qed.

(** When the links among the visible entries lead to files, [**/*] matches
    the visible entries and nothing else. *)
Lemma globstar_visible root n :
  ∀ base,
    links_lead_to_files root base n = true →
    globstar false root base n = (visible_below n).*1.
Proof.
  induction n as [content|entries IH|target] using node_forall_ind;
    intros base Hlinks; try done.
  induction entries as [|[name c] rest IHrest]; [done |].
  apply Forall_cons in IH as [IHc IHall].
  apply links_lead_to_files_cons in Hlinks as [Hrest Hhead].
  rewrite visible_below_cons, fmap_app, <- (IHrest IHall Hrest).
  change (globstar false root base (Dir ((name, c) :: rest)))
    with ((if matched false name
           then [name]
                :: match c with
                   | Link _ =>
                       match stat root (base ++ [name]) with
                       | Some (Dir below) =>
                           List.map (λ c, [name; c.1])
                             (List.filter (λ c, matched false c.1) below)
                       | _ => []
                       end
                   | _ => List.map (cons name)
                            (globstar false root (base ++ [name]) c)
                   end
           else [])
          ++ globstar false root base (Dir rest))%list.
  f_equal. cbn [fst snd] in *. destruct (matched false name) eqn:Hm; [| done].
  specialize (Hhead eq_refl).
  rewrite fmap_cons. cbn [fst]. f_equal.
  rewrite <- list_fmap_compose.
  destruct c as [content|entries|target].
  - done.
  - rewrite (IHc _ Hhead).
    change (List.map (cons name)) with (fmap (M := list) (cons name)).
    by rewrite <- list_fmap_compose.
  - destruct (stat root (base ++ [name])) as [[?|?|?]|]; done.
Qed.

(** What [**/*] matches, in any well-formed tree. *)
Lemma globstar_spec root n :
  wf_node n = true → (∀ target, n ≠ Link target) →
  ∀ base segs, segs ∈ globstar false root base n ↔ globbed root base n segs.
Proof.
  induction n as [content|entries IH|target] using node_forall_ind;
    intros Hwf Hnl base segs.
  - simpl. split; [by intros ?%elem_of_nil |].
    intros [_ [[Hne Hl] | (pre & last & t & below & -> & Hl & _)]].
    + destruct segs; [done |]. simpl in Hl. by destruct Hl.
    + by destruct pre.
  - apply wf_Dir in Hwf as [Hnd Hall]. rewrite Forall_forall in IH.
    rewrite list_elem_of_In. cbn [globstar]. rewrite in_flat_map. split.
    + intros ([name c] & Hin%list_elem_of_In & Hm). cbn [fst snd] in Hm.
      destruct (matched false name) eqn:Hname; [| done].
      apply matched_visible in Hname.
      destruct (Hall _ _ Hin) as [_ Hwfc].
      pose proof (child_NoDup _ _ _ Hnd Hin) as Hchild.
      destruct Hm as [<-|Hm].
      { split; [by repeat constructor |]. left. split; [done |].
        simpl. by rewrite Hchild. }
      destruct c as [content|entries'|target].
      * done.
      * apply in_map_iff in Hm as (m & <- & Hm%list_elem_of_In).
        apply (IH (name, Dir entries') Hin Hwfc) in Hm as [Hv Hm]; [| done].
        split; [by constructor |].
        destruct Hm as [[Hne Hl] | (pre & last & t & below & -> & Hl & Hst & Hc)].
        -- left. split; [done |]. simpl. by rewrite Hchild.
        -- right. exists (name :: pre), last, t, below.
           split; [done |]. split; [simpl; by rewrite Hchild |].
           split; [| done]. by rewrite <- app_assoc in Hst.
      * destruct (stat root (base ++ [name])) as [[?|below|?]|] eqn:Hst;
          try done.
        apply in_map_iff in Hm as ([x cx] & <- & [Hx Hmx]%filter_In).
        cbn [fst snd] in *. apply matched_visible in Hmx.
        split; [by repeat constructor |].
        right. exists [name], x, target, below.
        split; [done |]. split; [simpl; by rewrite Hchild |].
        split; [done |]. eapply elem_of_child. by apply list_elem_of_In.
    + intros [Hv [[Hne Hl] | (pre & last & t & below & -> & Hl & Hst & Hc)]].
      * destruct segs as [|name tl]; [done |]. simpl in Hl.
        destruct (child entries name) as [c|] eqn:Hchild; [| by destruct Hl].
        apply Forall_cons in Hv as [Hname Htl].
        pose proof (child_elem_of _ _ _ Hchild) as Hin.
        exists (name, c). split; [by apply list_elem_of_In |].
        cbn [fst snd]. apply matched_visible in Hname. rewrite Hname.
        destruct tl as [|s tl']; [by left |]. right.
        destruct c as [content|entries'|target]; simpl in Hl;
          try by destruct Hl.
        apply in_map_iff. exists (s :: tl'). split; [done |].
        apply list_elem_of_In. destruct (Hall _ _ Hin) as [_ Hwfc].
        apply (IH (name, Dir entries') Hin Hwfc); [done |].
        split; [done |]. by left.
      * destruct pre as [|name pre']; [done |]. simpl in Hl.
        destruct (child entries name) as [c|] eqn:Hchild; [| done].
        change ((name :: pre') ++ [last]) with (name :: (pre' ++ [last])) in *.
        apply Forall_cons in Hv as [Hname Htl].
        pose proof (child_elem_of _ _ _ Hchild) as Hin.
        exists (name, c). split; [by apply list_elem_of_In |].
        cbn [fst snd]. apply matched_visible in Hname. rewrite Hname. right.
        destruct pre' as [|s pre''].
        -- injection Hl as ->. simpl in Hst. rewrite Hst.
           destruct Hc as [cx Hcx]. apply in_map_iff. exists (last, cx).
           split; [done |]. apply filter_In.
           split; [by apply list_elem_of_In, child_elem_of |].
           apply Forall_cons in Htl as [Hlast _]. by apply matched_visible.
        -- destruct c as [content|entries'|target]; simpl in Hl; try done.
           apply in_map_iff. exists ((s :: pre'') ++ [last]). split; [done |].
           apply list_elem_of_In. destruct (Hall _ _ Hin) as [_ Hwfc].
           apply (IH (name, Dir entries') Hin Hwfc); [done |].
           split; [done |]. right. exists (s :: pre''), last, t, below.
           split; [done |]. split; [done |]. split; [| done].
           by rewrite <- app_assoc.
  - by destruct (Hnl target).
Qed.

(** The names of a matched path are names of the tree. *)
Lemma globbed_valid root base d segs :
  wf_node root = true → wf_node d = true →
  globbed root base d segs →
  segs ≠ [] ∧ Forall (λ s, valid_name s = true) segs.
Proof.
  intros Hroot Hd [_ [[Hne [x Hl]] | (pre & last & t & below & -> & Hl & Hst & Hc)]].
  - split; [done |]. by destruct (wf_lookup_path _ _ _ Hd Hl).
  - split; [by destruct pre |]. apply Forall_app. split.
    + by destruct (wf_lookup_path _ _ _ Hd Hl).
    + constructor; [| constructor]. destruct Hc as [c Hc%child_elem_of].
      apply (stat_wf _ _ _ Hroot), wf_Dir in Hst as [_ Hall].
      by destruct (Hall _ _ Hc).
Qed.

Lemma globstar_cons root base e rest :
  globstar false root base (Dir (e :: rest))
  = ((if matched false e.1
      then [e.1]
           :: match e.2 with
              | Link _ =>
                  match stat root (base ++ [e.1]) with
                  | Some (Dir below) =>
                      List.map (λ c, [e.1; c.1])
                        (List.filter (λ c, matched false c.1) below)
                  | _ => []
                  end
              | _ => List.map (cons e.1)
                       (globstar false root (base ++ [e.1]) e.2)
              end
      else [])
     ++ globstar false root base (Dir rest))%list.
Proof. reflexivity. Qed.

Lemma globstar_head root base entries segs :
  segs ∈ globstar false root base (Dir entries) →
  ∃ name tl, segs = name :: tl ∧ name ∈ entries.*1.
Proof.
  rewrite list_elem_of_In. cbn [globstar]. rewrite in_flat_map.
  intros ([name c] & Hin%list_elem_of_In & Hm). cbn [fst snd] in Hm.
  assert (name ∈ entries.*1) by (apply list_elem_of_fmap; by exists (name, c)).
  destruct (matched false name); [| done].
  destruct Hm as [<-|Hm]; [by eauto |].
  destruct c as [content|entries'|target].
  - done.
  - apply in_map_iff in Hm as (m & <- & _). eauto.
  - destruct (stat root (base ++ [name])) as [[?|below|?]|]; try done.
    apply in_map_iff in Hm as (m & <- & _). eauto.
Qed.

Lemma globstar_nonempty root base n : [] ∉ globstar false root base n.
Proof.
  destruct n as [content|entries|target]; try by intros ?%elem_of_nil.
  by intros (name & tl & ? & _)%globstar_head.
Qed.

Lemma NoDup_fmap_filter {A B} (g : A → B) (f : A → bool) (l : list A) :
  NoDup (g <$> l) → NoDup (g <$> List.filter f l).
Proof.
  induction l as [|x l IH]; [done |]. simpl.
  intros [Hx Hl]%NoDup_cons. destruct (f x); [| by apply IH].
  simpl. apply NoDup_cons. split; [| by apply IH].
  intros (y & Hg & Hy%list_elem_of_In%filter_In)%list_elem_of_fmap.
  destruct Hy as [Hy%list_elem_of_In _]. apply Hx.
  apply list_elem_of_fmap. eauto.
Qed.

(** No path is matched twice. *)
Lemma globstar_NoDup root n :
  wf_node root = true → wf_node n = true →
  ∀ base, NoDup (globstar false root base n).
Proof.
  intros Hroot.
  induction n as [content|entries IH|target] using node_forall_ind;
    try (intros; constructor).
  induction entries as [|[name c] rest IHrest]; intros Hwf base;
    [constructor |].
  apply wf_Dir in Hwf as [Hnd Hall]. simpl in Hnd.
  apply NoDup_cons in Hnd as [Hname Hrest].
  apply Forall_cons in IH as [IHc IHall]. simpl in IHc.
  assert (Hwfrest : wf_node (Dir rest) = true).
  { apply wf_Dir. split; [done |]. intros ???. apply Hall. set_solver. }
  rewrite globstar_cons. cbn [fst snd]. apply NoDup_app. repeat split.
  - destruct (matched false name); [| constructor].
    apply NoDup_cons. split.
    + destruct c as [content|entries'|target].
      * by intros ?%elem_of_nil.
      * intros (m & [= ->] & Hm%list_elem_of_In)%list_elem_of_In%in_map_iff.
        by apply globstar_nonempty in Hm.
      * destruct (stat root (base ++ [name])) as [[?|below|?]|];
          try by intros ?%elem_of_nil.
        by intros (m & [=] & _)%list_elem_of_In%in_map_iff.
    + destruct c as [content|entries'|target].
      * constructor.
      * assert (Hc : NoDup (globstar false root (base ++ [name])
                              (Dir entries')))
          by (apply IHc, (Hall name (Dir entries')); set_solver).
        by apply (NoDup_fmap_2 (name ::.)) in Hc.
      * destruct (stat root (base ++ [name])) as [[?|below|?]|] eqn:Hst;
          try constructor.
        apply (stat_wf _ _ _ Hroot), wf_Dir in Hst as [Hbelow _].
        apply (NoDup_fmap_filter fst (λ c, matched false c.1)) in Hbelow.
        assert (Inj (=) (=) (λ x : string, [name; x]))
          by (by intros ?? [= ->]).
        apply (NoDup_fmap_2 (λ x, [name; x])) in Hbelow.
        by rewrite <- list_fmap_compose in Hbelow.
  - intros segs Hin Hin'.
    apply globstar_head in Hin' as (name' & tl & -> & Hname').
    assert (Hhead : name' = name); [| by subst].
    destruct (matched false name); [| by apply elem_of_nil in Hin].
    apply elem_of_cons in Hin as [[= <-]|Hin]; [done |].
    destruct c as [content|entries'|target].
    + by apply elem_of_nil in Hin.
    + by apply list_elem_of_In, in_map_iff in Hin as (m & [= <- _] & _).
    + destruct (stat root (base ++ [name])) as [[?|below|?]|];
        try by apply elem_of_nil in Hin.
      by apply list_elem_of_In, in_map_iff in Hin as (m & [= <- _] & _).
  - by apply IHrest.
Qed.

Lemma visible_below_head entries segs x :
  (segs, x) ∈ visible_below (Dir entries) →
  ∃ name tl, segs = name :: tl ∧ name ∈ entries.*1.
Proof.
  rewrite list_elem_of_In. simpl. rewrite in_flat_map.
  intros ([name c] & Hin%list_elem_of_In & Hm). simpl in Hm.
  assert (name ∈ entries.*1) by (apply list_elem_of_fmap; by exists (name, c)).
  destruct (negb (hidden name)); [| done].
  destruct Hm as [[= <- <-]|Hm]; [by eauto |].
  apply in_map_iff in Hm as (m & [= <- <-] & _). eauto.
Qed.

Lemma visible_below_nonempty n x : ([], x) ∉ visible_below n.
Proof.
  destruct n as [content|entries|target]; try by intros ?%elem_of_nil.
  by intros (name & tl & ? & _)%visible_below_head.
Qed.

(** No path is matched twice. *)
Lemma visible_below_NoDup n : wf_node n = true → NoDup (visible_below n).*1.
Proof.
  induction n as [content|entries IH|target] using node_forall_ind;
    try constructor.
  induction entries as [|[name c] rest IHrest]; intros Hwf; [constructor |].
  apply wf_Dir in Hwf as [Hnd Hall]. simpl in Hnd.
  apply NoDup_cons in Hnd as [Hname Hrest].
  apply Forall_cons in IH as [IHc IHall]. simpl in IHc.
  assert (Hwfrest : wf_node (Dir rest) = true).
  { apply wf_Dir. split; [done |]. intros ???. apply Hall. set_solver. }
  rewrite visible_below_cons, fmap_app. simpl. apply NoDup_app. repeat split.
  - destruct (negb (hidden name)); [| constructor].
    rewrite fmap_cons, <- list_fmap_compose. apply NoDup_cons. split.
    + intros ([tl y] & Heq & Hin)%list_elem_of_fmap.
      simpl in Heq. injection Heq as <-. by apply visible_below_nonempty in Hin.
    + assert (Hc : NoDup (visible_below c).*1)
        by (apply IHc, (Hall name c); set_solver).
      apply (NoDup_fmap_2 (name ::.)) in Hc.
      by rewrite <- list_fmap_compose in Hc.
  - intros segs Hin Hin'.
    apply list_elem_of_fmap in Hin' as ([segs' y] & -> & Hin').
    apply visible_below_head in Hin' as (name' & tl & -> & Hname'). simpl in Hin.
    destruct (negb (hidden name)); [| by apply elem_of_nil in Hin].
    rewrite fmap_cons, <- list_fmap_compose in Hin.
    apply elem_of_cons in Hin as [[= <- _]|Hin]; [done |].
    by apply list_elem_of_fmap in Hin as (m & [= <- _] & _).
  - by apply IHrest.
Qed.

Lemma forallb_matched_visible (segs : list string) :
  forallb (matched false) segs = true ↔ Forall (λ s, hidden s = false) segs.
Proof.
  rewrite forallb_forall, Forall_forall. unfold matched. simpl.
  split; intros H s Hs.
  - apply list_elem_of_In, H in Hs. by apply negb_true_iff.
  - apply list_elem_of_In, H in Hs. by apply negb_true_iff.
Qed.

(** Joining valid names with slashes is injective. *)
Lemma join_valid_inj (a b : list string) :
  Forall (λ s, valid_name s = true) a → Forall (λ s, valid_name s = true) b →
  a ≠ [] → b ≠ [] → JS.join slash a = JS.join slash b → a = b.
Proof.
  intros Ha Hb Hnea Hneb Heq.
  rewrite <- (split_join slash a), <- (split_join slash b), Heq; try done.
  - eapply Forall_impl; [exact Hb |]. apply valid_name_free.
  - eapply Forall_impl; [exact Ha |]. apply valid_name_free.
Qed.

End FileTree.

(** ** The local manifest of a file tree *)

Section Enumeration.

Variable md5hex : Buffer → string.
Context {St Err : Type}.
Variable config : Config.

Lemma mapT_sourceEntry_mapM (fs : FileSystem) (ps : list string)
  (w w' : World St) (source : list Source.t) :
  mapT (Err := Err) (sourceEntry md5hex fs config) ps w = (inr source, w') →
  mapM (λ p, entryOf md5hex config p
               <$> readFileSync fs (fullPathOf config p)) ps
  = Some source.
Proof.
  revert source w'. induction ps as [|p ps IH]; intros source w'.
  - by intros [= <- _].
  - cbn [mapT mapM]. unfold bind at 1. unfold sourceEntry at 1.
    unfold bind, read.
    destruct (readFileSync fs (fullPathOf config p)) as [content|]; [| done].
    cbn [ret]. unfold ret at 1.
    destruct (mapT _ ps w) as [[e|l] w1] eqn:Hrest; [done |].
    intros [= <- _]. by rewrite (IH l w1 eq_refl).
Qed.

(** How the construction of [source] ends: with one entry per path, built
    from the bytes read at the path, or with the exception of a path that
    cannot be read. *)
Lemma mapT_sourceEntry_outcome (fs : FileSystem) (ps : list string)
  (w : World St) :
  match mapT (Err := Err) (sourceEntry md5hex fs config) ps w with
  | (inr source, w') =>
      w' = w
      ∧ Forall2 (λ p e, ∃ content,
                    readFileSync fs (fullPathOf config p) = Some content
                    ∧ e = entryOf md5hex config p content) ps source
  | (inl t, w') =>
      w' = w
      ∧ ∃ p, p ∈ ps ∧ readFileSync fs (fullPathOf config p) = None
             ∧ t = FsError (fullPathOf config p)
  end.
Proof.
  induction ps as [|p ps IH]; [by split; [| constructor] |].
  cbn [mapT]. unfold bind at 1. unfold sourceEntry at 1. unfold bind, read.
  destruct (readFileSync fs (fullPathOf config p)) as [content|] eqn:Hread.
  - cbn [ret]. unfold ret at 1.
    destruct (mapT _ ps w) as [[t|source] w'].
    + destruct IH as (-> & q & Hq & Hnone & ->). split; [done |].
      exists q. split; [by right | done].
    + destruct IH as [-> IH]. split; [done |]. constructor; [| done].
      by exists content.
  - split; [done |]. exists p. split; [by left | done].
Qed.

Section Globbing.

Variable fs : FileSystem.
Hypothesis Hwf : wf_fs fs = true.

Local Abbreviation the_base := (resolve fs (upload_directory config)).

Lemma fs_root_wf : wf_node (fs_root fs) = true.
Proof. unfold wf_fs in Hwf. by apply andb_true_iff in Hwf as [? _]. Qed.

(** A link is not matched below: what [glob] starts from is what [stat]
    finds. *)
Lemma globbed_below_link (target : string) (segs : list string) :
  stat (fs_root fs) the_base = Some (Link target) →
  ¬ globbed (fs_root fs) the_base (Link target) segs.
Proof.
  intros Hst [_ [[Hne [x Hl]] | (pre & last & t & below & -> & Hl & Hb & _)]].
  - by destruct segs.
  - destruct pre as [|s pre]; [| done].
    rewrite app_nil_r in Hb. congruence.
Qed.

(** The globbed paths of the task. *)
Lemma paths_globbed (p : string) :
  p ∈ paths fs config
  ↔ ∃ d segs,
      stat (fs_root fs) the_base = Some d
      ∧ globbed (fs_root fs) the_base d segs
      ∧ is_dir (stat (fs_root fs) (the_base ++ segs)) = false
      ∧ p = JS.join slash segs.
Proof.
  unfold paths, glob_sync. cbn [cwd nodir dot andb].
  destruct (stat (fs_root fs) the_base) as [d|] eqn:Hd.
  - assert (Hwfd : wf_node d = true) by apply (stat_wf _ _ _ fs_root_wf Hd).
    rewrite list_elem_of_In, in_map_iff. split.
    + intros (segs & <- & [Hin%list_elem_of_In Hfile%negb_true_iff]%filter_In).
      exists d, segs. split; [done |]. split; [| done].
      destruct d as [content|entries|target]; try by apply elem_of_nil in Hin.
      by apply globstar_spec in Hin.
    + intros (d' & segs & [= <-] & Hg & Hfile & ->).
      exists segs. split; [done |]. apply filter_In.
      split; [| by rewrite Hfile]. apply list_elem_of_In.
      destruct d as [content|entries|target].
      * by apply globstar_spec.
      * by apply globstar_spec.
      * by destruct (globbed_below_link _ _ Hd Hg).
  - split; [by intros ?%elem_of_nil |]. by intros (d & segs & [=] & _).
Qed.

Lemma paths_NoDup : NoDup (paths fs config).
Proof.
  unfold paths, glob_sync. cbn [cwd nodir dot andb].
  destruct (stat (fs_root fs) the_base) as [d|] eqn:Hd; [| constructor].
  assert (Hwfd : wf_node d = true) by apply (stat_wf _ _ _ fs_root_wf Hd).
  change (List.map (JS.join slash)) with (fmap (M := list) (JS.join slash)).
  apply NoDup_fmap_2_strong.
  - assert (Hvalid : ∀ segs,
              segs ∈ List.filter
                       (λ m, negb (is_dir (stat (fs_root fs) (the_base ++ m))))
                       (globstar false (fs_root fs) the_base d) →
              segs ≠ [] ∧ Forall (λ s, valid_name s = true) segs).
    { intros segs [Hin%list_elem_of_In _]%list_elem_of_In%filter_In.
      destruct d as [content|entries|target];
        try by apply elem_of_nil in Hin.
      apply globstar_spec in Hin; [| done | done].
      by eapply globbed_valid; [apply fs_root_wf | |]. }
    intros a b Ha Hb. destruct (Hvalid a Ha), (Hvalid b Hb).
    by apply join_valid_inj.
  - pose proof (NoDup_fmap_filter id
                  (λ m, negb (is_dir (stat (fs_root fs) (the_base ++ m))))
                  (globstar false (fs_root fs) the_base d)) as Hnd.
    rewrite !list_fmap_id in Hnd. apply Hnd.
    by apply globstar_NoDup; [apply fs_root_wf |].
Qed.

End Globbing.

Section UploadDirectory.

Variable fs : FileSystem.
Variable here : list string.
Variable entries : list (string * node).
Hypothesis Hwf : wf_fs fs = true.
Hypothesis Hname : upload_directory config ≠ EmptyString.
Hypothesis Hwalk :
  walk (fs_root fs) (origin fs (upload_directory config))
    (JS.split slash (upload_directory config)) = Arrived here.
Hypothesis Hdir : lookup_path (fs_root fs) here = Some (Dir entries).

Lemma upload_directory_wf : wf_node (Dir entries) = true.
Proof. by destruct (wf_lookup_path _ _ _ (fs_root_wf fs Hwf) Hdir). Qed.

(** Reading a path that leads to a file gives the bytes it leads to. *)
Lemma readFileSync_file_at (segs : list string) (content : Buffer) :
  segs ≠ [] → file_at (fs_root fs) here (Dir entries) segs content →
  readFileSync fs (fullPathOf config (JS.join slash segs)) = Some content.
Proof.
  intros Hne Hat. pose proof (fs_root_wf fs Hwf) as Hroot.
  destruct (upload_directory_found _ _ _ _ Hroot Hwalk Hdir)
    as (_ & Hvalid & _ & _).
  assert (Hsegs : Forall (λ s, valid_name s = true) segs).
  { destruct Hat as [Hl | (target & Hl & _)];
      by destruct (wf_lookup_path _ _ _ upload_directory_wf Hl). }
  rewrite (readFileSync_below _ _ _ _ _ Hroot Hname Hwalk Hdir Hne Hsegs).
  destruct Hat as [Hl | (target & Hl & ->)]; [| done].
  rewrite (stat_physical (fs_root fs) (here ++ segs) (File content));
    try done.
  - by apply Forall_app.
  - by rewrite lookup_path_app, Hdir.
Qed.

(** A visible path that leads to a file is globbed. *)
Lemma file_at_globbed (segs : list string) (content : Buffer) :
  segs ≠ [] → Forall (λ s, hidden s = false) segs →
  file_at (fs_root fs) here (Dir entries) segs content →
  JS.join slash segs ∈ paths fs config.
Proof.
  intros Hne Hvis Hat. pose proof (fs_root_wf fs Hwf) as Hroot.
  destruct (upload_directory_found _ _ _ _ Hroot Hwalk Hdir)
    as (Hbase & Hvalid & _ & Hstat).
  apply (paths_globbed fs Hwf). exists (Dir entries), segs.
  rewrite Hbase. split; [done |]. split; [| split; [| done]].
  - split; [done |]. left. split; [done |].
    destruct Hat as [-> | (target & -> & _)]; done.
  - destruct Hat as [Hl | (target & Hl & ->)]; [| done].
    rewrite (stat_physical (fs_root fs) (here ++ segs) (File content));
      try done.
    + apply Forall_app. split; [done |].
      by destruct (wf_lookup_path _ _ _ upload_directory_wf Hl).
    + by rewrite lookup_path_app, Hdir.
Qed.

Hypothesis Hlinks :
  links_lead_to_files (fs_root fs) here (Dir entries) = true.

(** When every visible link leads to a file, the globbed paths are the
    visible paths that lead to a file. *)
Lemma paths_spec (p : string) :
  p ∈ paths fs config
  ↔ ∃ segs content,
      p = JS.join slash segs ∧ segs ≠ []
      ∧ Forall (λ s, hidden s = false) segs
      ∧ file_at (fs_root fs) here (Dir entries) segs content.
Proof.
  pose proof (fs_root_wf fs Hwf) as Hroot.
  destruct (upload_directory_found _ _ _ _ Hroot Hwalk Hdir)
    as (Hbase & Hvalid & _ & Hstat).
  split.
  - intros (d & segs & Hd & [Hvis Hg] & Hfile & ->)%(paths_globbed fs Hwf).
    rewrite Hbase in Hd, Hg, Hfile. rewrite Hstat in Hd. injection Hd as <-.
    assert (Hlink : ∀ pre x,
               pre ≠ [] → Forall (λ s, hidden s = false) pre →
               lookup_path (Dir entries) pre = Some x →
               match x with
               | Link _ => is_file (stat (fs_root fs) (here ++ pre)) = true
               | _ => stat (fs_root fs) (here ++ pre) = Some x
               end).
    { intros pre x Hne Hpre Hl.
      destruct (wf_lookup_path _ _ _ upload_directory_wf Hl) as [Hv _].
      assert (Hfull : lookup_path (fs_root fs) (here ++ pre) = Some x)
        by (by rewrite lookup_path_app, Hdir).
      destruct x as [content|entries'|target].
      - apply stat_physical; [by apply Forall_app | done | done].
      - apply stat_physical; [by apply Forall_app | done | done].
      - unfold links_lead_to_files in Hlinks.
        rewrite forallb_forall in Hlinks.
        apply (Hlinks (pre, Link target)), list_elem_of_In,
          (visible_below_spec _ upload_directory_wf).
        by rewrite forallb_matched_visible. }
    destruct Hg as [[Hne [x Hl]] | (pre & last & t & below & -> & Hl & Hb & _)].
    + exists segs. pose proof (Hlink segs x Hne Hvis Hl) as Hx.
      destruct x as [content|entries'|target].
      * exists content. repeat split; try done. by left.
      * by rewrite Hx in Hfile.
      * destruct (stat (fs_root fs) (here ++ segs)) as [[content|?|?]|] eqn:Hs;
          try done.
        exists content. repeat split; try done. right. eauto.
    + apply Forall_app in Hvis as [Hpre _].
      assert (Hne : pre ≠ []) by (by destruct pre).
      pose proof (Hlink pre (Link t) Hne Hpre Hl) as Hx. simpl in Hx.
      by rewrite Hb in Hx.
  - intros (segs & content & -> & Hne & Hvis & Hat).
    by eapply file_at_globbed.
Qed.

Lemma localManifest_files (w : World St) :
  ∃ source,
    localManifest (Err := Err) md5hex fs config w = (inr source, w)
    ∧ Source.path <$> source = paths fs config
    ∧ ∀ e, e ∈ source
           ↔ ∃ segs content,
               segs ≠ [] ∧ Forall (λ s, hidden s = false) segs
               ∧ file_at (fs_root fs) here (Dir entries) segs content
               ∧ e = entryOf md5hex config (JS.join slash segs) content.
Proof.
  assert (Hread : ∀ p, p ∈ paths fs config →
            ∃ segs content,
              p = JS.join slash segs ∧ segs ≠ []
              ∧ Forall (λ s, hidden s = false) segs
              ∧ file_at (fs_root fs) here (Dir entries) segs content
              ∧ readFileSync fs (fullPathOf config p) = Some content).
  { intros p (segs & content & -> & Hne & Hvis & Hat)%paths_spec.
    exists segs, content. repeat split; try done.
    by apply readFileSync_file_at. }
  destruct (mapT_sourceEntry_total (Err := Err) md5hex config fs
              (paths fs config) w) as [source Hsrc].
  { intros p (segs & content & _ & _ & _ & _ & ->)%Hread. eauto. }
  exists source. split; [done |].
  pose proof (mapT_sourceEntry_mapM _ _ _ _ _ Hsrc) as HF.
  apply mapM_Some in HF. split.
  - clear -HF. induction HF as [|p e ps src Hpe _ IH]; [done |].
    destruct (readFileSync fs (fullPathOf config p)); [| done].
    injection Hpe as <-. by rewrite fmap_cons, IH.
  - intros e. split.
    + intros (p & Hp & Hpe)%(Forall2_elem_of_r _ _ _ _ HF).
      destruct (Hread p Hp) as (segs & content & -> & Hne & Hvis & Hl & Hr).
      rewrite Hr in Hpe. injection Hpe as <-. by exists segs, content.
    + intros (segs & content & Hne & Hvis & Hat & ->).
      assert (Hp : JS.join slash segs ∈ paths fs config).
      { apply paths_spec. by exists segs, content. }
      destruct (Forall2_elem_of_l _ _ _ _ HF Hp) as (e & He & Hpe).
      rewrite (readFileSync_file_at segs content Hne Hat) in Hpe.
      by injection Hpe as <-.
Qed.

End UploadDirectory.

(** C7: in any well-formed file system, no path is globbed twice; the
    globbed paths are those that [**/*] matches below what [stat] finds at
    the upload directory, hidden names left out and links not crawled, and
    that [stat] does not find to be a directory; the manifest has one entry
    per globbed path, in order, built from the bytes read at the path, or
    its construction ends on the exception of a globbed path that cannot be
    read.  When the upload directory is a directory that the system reaches
    without crossing a link, every visible path below it that ends in a
    regular file, or in a link that leads to one, is globbed and read with
    the bytes it leads to; and when every visible link below it leads to a
    regular file, the manifest is built without error and its entries are
    exactly those of these paths, each with its path, its mapped key and the
    quoted digest of the bytes it leads to. *)
Theorem localManifest_enumerates (fs : FileSystem) (w : World St) :
  wf_fs fs = true →
  NoDup (paths fs config)
  ∧ (∀ p, p ∈ paths fs config
          ↔ ∃ d segs,
              stat (fs_root fs) (resolve fs (upload_directory config))
              = Some d
              ∧ globbed (fs_root fs) (resolve fs (upload_directory config))
                  d segs
              ∧ is_dir (stat (fs_root fs)
                          (resolve fs (upload_directory config) ++ segs))
                = false
              ∧ p = JS.join slash segs)
  ∧ match localManifest (Err := Err) md5hex fs config w with
    | (inr source, w') =>
        w' = w
        ∧ Forall2 (λ p e, ∃ content,
                      readFileSync fs (fullPathOf config p) = Some content
                      ∧ e = entryOf md5hex config p content)
            (paths fs config) source
    | (inl t, w') =>
        w' = w
        ∧ ∃ p, p ∈ paths fs config
               ∧ readFileSync fs (fullPathOf config p) = None
               ∧ t = FsError (fullPathOf config p)
    end
  ∧ ∀ here entries,
      upload_directory config ≠ EmptyString →
      walk (fs_root fs) (origin fs (upload_directory config))
        (JS.split slash (upload_directory config)) = Arrived here →
      lookup_path (fs_root fs) here = Some (Dir entries) →
      (∀ segs content,
          segs ≠ [] → Forall (λ s, hidden s = false) segs →
          file_at (fs_root fs) here (Dir entries) segs content →
          JS.join slash segs ∈ paths fs config
          ∧ readFileSync fs (fullPathOf config (JS.join slash segs))
            = Some content)
      ∧ (links_lead_to_files (fs_root fs) here (Dir entries) = true →
         ∃ source,
           localManifest (Err := Err) md5hex fs config w = (inr source, w)
           ∧ Source.path <$> source = paths fs config
           ∧ ∀ e, e ∈ source
                  ↔ ∃ segs content,
                      segs ≠ [] ∧ Forall (λ s, hidden s = false) segs
                      ∧ file_at (fs_root fs) here (Dir entries) segs content
                      ∧ e = entryOf md5hex config (JS.join slash segs)
                              content).
Proof.
  intros Hwf. split; [by apply paths_NoDup |].
  split; [intros p; by apply paths_globbed |].
  split; [apply mapT_sourceEntry_outcome |].
  intros here entries Hname Hwalk Hdir. split.
  - intros segs content Hne Hvis Hat. split.
    + by eapply file_at_globbed.
    + by eapply readFileSync_file_at.
  - intros Hlinks. by eapply localManifest_files.
Qed.

End Enumeration.

Lemma localManifest_enumerates_witness :
  wf_fs Linked.site = true
  ∧ NoDup (paths Linked.site Linked.detour)
  ∧ (∀ p, p ∈ paths Linked.site Linked.detour
          ↔ ∃ d segs,
              stat (fs_root Linked.site)
                (resolve Linked.site (upload_directory Linked.detour))
              = Some d
              ∧ globbed (fs_root Linked.site)
                  (resolve Linked.site (upload_directory Linked.detour))
                  d segs
              ∧ is_dir (stat (fs_root Linked.site)
                          (resolve Linked.site
                             (upload_directory Linked.detour) ++ segs))
                = false
              ∧ p = JS.join slash segs)
  ∧ match localManifest (Err := MemS3.error) sample_digest Linked.site
            Linked.detour (start Mirror.remote) with
    | (inr source, w') =>
        w' = start Mirror.remote
        ∧ Forall2 (λ p e, ∃ content,
                      readFileSync Linked.site (fullPathOf Linked.detour p)
                      = Some content
                      ∧ e = entryOf sample_digest Linked.detour p content)
            (paths Linked.site Linked.detour) source
    | (inl t, w') =>
        w' = start Mirror.remote
        ∧ ∃ p, p ∈ paths Linked.site Linked.detour
               ∧ readFileSync Linked.site (fullPathOf Linked.detour p) = None
               ∧ t = FsError (fullPathOf Linked.detour p)
    end
  ∧ ∀ here entries,
      upload_directory Linked.detour ≠ EmptyString →
      walk (fs_root Linked.site)
        (origin Linked.site (upload_directory Linked.detour))
        (JS.split slash (upload_directory Linked.detour)) = Arrived here →
      lookup_path (fs_root Linked.site) here = Some (Dir entries) →
      (∀ segs content,
          segs ≠ [] → Forall (λ s, hidden s = false) segs →
          file_at (fs_root Linked.site) here (Dir entries) segs content →
          JS.join slash segs ∈ paths Linked.site Linked.detour
          ∧ readFileSync Linked.site
              (fullPathOf Linked.detour (JS.join slash segs))
            = Some content)
      ∧ (links_lead_to_files (fs_root Linked.site) here (Dir entries) = true →
         ∃ source,
           localManifest (Err := MemS3.error) sample_digest Linked.site
             Linked.detour (start Mirror.remote)
           = (inr source, start Mirror.remote)
           ∧ Source.path <$> source = paths Linked.site Linked.detour
           ∧ ∀ e, e ∈ source
                  ↔ ∃ segs content,
                      segs ≠ [] ∧ Forall (λ s, hidden s = false) segs
                      ∧ file_at (fs_root Linked.site) here (Dir entries)
                          segs content
                      ∧ e = entryOf sample_digest Linked.detour
                              (JS.join slash segs) content).
Proof.
  assert (Hwf : wf_fs Linked.site = true) by (vm_compute; reflexivity).
  split; [exact Hwf |].
  exact (localManifest_enumerates (Err := MemS3.error) sample_digest
           Linked.detour Linked.site (start Mirror.remote) Hwf).
Defined.

(** C7, as stated, fails twice: [.htaccess] is a regular file of the upload
    directory, and neither the globbed paths nor the manifest have it;
    [latest.html] and [licence.txt] are symbolic links, and the manifest has
    an entry for each, with the bytes of the file it leads to. *)
Lemma localManifest_omits_dotfile_lists_link :
  readFileSync Linked.site "build/.htaccess" = Some Scenario.old
  ∧ lookup_path (fs_root Linked.site) ["srv"; "site"; "build"; ".htaccess"]
    = Some (File Scenario.old)
  ∧ lookup_path (fs_root Linked.site) ["srv"; "site"; "build"; "latest.html"]
    = Some (Link "about/index.html")
  ∧ lookup_path (fs_root Linked.site) ["srv"; "site"; "build"; "licence.txt"]
    = Some (Link "/usr/share/licence")
  ∧ paths Linked.site Scenario.config
    = ["about/draft.html"; "about/index.html"; "index.html"; "latest.html";
       "licence.txt"]
  ∧ (localManifest (Err := MemS3.error) sample_digest Linked.site
       Scenario.config (start Mirror.remote)).1
    = inr [entryOf sample_digest Scenario.config "about/draft.html"
             Scenario.old;
           entryOf sample_digest Scenario.config "about/index.html"
             Scenario.about;
           entryOf sample_digest Scenario.config "index.html" Scenario.home;
           entryOf sample_digest Scenario.config "latest.html"
             Scenario.about;
           entryOf sample_digest Scenario.config "licence.txt"
             Scenario.old].
Proof. vm_compute. repeat split; reflexivity. Qed.

(** The upload directory named with a detour: the files are found as under
    its plain name, where a lexical reading of the name finds them. *)
Lemma paths_through_detour :
  paths Linked.site Linked.detour = paths Linked.site Scenario.config
  ∧ walk (fs_root Linked.site) (origin Linked.site "build/../build")
      (JS.split slash "build/../build")
    = Arrived ["srv"; "site"; "build"]
  ∧ links_lead_to_files (fs_root Linked.site) ["srv"; "site"; "build"]
      (Dir Linked.build) = true
  ∧ readFileSync Linked.site (fullPathOf Linked.detour "about/index.html")
    = Some Scenario.about.
Proof. vm_compute. repeat split; reflexivity. Qed.

(** A link to a directory is not an entry of the manifest, the files right
    below it are, each under the path through the link. *)
Lemma paths_below_linked_directory :
  paths Linked.shared Scenario.config
  = ["about/draft.html"; "about/index.html"; "index.html"; "latest.html";
     "licence.txt"; "manual/draft.html"; "manual/index.html"]
  ∧ ∃ source,
      (localManifest (Err := MemS3.error) sample_digest Linked.shared
         Scenario.config (start Mirror.remote)).1 = inr source
      ∧ Source.path <$> source = paths Linked.shared Scenario.config
      ∧ entryOf sample_digest Scenario.config "manual/index.html"
          Scenario.about ∈ source.
Proof.
  split; [vm_compute; reflexivity |]. eexists.
  split; [vm_compute; reflexivity |].
  split; [vm_compute; reflexivity |].
  do 6 right. left.
Qed.

(** A link that leads nowhere is globbed, and reading it ends the task. *)
Lemma dangling_link_ends_the_task :
  "news.html" ∈ paths Linked.broken Scenario.config
  ∧ localManifest (Err := MemS3.error) sample_digest Linked.broken
      Scenario.config (start Mirror.remote)
    = (inl (FsError "build/news.html"), start Mirror.remote).
Proof.
  split; [| vm_compute; reflexivity].
  eapply bool_decide_unpack. by vm_compute.
Qed.

(** * Further properties of the tasks *)

(** ** Keys *)

Section Keys.

Lemma free_of_get (sep : ascii) (s : string) (i : nat) :
  free_of sep s = true → String.get i s ≠ Some sep.
Proof.
  revert i. induction s as [|c s IH]; intros i; simpl; [done |].
  intros [Hc Hs]%andb_true_iff. apply negb_true_iff, Ascii.eqb_neq in Hc.
  destruct i as [|i]; [congruence | by apply IH].
Qed.

(** The first piece of a split has no separator. *)
Lemma split_head_free (sep : ascii) (s : string) :
  ∃ h t, JS.split sep s = h :: t ∧ free_of sep h = true.
Proof.
  induction s as [|c s (h & t & IH & Hh)]; simpl; [by exists EmptyString, [] |].
  destruct (Ascii.eqb c sep) eqn:Hc; [by eauto |].
  rewrite IH. exists (String c h), t. simpl. by rewrite Hc, Hh.
Qed.

Lemma endsWith_get (s t' : string) (c : ascii) :
  JS.endsWith s (String c t') = true →
  String.get (String.length s - String.length (String c t')) s = Some c.
Proof.
  unfold JS.endsWith. intros [_ Heq%String.eqb_eq]%andb_true_iff.
  pose proof (String.substring_correct1 s
                (String.length s - String.length (String c t'))
                (String.length (String c t')) 0) as Hget.
  rewrite Heq in Hget. simpl in *. symmetry. apply Hget. lia.
Qed.

Lemma free_of_not_endsWith (s t' : string) (c : ascii) :
  free_of c s = true → JS.endsWith s (String c t') = false.
Proof.
  intros Hfree. destruct (JS.endsWith s (String c t')) eqn:He; [| done].
  apply endsWith_get in He. by eapply free_of_get in Hfree.
Qed.

(** X1: without trailing slashes, no key ends with [/index.html]: an index
    file is never addressed by its own name, except the root [index.html]. *)
Theorem targetKey_never_ends_with_index (path : string) :
  JS.endsWith (targetKey false path) "/index.html" = false.
Proof.
  unfold targetKey.
  destruct (String.eqb_spec path "index.html") as [->|Hne]; [done |].
  destruct (JS.endsWith path "/index.html") eqn:He; [| done].
  simpl. destruct (split_head_free slash path) as (h & t & -> & Hh).
  simpl. by apply free_of_not_endsWith.
Qed.

(** X2: mapping a key again does not change it. *)
Theorem targetKey_idempotent (trailingSlashes : bool) (path : string) :
  targetKey trailingSlashes (targetKey trailingSlashes path)
  = targetKey trailingSlashes path.
Proof.
  destruct trailingSlashes; [by rewrite !targetKey_trailing_slashes |].
  assert (Hk : targetKey false path = path
               ∨ free_of slash (targetKey false path) = true).
  { unfold targetKey.
    destruct (negb (String.eqb path "index.html")
              && JS.endsWith path "/index.html" && negb false); [| by left].
    right. by destruct (split_head_free slash path) as (h & t & -> & Hh). }
  destruct Hk as [Hk | Hk]; [by rewrite !Hk |].
  revert Hk. generalize (targetKey false path). intros k Hk.
  pose proof (free_of_not_endsWith k "index.html" slash Hk) as He.
  change (JS.endsWith k "/index.html" = false) in He.
  unfold targetKey. by rewrite He, andb_false_r.
Qed.

Lemma string_app_assoc (a b c : string) : (a +:+ b) +:+ c = a +:+ (b +:+ c).
Proof.
  induction a as [|x a IH]; [reflexivity |].
  change (String x ((a +:+ b) +:+ c) = String x (a +:+ (b +:+ c))).
  by f_equal.
Qed.

(** X3: without trailing slashes, every index file below a top-level
    directory [d], at any depth, gets the key [d]: the index files of [d]
    and of its subdirectories share one key. *)
Theorem targetKey_below_top_level (d sub : string) :
  free_of slash d = true →
  targetKey false (d +:+ "/" +:+ sub +:+ "/index.html") = d.
Proof.
  intros Hd.
  pose proof (targetKey_first_segment (d +:+ String slash sub)) as H.
  rewrite split_append, (split_free_of _ _ Hd) in H. simpl in H.
  injection H as H. rewrite string_app_assoc in H. done.
Qed.

Lemma targetKey_below_top_level_witness :
  targetKey false ("blog" +:+ "/" +:+ "2019/05" +:+ "/index.html") = "blog".
Proof. by apply (targetKey_below_top_level "blog" "2019/05"). Defined.

End Keys.

(** ** How a run of the synchronisation ends *)

Section SyncOutcomes.

Variable md5hex : Buffer → string.
Variable mime_getType : string → option string.
Variable cacheControl : string.
Variable fs : FileSystem.
Context {St Err : Type} {client : S3Client St Err}.
Variable config : Config.

Local Abbreviation the_loops :=
  (applyChanges mime_getType cacheControl fs config).
Local Abbreviation the_request :=
  (step_request mime_getType cacheControl fs config).

(** X4: when the listing call rejects, the task ends with the client's
    error after that single call: no status line, no upload. *)
Theorem sync_stops_when_listing_rejects (w : World St)
  (source : list Source.t) (e : Err) (st' : St) :
  localManifest (Err := Err) md5hex fs config w = (inr source, w) →
  listObjectsV2 (listRequest config) (s3 w) = (inl e, st') →
  synchronizeWebsiteTask md5hex mime_getType cacheControl fs config w
  = (inl (ClientError e),
     {| s3 := st'; output := output w;
        requests := requests w ++ [ListObjects (listRequest config)] |}).
Proof.
  intros Hsrc Hlist. unfold synchronizeWebsiteTask, bind.
  unfold localManifest in Hsrc. rewrite Hsrc.
  unfold await_listObjectsV2. by rewrite Hlist.
Qed.

(** X5: when the loops end without exception, every entry of the change
    set has had its status line and its [putObject], one call per entry, in
    the order add, update, remove. *)
Theorem apply_success_runs_every_step (changes : ChangeSet) (w w' : World St) :
  the_loops changes w = (inr tt, w') →
  ∃ reqs,
    mapM the_request (steps changes) = Some reqs
    ∧ requests w' = requests w ++ (PutObjectCall <$> reqs)
    ∧ output w' = output w ++ (step_line <$> steps changes)
    ∧ List.length reqs
      = (List.length (add changes) + List.length (update changes)
         + List.length (remove changes))%nat.
Proof.
  rewrite applyChanges_steps. intros Hrun.
  apply forEach_perform_run in Hrun
    as (started & reqs & _ & Hout & Hreqs & -> & Hm).
  exists reqs. repeat split; try done.
  apply mapM_Some, Forall2_length in Hm. rewrite <- Hm.
  unfold steps. rewrite !length_app, !length_fmap. lia.
Qed.

(** X6: when a file of an add or update entry cannot be read, the loops end
    with the exception of [fs.readFileSync] for that file: the status line of
    the entry has been assigned, no call has been issued for it, the earlier
    entries have had their calls, and the later ones nothing. *)
Theorem apply_stops_at_unreadable_file (changes : ChangeSet) (w w' : World St)
  (path : string) :
  the_loops changes w = (inl (FsError path), w') →
  ∃ before failing after reqs,
    steps changes = before ++ failing :: after
    ∧ step_file config failing = Some path
    ∧ readFileSync fs path = None
    ∧ mapM the_request before = Some reqs
    ∧ requests w' = requests w ++ (PutObjectCall <$> reqs)
    ∧ output w' = output w ++ (step_line <$> before ++ [failing]).
Proof.
  rewrite applyChanges_steps. intros Hrun.
  apply forEach_perform_run in Hrun
    as (started & reqs & [after Hpre] & Hout & Hreqs & Hres).
  destruct Hres as (before & s & -> & Hm & Hs & Hp).
  exists before, s, after, reqs.
  rewrite <- app_assoc in Hpre. repeat split; try done.
  destruct s as [c|c|c]; simpl in *; try done;
    injection Hp as <-;
    by destruct (readFileSync fs (fullPathOf config (Source.path c))).
Qed.

(** The calls a run of the task issues: none when a file cannot be read
    while [source] is built; otherwise the listing call, then uploads to the
    bucket of the site. *)
Lemma step_request_bucket (s : Step) (r : PutObject.request) :
  the_request s = Some r → PutObject.Bucket r = domain config.
Proof.
  destruct s as [c|c|c]; simpl.
  - destruct (readFileSync fs _); intros [= <-]; done.
  - destruct (readFileSync fs _); intros [= <-]; done.
  - by intros [= <-].
Qed.

Lemma mapM_step_request_bucket (l : list Step) (reqs : list PutObject.request) :
  mapM the_request l = Some reqs →
  Forall (λ r, PutObject.Bucket r = domain config) reqs.
Proof.
  intros HF%mapM_Some. induction HF as [|s r l reqs Hs _ IH]; constructor.
  - by eapply step_request_bucket.
  - done.
Qed.

Lemma mapT_sourceEntry_error (ps : list string) (w w' : World St)
  (t : Thrown Err) :
  mapT (sourceEntry md5hex fs config) ps w = (inl t, w') →
  ∃ p, t = FsError p.
Proof.
  revert t w'. induction ps as [|p ps IH]; intros t w'; simpl; [done |].
  unfold bind, sourceEntry, read.
  destruct (readFileSync fs (fullPathOf config p)).
  - simpl. destruct (mapT _ ps w) as [[e|l] w1] eqn:Hrest; [| done].
    intros [= <- <-]. by eapply IH.
  - intros [= <- _]. eauto.
Qed.

Lemma sync_requests (w w' : World St) (res : Thrown Err + unit) :
  synchronizeWebsiteTask md5hex mime_getType cacheControl fs config w
  = (res, w') →
  (∃ p, res = inl (FsError p) ∧ requests w' = requests w)
  ∨ ∃ reqs,
      requests w'
      = requests w
        ++ ListObjects (listRequest config) :: (PutObjectCall <$> reqs)
      ∧ Forall (λ r, PutObject.Bucket r = domain config) reqs.
Proof.
  unfold synchronizeWebsiteTask, bind.
  destruct (mapT _ (paths fs config) w) as [[t|source] w1] eqn:Hsrc.
  - intros [= <- <-]. left.
    pose proof (mapT_sourceEntry_world _ _ _ _ _ _ _ Hsrc) as ->.
    destruct (mapT_sourceEntry_error _ _ _ _ Hsrc) as [p ->]. eauto.
  - pose proof (mapT_sourceEntry_world _ _ _ _ _ _ _ Hsrc) as ->.
    unfold await_listObjectsV2.
    destruct (listObjectsV2 (listRequest config) (s3 w)) as [[e|page] st].
    + intros [= <- <-]. right. exists []. by split; [| constructor].
    + rewrite applyChanges_steps. intros Hrun.
      apply forEach_perform_run in Hrun
        as (started & reqs & _ & _ & Hreqs & Hres).
      simpl in Hreqs. right. exists reqs.
      split; [by rewrite Hreqs, <- app_assoc |].
      destruct res as [[p|e]|[]].
      * destruct Hres as (before & s & _ & Hm & _).
        by eapply mapM_step_request_bucket.
      * destruct Hres as (before & s & breqs & r & st0 & _ & Hm & -> & Hs & _).
        apply Forall_app. split; [by eapply mapM_step_request_bucket |].
        constructor; [by eapply step_request_bucket | constructor].
      * destruct Hres as [_ Hm]. by eapply mapM_step_request_bucket.
Qed.

(** X15: the calls of one run of the task are one listing call, for the
    bucket of the site and without continuation token, followed by
    [putObject] calls to that bucket and by nothing else; the task issues no
    call at all only when it ends on the exception of [fs.readFileSync]. *)
Theorem sync_calls_one_listing_then_uploads (w : World St) :
  (∃ p,
     (synchronizeWebsiteTask md5hex mime_getType cacheControl fs config w).1
     = inl (FsError p)
     ∧ requests
         (synchronizeWebsiteTask md5hex mime_getType cacheControl fs config w).2
       = requests w)
  ∨ ∃ reqs,
      requests
        (synchronizeWebsiteTask md5hex mime_getType cacheControl fs config w).2
      = requests w
        ++ ListObjects {| ListObjectsV2.Bucket := domain config;
                          ListObjectsV2.ContinuationToken := None |}
           :: (PutObjectCall <$> reqs)
      ∧ Forall (λ r, PutObject.Bucket r = domain config) reqs.
Proof.
  destruct (synchronizeWebsiteTask _ _ _ _ _ w) as [res w'] eqn:Hrun.
  apply sync_requests in Hrun as [(p & -> & Hsame) | (reqs & Hreqs & Hall)].
  - left. eauto.
  - right. eauto.
Qed.

End SyncOutcomes.

Lemma sync_stops_when_listing_rejects_witness :
  synchronizeWebsiteTask (client := MemS3.client sample_digest)
    sample_digest no_mime "max-age=3600" Scenario.site Scenario.config
    (start NoBucket.remote)
  = (inl (ClientError MemS3.NoSuchBucket),
     {| s3 := NoBucket.remote; output := output (start NoBucket.remote);
        requests := requests (start NoBucket.remote)
                    ++ [ListObjects (listRequest Scenario.config)] |}).
Proof.
  apply (sync_stops_when_listing_rejects (client := MemS3.client sample_digest)
           sample_digest no_mime "max-age=3600" Scenario.site Scenario.config
           (start NoBucket.remote) Mirror.source MemS3.NoSuchBucket
           NoBucket.remote).
  - vm_compute. reflexivity.
  - vm_compute. reflexivity.
Defined.

Lemma apply_success_runs_every_step_witness :
  ∃ reqs,
    mapM (step_request no_mime "max-age=3600" Refusal.site Scenario.config)
      (steps RefusalApply.changes) = Some reqs
    ∧ requests CleanApply.result.2
      = requests (start (Refusal.remote "c.html")) ++ (PutObjectCall <$> reqs)
    ∧ output CleanApply.result.2
      = output (start (Refusal.remote "c.html"))
        ++ (step_line <$> steps RefusalApply.changes)
    ∧ List.length reqs
      = (List.length (add RefusalApply.changes)
         + List.length (update RefusalApply.changes)
         + List.length (remove RefusalApply.changes))%nat.
Proof.
  apply (apply_success_runs_every_step (client := MemS3.client sample_digest)
           no_mime "max-age=3600" Refusal.site Scenario.config
           RefusalApply.changes (start (Refusal.remote "c.html"))
           CleanApply.result.2).
  vm_compute. reflexivity.
Defined.

Lemma apply_stops_at_unreadable_file_witness :
  ∃ before failing after reqs,
    steps VanishedApply.changes = before ++ failing :: after
    ∧ step_file Scenario.config failing = Some "build/gone.html"
    ∧ readFileSync Refusal.site "build/gone.html" = None
    ∧ mapM (step_request no_mime "max-age=3600" Refusal.site Scenario.config)
        before = Some reqs
    ∧ requests VanishedApply.result.2
      = requests (start (Refusal.remote "c.html")) ++ (PutObjectCall <$> reqs)
    ∧ output VanishedApply.result.2
      = output (start (Refusal.remote "c.html"))
        ++ (step_line <$> before ++ [failing]).
Proof.
  apply (apply_stops_at_unreadable_file (client := MemS3.client sample_digest)
           no_mime "max-age=3600" Refusal.site Scenario.config
           VanishedApply.changes (start (Refusal.remote "c.html"))
           VanishedApply.result.2 "build/gone.html").
  vm_compute. reflexivity.
Defined.

(** ** The error document of the website configuration *)

Section Replace.

Lemma prefix_append (p s : string) : String.prefix p (p +:+ s) = true.
Proof.
  induction p as [|c p IH]; [by destruct s |].
  change (String c p +:+ s) with (String c (p +:+ s)). simpl.
  by destruct (Ascii.ascii_dec c c).
Qed.

Lemma prefix_length (p s : string) :
  String.prefix p s = true → (String.length p ≤ String.length s)%nat.
Proof.
  revert s. induction p as [|c p IH]; intros [|c' s]; simpl; try done; try lia.
  destruct (Ascii.ascii_dec c c'); [| done].
  intros H%IH. lia.
Qed.

Lemma length_substring (n m : nat) (s : string) :
  (n + m ≤ String.length s)%nat →
  String.length (String.substring n m s) = m.
Proof.
  revert n m. induction s as [|c s IH]; intros n m; simpl.
  - intros H. by replace m with 0%nat by lia; destruct n.
  - destruct n as [|n]; [destruct m as [|m]; [done |] |].
    + intros H. simpl. rewrite IH by lia. done.
    + intros H. apply IH. lia.
Qed.

Lemma replace_unfold (p r s : string) :
  JSString.replace p r s
  = if String.prefix p s
    then r +:+ String.substring (String.length p)
                 (String.length s - String.length p) s
    else match s with
         | EmptyString => EmptyString
         | String c s' => String c (JSString.replace p r s')
         end.
Proof. by destruct s. Qed.

Lemma replace_at_head (p r s : string) :
  JSString.replace p r (p +:+ s) = r +:+ s.
Proof.
  rewrite replace_unfold, prefix_append, length_append.
  replace (String.length p + String.length s - String.length p)%nat
    with (String.length s) by lia.
  by rewrite substring_suffix.
Qed.

Lemma replace_skip (c x : ascii) (p r s : string) :
  x ≠ c →
  JSString.replace (String c p) r (String x s)
  = String x (JSString.replace (String c p) r s).
Proof.
  intros Hne. simpl. destruct (Ascii.ascii_dec c x); [congruence | done].
Qed.

(** The first occurrence is the one replaced: before it, nothing starts
    like the pattern. *)
Lemma replace_first_occurrence (c : ascii) (p r a b : string) :
  free_of c a = true →
  JSString.replace (String c p) r (a +:+ String c p +:+ b) = a +:+ r +:+ b.
Proof.
  induction a as [|x a IH]; intros Hfree.
  - apply (replace_at_head (String c p) r b).
  - simpl in Hfree. apply andb_true_iff in Hfree as [Hx Ha].
    apply negb_true_iff, Ascii.eqb_neq in Hx.
    change (String x a +:+ String c p +:+ b)
      with (String x (a +:+ String c p +:+ b)).
    rewrite replace_skip by done. rewrite IH by done. done.
Qed.

Lemma append_cons (c : ascii) (s t : string) :
  String c s +:+ t = String c (s +:+ t).
Proof. reflexivity. Qed.

Lemma append_nil (t : string) : EmptyString +:+ t = t.
Proof. reflexivity. Qed.

Lemma prefix_inv (p t : string) :
  String.prefix p t = true → ∃ u, t = p +:+ u.
Proof.
  revert t. induction p as [|c p IH]; intros t.
  - intros _. by exists t.
  - destruct t as [|c' t]; simpl; [done |].
    destruct (Ascii.ascii_dec c c') as [<-|]; [| done].
    intros [u ->]%IH. by exists u.
Qed.

(** An occurrence of [.html] that starts before another one lies before
    it. *)
Lemma html_starts (s rest : string) :
  String.prefix ".html" (s +:+ ".html" +:+ rest) = true →
  s = EmptyString ∨ String.prefix ".html" s = true.
Proof.
  intros [u Hu]%prefix_inv.
  destruct s as [|c1 [|c2 [|c3 [|c4 [|c5 s]]]]]; [by left | ..]; right;
    rewrite ?append_cons, ?append_nil in Hu; injection Hu; intros; subst;
    try discriminate.
  apply (prefix_append ".html" s).
Qed.

(** The occurrence replaced is the first one: the one that no other
    occurrence precedes. *)
Lemma replace_first_html (r stem rest : string) :
  JSString.occurs ".html" stem = false →
  JSString.replace ".html" r (stem +:+ ".html" +:+ rest)
  = stem +:+ r +:+ rest.
Proof.
  induction stem as [|x a IH]; intros Hocc.
  - apply (replace_at_head ".html" r rest).
  - cbn [JSString.occurs] in Hocc.
    apply orb_false_elim in Hocc as [Hhead Htail].
    change (String x a +:+ ".html" +:+ rest)
      with (String x (a +:+ ".html" +:+ rest)).
    change (String x a +:+ r +:+ rest) with (String x (a +:+ r +:+ rest)).
    rewrite replace_unfold.
    destruct (String.prefix ".html" (String x (a +:+ ".html" +:+ rest)))
      eqn:Hp.
    + change (String x (a +:+ ".html" +:+ rest))
        with (String x a +:+ ".html" +:+ rest) in Hp.
      apply html_starts in Hp as [? | ?]; congruence.
    + by rewrite IH.
Qed.

(** Removing an occurrence shortens the string by the pattern. *)
Lemma replace_removes (p a b : string) :
  (String.length (JSString.replace p EmptyString (a +:+ p +:+ b))
   + String.length p)%nat
  = String.length (a +:+ p +:+ b).
Proof.
  induction a as [|x a IH].
  - change (EmptyString +:+ p +:+ b) with (p +:+ b).
    rewrite replace_at_head, !length_append. simpl. lia.
  - change (String x a +:+ p +:+ b) with (String x (a +:+ p +:+ b)).
    rewrite replace_unfold.
    destruct (String.prefix p (String x (a +:+ p +:+ b))) eqn:Hp.
    + apply prefix_length in Hp.
      change (EmptyString +:+ ?s) with s.
      rewrite length_substring by lia. lia.
    + simpl String.length in *. lia.
Qed.

End Replace.

Section ErrorDocument.

Variable Json : Type.
Variable Exn : Type.
Variable RoutingRules : option Json → option Json → Exn + Json.

Local Abbreviation params_of := (websiteParams Json Exn RoutingRules).

Lemma websiteParams_key (config : Settings Json)
  (p : PutBucketWebsite.request Json) :
  params_of config = inr p →
  PutBucketWebsite.ErrorDocument_Key p
  = if negb (trailing_slashes (site config))
    then JSString.replace ".html" EmptyString (error_key config)
    else error_key config.
Proof.
  unfold websiteParams.
  destruct (redirects config), (routing_rules config);
    try destruct (RoutingRules _ _); intros [= <-]; done.
Qed.

(** X7: without trailing slashes, the error document is the error key
    without its first [.html]: what precedes that occurrence, dots included,
    and what follows it, another [.html] included, stay. *)
Theorem error_document_key_drops_first_html (config : Settings Json)
  (p : PutBucketWebsite.request Json) (stem rest : string) :
  trailing_slashes (site config) = false →
  error_key config = stem +:+ ".html" +:+ rest →
  JSString.occurs ".html" stem = false →
  params_of config = inr p →
  PutBucketWebsite.ErrorDocument_Key p = stem +:+ rest.
Proof.
  intros Hts Hkey Hstem Hp. rewrite (websiteParams_key _ _ Hp), Hts, Hkey.
  simpl negb. cbv iota.
  by rewrite (replace_first_html EmptyString stem rest).
Qed.

Lemma substring_split (s : string) (n : nat) :
  (n ≤ String.length s)%nat →
  String.substring 0 n s +:+ String.substring n (String.length s - n) s = s.
Proof.
  revert n. induction s as [|c s IH]; intros [|n] Hn; simpl in *; try lia.
  - done.
  - change (EmptyString +:+ ?x) with x. by rewrite substring_whole.
  - change (String c ?a +:+ ?b) with (String c (a +:+ b)).
    by rewrite IH by lia.
Qed.

Lemma endsWith_inv (s t : string) :
  JS.endsWith s t = true → ∃ d, s = d +:+ t.
Proof.
  unfold JS.endsWith.
  intros [Hlen%Nat.leb_le Heq%String.eqb_eq]%andb_true_iff.
  exists (String.substring 0 (String.length s - String.length t) s).
  pose proof (substring_split s (String.length s - String.length t)) as H.
  replace (String.length s - (String.length s - String.length t))%nat
    with (String.length t) in H by lia.
  rewrite Heq in H. symmetry. apply H. lia.
Qed.

Lemma split_head_length (sep : ascii) (s : string) :
  ∃ h t, JS.split sep s = h :: t
         ∧ (String.length h ≤ String.length s)%nat.
Proof.
  induction s as [|c s (h & t & IH & Hh)]; simpl; [by exists EmptyString, [] |].
  destruct (Ascii.eqb c sep); [exists EmptyString; eexists; simpl; split; [done | lia] |].
  rewrite IH. exists (String c h), t. simpl. split; [done | lia].
Qed.

(** A mapped key is the path, or shorter than it by [/index.html] at
    least. *)
Lemma targetKey_length (ts : bool) (path : string) :
  targetKey ts path = path
  ∨ (String.length (targetKey ts path) + 11 ≤ String.length path)%nat.
Proof.
  unfold targetKey.
  destruct (negb (String.eqb path "index.html")
            && JS.endsWith path "/index.html" && negb ts) eqn:Hc; [| by left].
  apply andb_true_iff in Hc as [[_ He]%andb_true_iff _].
  apply endsWith_inv in He as [d ->]. right.
  change "/index.html" with (String slash "index.html").
  rewrite split_append, length_append.
  destruct (split_head_length slash d) as (h & t & -> & Hh). simpl. lia.
Qed.

(** X8: without trailing slashes, when the error key contains [.html], the
    key configured as error document is not the key under which the
    synchronisation uploads the file of that path. *)
Theorem error_document_key_is_not_upload_key (config : Settings Json)
  (p : PutBucketWebsite.request Json) (a b : string) :
  trailing_slashes (site config) = false →
  error_key config = a +:+ ".html" +:+ b →
  params_of config = inr p →
  String.eqb (PutBucketWebsite.ErrorDocument_Key p)
    (targetKey (trailing_slashes (site config)) (error_key config))
  = false.
Proof.
  intros Hts Hkey Hp. apply String.eqb_neq. intros Heq.
  apply (f_equal String.length) in Heq.
  rewrite (websiteParams_key _ _ Hp), Hts, Hkey in Heq. simpl negb in Heq.
  cbv iota in Heq.
  pose proof (replace_removes ".html" a b) as Hlen.
  destruct (targetKey_length false (a +:+ ".html" +:+ b)) as [Hk|Hk].
  - rewrite Hk in Heq. simpl String.length in Hlen at 2. lia.
  - simpl String.length in Hlen at 2. lia.
Qed.

End ErrorDocument.

Lemma error_document_key_drops_first_html_witness :
  PutBucketWebsite.ErrorDocument_Key
    {| PutBucketWebsite.Bucket := "example.com";
       PutBucketWebsite.ErrorDocument_Key := "v1.2/404.html";
       PutBucketWebsite.IndexDocument_Suffix := "index.html";
       PutBucketWebsite.RoutingRules := @None string |}
  = "v1.2/404" +:+ ".html".
Proof.
  apply (error_document_key_drops_first_html string string Project.rules
           Project.versioned _ "v1.2/404" ".html").
  - reflexivity.
  - reflexivity.
  - reflexivity.
  - reflexivity.
Defined.

Lemma error_document_key_is_not_upload_key_witness :
  String.eqb
    (PutBucketWebsite.ErrorDocument_Key
       {| PutBucketWebsite.Bucket := "example.com";
          PutBucketWebsite.ErrorDocument_Key := "404";
          PutBucketWebsite.IndexDocument_Suffix := "index.html";
          PutBucketWebsite.RoutingRules := @None string |})
    (targetKey (trailing_slashes (site Project.settings))
       (error_key Project.settings))
  = false.
Proof.
  apply (error_document_key_is_not_upload_key string string Project.rules
           Project.settings _ "404" "").
  - reflexivity.
  - reflexivity.
  - reflexivity.
Defined.

(** ** The bucket task *)

Section BucketTask.

Variable Json : Type.
Variable Handle : Type.
Variable Exn : Type.
Context {St Err : Type} {admin : BucketClient St Err Json}.

Local Abbreviation the_skip := (createBucketSkip Json Handle Exn).
Local Abbreviation the_bucket_task := (createBucketTask Json Handle Exn).

(** X9: the [skip] function of the bucket task never throws: with or
    without client and configuration, and whatever [headBucket] does, it
    returns a message or [false], after one [headBucket] call at most. *)
Theorem createBucketSkip_never_throws (d : Deploy Json Handle St) :
  ∃ answer,
    (the_skip d).1 = inr answer
    ∧ (trace (the_skip d).2 = trace d
       ∨ ∃ r, trace (the_skip d).2 = trace d ++ [HeadBucketCall r]).
Proof.
  unfold createBucketSkip.
  destruct (ctx_s3 (context d)) as [h|]; [| by eexists; split; [| left]].
  destruct (ctx_config (context d)) as [config|];
    [| by eexists; split; [| left]].
  destruct (headBucket _ (s3 (world d))) as [[e|[]] st];
    (eexists; split; [reflexivity | right; eauto]).
Qed.

(** X10: the bucket is created unless [headBucket] resolves: when it
    resolves, the task is skipped with its message and [createBucket] is not
    called; when it rejects, whatever the error, the task runs and calls
    [createBucket] with a public-read ACL, and the run goes on or ends as
    that call does. *)
Theorem createBucket_unless_head_resolves (d : Deploy Json Handle St)
  (h : Handle) (config : Settings Json) (res : Err + bool) (st : St) :
  ctx_s3 (context d) = Some h →
  ctx_config (context d) = Some config →
  headBucket {| HeadBucket.Bucket := domain (site config) |} (s3 (world d))
  = (res, st) →
  runTask Json Handle Exn the_bucket_task d
  = let head := HeadBucketCall {| HeadBucket.Bucket := domain (site config) |} in
    let create := {| CreateBucket.ACL := "public-read";
                     CreateBucket.Bucket := domain (site config) |} in
    let after st' events :=
      {| context := context d; files := files d;
         world := {| s3 := st'; output := output (world d);
                     requests := requests (world d) |};
         trace := trace d ++ events |} in
    match res with
    | inr true =>
        (inr tt,
         after st [head; Skipped "Create bucket" "Bucket already exists"])
    | _ =>
        ((match (createBucket create st).1 with
          | inl e => inl (Rejected e)
          | inr _ => inr tt
          end),
         after (createBucket create st).2
           [head; Started "Create bucket"; CreateBucketCall create])
    end.
Proof.
  intros Hs3 Hconfig Hhead.
  unfold runTask, createBucketTask, createBucketSkip, createBucketBody,
    job_bind, get_s3, get_config, emit, await_admin, with_store.
  simpl. rewrite Hs3, Hconfig, Hhead. simpl.
  destruct res as [e|[]];
    repeat (progress (simpl; rewrite ?Hs3, ?Hconfig));
    rewrite <- ?app_assoc; try done.
  all: destruct (createBucket _ st) as [[e'|[]] st']; simpl.
  all: by rewrite <- ?app_assoc.
Qed.

End BucketTask.

Lemma createBucket_unless_head_resolves_witness :
  runTask string (string * string) string
    (createBucketTask (admin := MemSite.bucket_client)
       string (string * string) string)
    (Project.loaded Project.taken_store)
  = (inl (Rejected MemS3.AccessDenied),
     {| context := context (Project.loaded Project.taken_store);
        files := Project.built;
        world := start Project.taken_store;
        trace := [HeadBucketCall {| HeadBucket.Bucket := "example.com" |};
                  Started "Create bucket";
                  CreateBucketCall {| CreateBucket.ACL := "public-read";
                                      CreateBucket.Bucket := "example.com" |}]
     |}).
Proof.
  apply (createBucket_unless_head_resolves string (string * string) string
           (admin := MemSite.bucket_client)
           (Project.loaded Project.taken_store) ("default", "us-east-1")
           Project.settings (inl MemS3.AccessDenied) Project.taken_store).
  - reflexivity.
  - reflexivity.
  - vm_compute. reflexivity.
Defined.

(** ** The task list *)

Section Stages.

Variable Json : Type.
Context {St : Type}.

Lemma new_calls_stage (before after : World St) (e : Event Json) :
  e ∈ new_calls Json before after → stage e = 4.
Proof.
  unfold new_calls. by intros (r & -> & _)%list_elem_of_fmap.
Qed.

Lemma new_calls_sorted (before after : World St) :
  StronglySorted (λ a b : Event Json, (stage a ≤ stage b)%nat)
    (new_calls Json before after).
Proof.
  unfold new_calls.
  induction (drop (List.length (requests before)) (requests after))
    as [|r l IH]; [constructor |].
  rewrite fmap_cons. constructor; [done |].
  apply Forall_forall. by intros e (r' & -> & _)%list_elem_of_fmap.
Qed.

Lemma new_calls_after (before after : World St) (x : Event Json) :
  (stage x ≤ 4)%nat →
  Forall (λ e, (stage x ≤ stage e)%nat) (new_calls Json before after).
Proof.
  intros Hx. apply Forall_forall. intros e He.
  by rewrite (new_calls_stage _ _ _ He).
Qed.

End Stages.

Section TaskList.

Variable Json : Type.
Variable Credentials : Type.
Variable Handle : Type.
Variable Exn : Type.
Variable configuration_exists : FileSystem → string → bool.
Variable configuration_read : FileSystem → string → Exn + Settings Json.
Variable credentialsForProfile : string → Exn + Credentials.
Variable AWS_s3 : Credentials → string → Exn + Handle.
Variable execa_shell : string → FileSystem → (Exn + unit) * FileSystem.
Variable RoutingRules : option Json → option Json → Exn + Json.
Variable CacheControl_build : option Json → option Json → string.
Variable md5hex : Buffer → string.
Variable mime_getType : string → option string.
Context {St Err : Type} {client : S3Client St Err}
        {admin : BucketClient St Err Json}.

Local Abbreviation run_deploy :=
  (deploy Json Credentials Handle Exn configuration_exists configuration_read
     credentialsForProfile AWS_s3 execa_shell RoutingRules CacheControl_build
     md5hex mime_getType).

Ltac run_pipeline :=
  unfold deploy, runTasks, runTask, job_bind, job_ret, emit, throw; simpl;
  unfold loadConfiguration, buildWebsite, createBucketSkip, createBucketBody,
    configureBucketAsWebsite, synchronizeWebsite, get_config, get_s3, shell,
    await_admin, evaluate, job_bind, job_ret, throw, with_context, with_store;
  simpl.

(** X11: without a configuration file the run ends at once with the
    [KnownError] that asks for [discharge init]: the first task has started,
    no command has run, no call has been issued, and the context, the files
    and the store are as they were. *)
Theorem deploy_without_configuration (d : Deploy Json Handle St) :
  configuration_exists (files d) (configurationPath (context d)) = false →
  run_deploy d
  = (inl (KnownError "No configuration file, run `discharge init` first"),
     {| context := context d; files := files d; world := world d;
        trace := trace d ++ [Started "Load configuration"] |}).
Proof. intros Hnone. run_pipeline. by rewrite Hnone. Qed.

(** X12: when the build command fails, the run ends with the error of the
    command and no call to the store has been issued: the store, the status
    lines and the object calls are as they were. *)
Theorem deploy_build_failure (d : Deploy Json Handle St)
  (config : Settings Json) (credentials : Credentials) (h : Handle)
  (e : Exn) (fs' : FileSystem) :
  configuration_exists (files d) (configurationPath (context d)) = true →
  configuration_read (files d) (configurationPath (context d)) = inr config →
  credentialsForProfile (aws_profile config) = inr credentials →
  AWS_s3 credentials (aws_region config) = inr h →
  execa_shell (build_command config) (files d) = (inl e, fs') →
  run_deploy d
  = (inl (Raised e),
     {| context := {| configurationPath := configurationPath (context d);
                      ctx_s3 := Some h; ctx_config := Some config |};
        files := fs'; world := world d;
        trace := trace d ++ [Started "Load configuration";
                             Started "Build website";
                             Shell (build_command config)] |}).
Proof.
  intros Hex Hread Hcred Hs3 Hbuild. run_pipeline.
  rewrite Hex, Hread. simpl. rewrite Hcred. simpl. rewrite Hs3. simpl.
  rewrite Hbuild. simpl. by rewrite <- !app_assoc.
Qed.

(** X13: a run of the list never ends on a [TypeError]: every task that
    reads [context.config] or [context.s3] runs after the first task has set
    them. *)
Theorem deploy_never_reads_undefined (d : Deploy Json Handle St) :
  threw_TypeError (run_deploy d).1 = false.
Proof.
  run_pipeline.
  repeat (case_match; simpl in *; simplify_eq; try done).
Qed.

(** X14: the events of a run come in the order of the tasks: the build
    command before every call to the store, [headBucket] and [createBucket]
    before [putBucketWebsite], and every bucket-level call before the first
    listing or upload; objects are listed and uploaded only after the build
    command has run and the website configuration has been put. *)
Theorem deploy_events_in_task_order (d : Deploy Json Handle St) :
  ∃ new,
    trace (run_deploy d).2 = trace d ++ new
    ∧ StronglySorted (λ a b, (stage a ≤ stage b)%nat) new
    ∧ ∀ r, ObjectCall r ∈ new →
           ∃ command h p,
             Shell command ∈ new ∧ HeadBucketCall h ∈ new
             ∧ PutBucketWebsiteCall p ∈ new.
Proof.
  run_pipeline.
  repeat (case_match; simpl in *; simplify_eq).
  all: simpl; rewrite <- ?app_assoc; simpl.
  all: eexists; split; [reflexivity |].
  all: split;
    [ repeat first
        [ apply new_calls_sorted
        | apply new_calls_after; vm_compute; lia
        | vm_compute; lia
        | constructor ]
    | ].
  all: first
    [ by intros ? Hin;
        repeat (apply elem_of_cons in Hin as [Hin|Hin]; [discriminate |]);
        apply elem_of_nil in Hin
    | intros ? _; eexists _, _, _; repeat split; repeat constructor ].
Qed.

(** X16: a run that ends without exception has run every task: the context
    holds the configuration that was read and the client that [AWS.s3] built
    from the credentials of its profile and from its region, the
    build command has run on the files, and the run has issued the build
    command, the [headBucket] probe, the [putBucketWebsite] call with the
    parameters of the configuration, and the listing call of the
    synchronisation. *)
Theorem deploy_success_ran_every_task (d d' : Deploy Json Handle St) :
  run_deploy d = (inr tt, d') →
  ∃ config credentials h p new,
    context d' = {| configurationPath := configurationPath (context d);
                    ctx_s3 := Some h; ctx_config := Some config |}
    ∧ configuration_read (files d) (configurationPath (context d)) = inr config
    ∧ credentialsForProfile (aws_profile config) = inr credentials
    ∧ AWS_s3 credentials (aws_region config) = inr h
    ∧ execa_shell (build_command config) (files d) = (inr tt, files d')
    ∧ websiteParams Json Exn RoutingRules config = inr p
    ∧ trace d' = trace d ++ new
    ∧ Shell (build_command config) ∈ new
    ∧ HeadBucketCall {| HeadBucket.Bucket := domain (site config) |} ∈ new
    ∧ PutBucketWebsiteCall p ∈ new
    ∧ ObjectCall (ListObjects (listRequest (site config))) ∈ new.
Proof.
  run_pipeline.
  repeat (case_match; simpl in *; simplify_eq; try done).
  all: intros [= <-]; simpl; rewrite <- ?app_assoc; simpl.
  all: repeat match goal with u : unit |- _ => destruct u end.
  all: match goal with
       | Hsync : synchronizeWebsiteTask _ _ _ _ _ _ = _ |- _ =>
           apply sync_requests in Hsync
             as [(? & ? & _) | (reqs & Hreqs & _)]; [done |]
       end.
  all: unfold new_calls; simpl in *; rewrite Hreqs, drop_app_length; simpl.
  all: eexists _, _, _, _, _.
  all: split; [reflexivity |].
  all: split; [reflexivity |].
  all: split; [eassumption |].
  all: split; [eassumption |].
  all: split; [eassumption |].
  all: split; [eassumption |].
  all: split; [reflexivity |].
  all: repeat split; repeat constructor.
Qed.

End TaskList.

Lemma deploy_success_ran_every_task_witness :
  ∃ config credentials h p new,
    context Project.shipped.2
    = {| configurationPath := ".discharge.json";
         ctx_s3 := Some h; ctx_config := Some config |}
    ∧ Project.read_settings Project.sources ".discharge.json" = inr config
    ∧ Project.credentials (aws_profile config) = inr credentials
    ∧ Project.make_client credentials (aws_region config) = inr h
    ∧ Project.run_build (build_command config) Project.sources
      = (inr tt, files Project.shipped.2)
    ∧ websiteParams string string Project.rules config = inr p
    ∧ trace Project.shipped.2 = [] ++ new
    ∧ Shell (build_command config) ∈ new
    ∧ HeadBucketCall {| HeadBucket.Bucket := domain (site config) |} ∈ new
    ∧ PutBucketWebsiteCall p ∈ new
    ∧ ObjectCall (ListObjects (listRequest (site config))) ∈ new.
Proof.
  apply (deploy_success_ran_every_task
           (client := MemSite.objects_client sample_digest)
           (admin := MemSite.bucket_client)
           string string (string * string) string
           Project.exists_file Project.read_settings Project.credentials
           Project.make_client Project.run_build Project.rules
           Project.cache_header sample_digest no_mime
           (Project.initial ".discharge.json" Project.empty_store)
           Project.shipped.2).
  vm_compute. reflexivity.
Defined.

Lemma deploy_without_configuration_witness :
  Project.run Project.run_build "nothing.json" Project.empty_store
  = (inl (KnownError "No configuration file, run `discharge init` first"),
     {| context := context (Project.initial "nothing.json" Project.empty_store);
        files := Project.sources;
        world := start Project.empty_store;
        trace := [Started "Load configuration"] |}).
Proof.
  unfold Project.run.
  apply (deploy_without_configuration
           (client := MemSite.objects_client sample_digest)
           (admin := MemSite.bucket_client)
           string string (string * string) string
           Project.exists_file Project.read_settings Project.credentials
           Project.make_client Project.run_build Project.rules
           Project.cache_header sample_digest no_mime
           (Project.initial "nothing.json" Project.empty_store)).
  vm_compute. reflexivity.
Defined.

Lemma deploy_build_failure_witness :
  Project.run Project.failing_build ".discharge.json" Project.empty_store
  = (inl (Raised "exit code 1"),
     {| context := context (Project.loaded Project.empty_store);
        files := Project.sources;
        world := start Project.empty_store;
        trace := [Started "Load configuration"; Started "Build website";
                  Shell "npm run build"] |}).
Proof.
  unfold Project.run.
  apply (deploy_build_failure
           (client := MemSite.objects_client sample_digest)
           (admin := MemSite.bucket_client)
           string string (string * string) string
           Project.exists_file Project.read_settings Project.credentials
           Project.make_client Project.failing_build Project.rules
           Project.cache_header sample_digest no_mime
           (Project.initial ".discharge.json" Project.empty_store)
           Project.settings "default" ("default", "us-east-1")
           "exit code 1" Project.sources).
  - vm_compute. reflexivity.
  - reflexivity.
  - reflexivity.
  - reflexivity.
  - reflexivity.
Defined.
